(** * Infinity storage core: WAL manager and full-text index reader cache

    A shallow embedding of

    - [src/storage/wal/wal_manager.cpp] (class [WalManager]: start and stop,
      the flush loop, checkpointing, WAL replay),
    - the [column_index_reader] module implementation ([ColumnIndexReader]:
      [Open], [Lookup], [LookupBlockMax], [GetAvgColumnLength];
      [TableIndexReaderCache]: [UpdateKnownUpdateTs], [GetIndexReader]),
    - the full-text import benchmark ([ReadJsonl], [BenchmarkInsert],
      [Parse], [main]), and
    - the client interface and the HTTP handlers of three data definition
      requests ([infinity.cpp], [http_server.cpp]),

    followed by the properties of these functions.

    Conventions.  Machine integers are [Z]; a conversion the source performs
    (an [i32] assignment, a [(BlockID)] cast) is written out with
    [to_signed] / [to_unsigned].  A C++ exception is a [Throw] result of the
    state-and-exception monad [M]; the state survives the exception, as the
    object does in C++.  Calls into components whose code is outside these
    files (transaction manager, catalog, background processor) are recorded
    as [Event]s in a trace, and their answers come from an environment
    record whose functions may depend on the trace so far.  Where the
    source has undefined behaviour (a null dereference, an access beyond a
    buffer) the embedding stops with [Throw InvalidAccess]: this marks the
    point, it does not say what the program does from there. *)

From Stdlib Require Import ZArith Lia Strings.Byte.
From stdpp Require Import base option list gmap strings sorting.

(** ** Machine integers *)

Definition to_unsigned (bits : Z) (z : Z) : Z := (z mod 2 ^ bits)%Z.

Definition to_signed (bits : Z) (z : Z) : Z :=
  (let u := z mod 2 ^ bits in
   if u <? 2 ^ (bits - 1) then u else u - 2 ^ bits)%Z.

Definition to_i32 : Z → Z := to_signed 32.
Definition to_i64 : Z → Z := to_signed 64.

(** [std::numeric_limits<TxnTimeStamp>::max()] for the 64-bit unsigned
    [TxnTimeStamp]. *)
Definition TxnTimeStamp_max : Z := (2 ^ 64 - 1)%Z.

Definition TxnTimeStamp := Z.
Definition TransactionID := Z.
Definition SegmentID := Z.

(** ** Exceptions and the state-and-exception monad *)

(** The messages of the [UnrecoverableError] / [RecoverableError] calls of
    the embedded functions, without their formatting. *)
Inductive ErrMsg :=
| WalEntryCommandsEmpty (txn_id : TransactionID)
| EstimatedSizeDiffers (exp_size act_size : Z)
| FailedToOpenWalFile
| LastFullCkpTsGeMaxCommitTs (last_full_ckp_ts max_commit_ts : TxnTimeStamp)
| LastCkpTsGeMaxCommitTs (last_ckp_ts max_commit_ts : TxnTimeStamp)
| NoCheckpointFoundInWal
| ParseCatalogFileFailed
| CommitTsShouldBeGreater
| UnknownWalCommandType
| GetTableFailed
| ReplaySegmentShouldBeCompactable
| AlterInfoReplayNotImplemented
| TableIndexEntryNotFound.

Inductive Exn :=
| UnrecoverableException (msg : ErrMsg)
| RecoverableException (msg : ErrMsg)
| StdException   (* std::bad_alloc, std::length_error, std::out_of_range *)
| InvalidAccess. (* null dereference or out-of-bounds access: undefined in C++ *)

Inductive Res (A : Type) :=
| Ok (a : A)
| Throw (e : Exn).
Arguments Ok {A} a.
Arguments Throw {A} e.

Definition M (S A : Type) : Type := S → Res A * S.

Definition ret {S A} (a : A) : M S A := λ s, (Ok a, s).
Definition throw {S A} (e : Exn) : M S A := λ s, (Throw e, s).
Definition bind {S A B} (c : M S A) (k : A → M S B) : M S B :=
  λ s, match c s with
       | (Ok a, s') => k a s'
       | (Throw e, s') => (Throw e, s')
       end.
Definition gets {S A} (f : S → A) : M S A := λ s, (Ok (f s), s).
Definition modify {S} (f : S → S) : M S unit := λ s, (Ok tt, f s).

Definition UnrecoverableError {S A} (msg : ErrMsg) : M S A :=
  throw (UnrecoverableException msg).
Definition RecoverableError {S A} (msg : ErrMsg) : M S A :=
  throw (RecoverableException msg).

#[global] Instance M_ret {S} : MRet (M S) := λ A, ret.

(** stdpp's monadic notations, read in [M] (the computation is elaborated
    before its continuation). *)
Declare Scope M_scope.
Delimit Scope M_scope with M.
Notation "x ← y ; z" := (bind y (λ x, z)) (only parsing) : M_scope.
Notation "y ;; z" := (bind y (λ _, z)) (only parsing) : M_scope.
Open Scope M_scope.

(** [for (x : xs) body(x)], without [break]. *)
Fixpoint for_each {S A} (xs : list A) (body : A → M S unit) : M S unit :=
  match xs with
  | [] => ret tt
  | x :: xs' => body x;; for_each xs' body
  end.

(** ** Types shared by the two components *)

Module Types.

(** [RowID]: a segment id and an offset in the segment. *)
Record RowID := mkRowID {
  rowid_segment_id_ : SegmentID;
  rowid_segment_offset_ : Z
}.

(** [IndexType]: only [kFullText] is named in the embedded code. *)
Inductive IndexType :=
| kFullText
| kOtherIndexType (tag : Z).

#[global] Instance IndexType_eq_dec : EqDecision IndexType.
Proof. solve_decision. Defined.

(** [IndexBase], with the two members of its subclass [IndexFullText]
    ([analyzer_], [flag_]), which are read only when [index_type_] is
    [kFullText]. *)
Record IndexBase := mkIndexBase {
  index_type_ : IndexType;
  index_name_ : string;
  column_name : string;
  analyzer_ : string;
  flag_ : Z
}.

End Types.
Export Types.

(** * The WAL manager ([wal_manager.cpp]) *)

Module Wal.

(** ** WAL commands and entries *)

(** [WalBlockInfo] and [WalSegmentInfo]: the payload of [Import] and
    [Compact], with the fields [ReplaySegment] reads. *)
Module WalBlockInfo.
Record t := mk {
  row_count_ : Z;
  row_capacity_ : Z;
  outline_infos_ : list (Z * Z)   (* (next_index, last_offset) per column *)
}.
End WalBlockInfo.

Module WalSegmentInfo.
Record t := mk {
  segment_id_ : SegmentID;
  column_count_ : Z;
  row_count_ : Z;
  actual_row_count_ : Z;
  row_capacity_ : Z;
  block_infos_ : list WalBlockInfo.t
}.
End WalSegmentInfo.

(** ** Catalog entries built by replay

    The catalog classes are declared outside [wal_manager.cpp]; the three
    records below hold what the [NewReplay...Entry] factories receive. *)

Inductive SegmentStatus := kUnsealed | kSealed | kCompacting | kDeprecated.

(** A [TableEntry *]: the catalog's table objects are identified by address. *)
Definition TableEntryPtr := N.

(** Modelled from the spec: [BlockColumnEntry::NewReplayBlockColumnEntry]
    (block_column_entry.cpp is not in src) keeps each argument in the field
    of the same name: the column id, the outline checkpoint
    [(next_index, last_offset)] and the commit timestamp. *)
Module BlockColumnEntry.
Record t := mk {
  column_id_ : Z;
  next_idx_ : Z;
  last_off_ : Z;
  commit_ts_ : TxnTimeStamp
}.
Definition NewReplayBlockColumnEntry (column_id next_idx last_off : Z)
    (commit_ts : TxnTimeStamp) : t :=
  mk column_id next_idx last_off commit_ts.
End BlockColumnEntry.

(** Modelled from the spec: [BlockEntry::NewReplayBlockEntry] and
    [BlockEntry::AddColumnReplay] (block_entry.cpp is not in src).  The
    factory keeps each argument in the field of the same name and starts
    with no column; [AddColumnReplay] registers the column under its id. *)
Module BlockEntry.
Record t := mk {
  block_id_ : Z;
  row_count_ : Z;
  row_capacity_ : Z;
  min_row_ts_ : TxnTimeStamp;
  max_row_ts_ : TxnTimeStamp;
  commit_ts_ : TxnTimeStamp;
  checkpoint_ts_ : TxnTimeStamp;
  checkpoint_row_count_ : Z;
  columns_ : gmap Z BlockColumnEntry.t
}.
Definition NewReplayBlockEntry (block_id row_count row_capacity : Z)
    (min_row_ts max_row_ts commit_ts checkpoint_ts : TxnTimeStamp)
    (checkpoint_row_count : Z) : t :=
  mk block_id row_count row_capacity min_row_ts max_row_ts commit_ts
     checkpoint_ts checkpoint_row_count ∅.
Definition AddColumnReplay (column_entry : BlockColumnEntry.t) (column_id : Z)
    (b : t) : t :=
  mk (block_id_ b) (row_count_ b) (row_capacity_ b) (min_row_ts_ b)
     (max_row_ts_ b) (commit_ts_ b) (checkpoint_ts_ b)
     (checkpoint_row_count_ b) (<[column_id := column_entry]> (columns_ b)).
End BlockEntry.

(** Modelled from the spec: [SegmentEntry::NewReplaySegmentEntry] and
    [SegmentEntry::AddBlockReplay] (segment_entry.cpp is not in src), in the
    same way. *)
Module SegmentEntry.
Record t := mk {
  table_entry_ : TableEntryPtr;
  segment_id_ : SegmentID;
  status_ : SegmentStatus;
  column_count_ : Z;
  row_count_ : Z;
  actual_row_count_ : Z;
  row_capacity_ : Z;
  min_row_ts_ : TxnTimeStamp;
  max_row_ts_ : TxnTimeStamp;
  commit_ts_ : TxnTimeStamp;
  deprecate_ts_ : TxnTimeStamp;
  begin_ts_ : TxnTimeStamp;
  txn_id_ : TransactionID;
  block_entries_ : gmap Z BlockEntry.t
}.
Definition NewReplaySegmentEntry (table_entry : TableEntryPtr)
    (segment_id : SegmentID) (status : SegmentStatus)
    (column_count row_count actual_row_count row_capacity : Z)
    (min_row_ts max_row_ts commit_ts deprecate_ts begin_ts : TxnTimeStamp)
    (txn_id : TransactionID) : t :=
  mk table_entry segment_id status column_count row_count actual_row_count
     row_capacity min_row_ts max_row_ts commit_ts deprecate_ts begin_ts txn_id ∅.
Definition AddBlockReplay (block_entry : BlockEntry.t) (block_id : Z) (s : t) : t :=
  mk (table_entry_ s) (segment_id_ s) (status_ s) (column_count_ s)
     (row_count_ s) (actual_row_count_ s) (row_capacity_ s) (min_row_ts_ s)
     (max_row_ts_ s) (commit_ts_ s) (deprecate_ts_ s) (begin_ts_ s) (txn_id_ s)
     (<[block_id := block_entry]> (block_entries_ s)).
End SegmentEntry.

(** ** Files of the WAL and catalog directories *)

(** [WalFileInfo]: a rolled log [wal.log.<max_commit_ts>]. *)
Record WalFileInfo := mkWalFileInfo {
  wfi_path_ : string;
  wfi_max_commit_ts_ : TxnTimeStamp
}.

(** A checkpoint file of the catalog directory: [FULL.<ts>.json] or
    [DELTA.<ts>]. *)
Record CatalogFileInfo := mkCatalogFileInfo {
  cfi_is_full_ : bool;
  cfi_max_commit_ts_ : TxnTimeStamp
}.

#[global] Instance CatalogFileInfo_eq_dec : EqDecision CatalogFileInfo.
Proof. solve_decision. Defined.

(** The active log [wal.log] (the bytes behind [ofs_]), the rolled logs with
    their contents, and the catalog directory. *)
Record FileSystem := mkFileSystem {
  wal_log : list byte;
  rolled_logs : list (TxnTimeStamp * list byte);
  catalog_files : list CatalogFileInfo
}.

Inductive FlushOption := kFlushAtOnce | kOnlyWrite | kFlushPerSecond.

(** Payloads the WAL manager passes on to the catalog without looking
    into them: a table definition (name and column names) and the rows of
    an append, in their serialized form. *)
Record TableDef := mkTableDef {
  table_name : string;
  columns : list string
}.

Record DataBlock := mkDataBlock {
  data_block_bytes : list byte
}.

Record WalCmdCheckpoint := mkWalCmdCheckpoint {
  ckp_max_commit_ts_ : TxnTimeStamp;
  ckp_is_full_checkpoint_ : bool;
  ckp_catalog_path_ : string
}.

(** The command taxonomy.  The last two types exist in the enumeration but
    their cases in [ReplayWalEntry] are commented out. *)
Inductive WalCmd :=
| WalCmdCreateDatabase (db_name_ db_dir_tail_ : string)
| WalCmdDropDatabase (db_name_ : string)
| WalCmdCreateTable (db_name_ table_dir_tail_ : string) (table_def_ : TableDef)
| WalCmdDropTable (db_name_ table_name_ : string)
| WalCmdAlterInfo
| WalCmdCreateIndex (db_name_ table_name_ index_dir_tail_ : string)
    (index_base_ : IndexBase)
| WalCmdDropIndex (db_name_ table_name_ index_name_ : string)
| WalCmdImport (db_name_ table_name_ : string) (segment_info_ : WalSegmentInfo.t)
| WalCmdAppend (db_name_ table_name_ : string) (block_ : DataBlock)
| WalCmdDelete (db_name_ table_name_ : string) (row_ids_ : list RowID)
| WalCmdCheckpointCmd (ckp : WalCmdCheckpoint)
| WalCmdCompact (db_name_ table_name_ : string)
    (new_segment_infos_ : list WalSegmentInfo.t)
    (deprecated_segment_ids_ : list SegmentID)
| WalCmdSetSegmentStatusSealed
| WalCmdUpdateSegmentBloomFilterData.

Record WalEntry := mkWalEntry {
  txn_id_ : TransactionID;
  commit_ts_ : TxnTimeStamp;
  cmds_ : list WalCmd
}.

(** A [SegmentEntry] living in the catalog, identified by address. *)
Definition SegmentEntryPtr := N.

(** ** Calls into the other components *)

Inductive Event :=
| EvOfsWrite (buf : list byte)                 (* ofs_.write *)
| EvOfsFlush                                   (* ofs_.flush *)
| EvCommitBottom (txn_id : TransactionID)      (* txn->CommitBottom() *)
| EvTxnManagerStop                             (* txn_mgr->Stop() *)
| EvSubmit (is_full_checkpoint : bool)         (* bg_processor()->Submit *)
| EvTxnCheckpoint (max_commit_ts : TxnTimeStamp) (is_full_checkpoint : bool)
| EvSwapWalFile (max_commit_ts : TxnTimeStamp)
| EvRecycleWalFile (max_commit_ts : TxnTimeStamp)
| EvRecycleCatalogFile (max_commit_ts : TxnTimeStamp)
| EvInitNewCatalog
| EvAttachCatalog (full : CatalogFileInfo) (deltas : list CatalogFileInfo)
| EvAddSegmentReplayWalImport (table : TableEntryPtr) (seg : SegmentEntry.t)
| EvAddSegmentReplayWalCompact (table : TableEntryPtr) (seg : SegmentEntry.t)
| EvTrySetCompacting (seg : SegmentEntryPtr)
| EvSetNoDelete (seg : SegmentEntryPtr)
| EvSetDeprecated (seg : SegmentEntryPtr) (commit_ts : TxnTimeStamp)
| EvReplayCommand (cmd : WalCmd) (txn_id : TransactionID) (commit_ts : TxnTimeStamp)
| EvSetNextTxnId (txn_id : TransactionID)
| EvInitDeltaEntry (max_commit_ts : TxnTimeStamp).

(** The answers of the other components.  A function whose answer depends
    on the state of its component takes the trace of the calls made so far. *)
Record Env := mkEnv {
  (* default_values: the sentinel UNCOMMIT_TS; internal_types: the widths
     of the unsigned types BlockID and ColumnID *)
  UNCOMMIT_TS : TxnTimeStamp;
  BlockID_bits : Z;
  ColumnID_bits : Z;
  (* wal_entry: serialization and the reverse iterator over log files *)
  GetSizeInBytes : WalEntry → Z;
  WriteAdv : WalEntry → list byte;
  WalListIterator : list string → list WalEntry;
  IsCheckPoint : list WalEntry → WalEntry → option WalCmdCheckpoint;
  (* log_file, catalog_file, std::filesystem *)
  ParseWalFilenames : option WalFileInfo * list WalFileInfo;
  ParseValidCheckpointFilenames :
    string → TxnTimeStamp → option (CatalogFileInfo * list CatalogFileInfo);
  parent_path : string → string;
  (* txn_manager, txn *)
  GetTxn : list Event → TransactionID → bool;
  TxnCheckpoint : list Event → TxnTimeStamp → bool → Res bool;
  (* catalog *)
  GetTableByName :
    list Event → string → string → TransactionID → TxnTimeStamp → option TableEntryPtr;
  GetSegmentByID :
    list Event → TableEntryPtr → SegmentID → TxnTimeStamp → option SegmentEntryPtr;
  TrySetCompacting : list Event → SegmentEntryPtr → bool;
  (* the replay handlers of the commands other than Import and Compact *)
  ReplayOtherCommand :
    list Event → WalCmd → TransactionID → TxnTimeStamp → Res unit
}.

(** ** The manager's state *)

Record WalManager := mkWalManager {
  cfg_wal_size_threshold_ : Z;
  cfg_delta_checkpoint_interval_wal_bytes_ : Z;
  running_ : bool;
  flush_option_ : FlushOption;
  blocking_queue_ : list (option WalEntry * option TransactionID);
  max_commit_ts_ : TxnTimeStamp;
  wal_size_ : Z;
  last_ckp_wal_size_ : Z;
  checkpoint_in_progress_ : bool;
  last_ckp_ts_ : TxnTimeStamp;
  last_full_ckp_ts_ : TxnTimeStamp;
  fs_ : FileSystem;
  trace_ : list Event
}.

Definition set_running_ (b : bool) (w : WalManager) : WalManager :=
  mkWalManager (cfg_wal_size_threshold_ w) (cfg_delta_checkpoint_interval_wal_bytes_ w)
    b (flush_option_ w) (blocking_queue_ w) (max_commit_ts_ w) (wal_size_ w)
    (last_ckp_wal_size_ w) (checkpoint_in_progress_ w) (last_ckp_ts_ w)
    (last_full_ckp_ts_ w) (fs_ w) (trace_ w).
Definition set_blocking_queue_ (q : list (option WalEntry * option TransactionID))
    (w : WalManager) : WalManager :=
  mkWalManager (cfg_wal_size_threshold_ w) (cfg_delta_checkpoint_interval_wal_bytes_ w)
    (running_ w) (flush_option_ w) q (max_commit_ts_ w) (wal_size_ w)
    (last_ckp_wal_size_ w) (checkpoint_in_progress_ w) (last_ckp_ts_ w)
    (last_full_ckp_ts_ w) (fs_ w) (trace_ w).
Definition set_max_commit_ts_ (ts : TxnTimeStamp) (w : WalManager) : WalManager :=
  mkWalManager (cfg_wal_size_threshold_ w) (cfg_delta_checkpoint_interval_wal_bytes_ w)
    (running_ w) (flush_option_ w) (blocking_queue_ w) ts (wal_size_ w)
    (last_ckp_wal_size_ w) (checkpoint_in_progress_ w) (last_ckp_ts_ w)
    (last_full_ckp_ts_ w) (fs_ w) (trace_ w).
Definition set_wal_size_ (n : Z) (w : WalManager) : WalManager :=
  mkWalManager (cfg_wal_size_threshold_ w) (cfg_delta_checkpoint_interval_wal_bytes_ w)
    (running_ w) (flush_option_ w) (blocking_queue_ w) (max_commit_ts_ w) n
    (last_ckp_wal_size_ w) (checkpoint_in_progress_ w) (last_ckp_ts_ w)
    (last_full_ckp_ts_ w) (fs_ w) (trace_ w).
Definition set_last_ckp_wal_size_ (n : Z) (w : WalManager) : WalManager :=
  mkWalManager (cfg_wal_size_threshold_ w) (cfg_delta_checkpoint_interval_wal_bytes_ w)
    (running_ w) (flush_option_ w) (blocking_queue_ w) (max_commit_ts_ w) (wal_size_ w)
    n (checkpoint_in_progress_ w) (last_ckp_ts_ w)
    (last_full_ckp_ts_ w) (fs_ w) (trace_ w).
Definition set_checkpoint_in_progress_ (b : bool) (w : WalManager) : WalManager :=
  mkWalManager (cfg_wal_size_threshold_ w) (cfg_delta_checkpoint_interval_wal_bytes_ w)
    (running_ w) (flush_option_ w) (blocking_queue_ w) (max_commit_ts_ w) (wal_size_ w)
    (last_ckp_wal_size_ w) b (last_ckp_ts_ w)
    (last_full_ckp_ts_ w) (fs_ w) (trace_ w).
Definition set_last_ckp_ts_ (ts : TxnTimeStamp) (w : WalManager) : WalManager :=
  mkWalManager (cfg_wal_size_threshold_ w) (cfg_delta_checkpoint_interval_wal_bytes_ w)
    (running_ w) (flush_option_ w) (blocking_queue_ w) (max_commit_ts_ w) (wal_size_ w)
    (last_ckp_wal_size_ w) (checkpoint_in_progress_ w) ts
    (last_full_ckp_ts_ w) (fs_ w) (trace_ w).
Definition set_last_full_ckp_ts_ (ts : TxnTimeStamp) (w : WalManager) : WalManager :=
  mkWalManager (cfg_wal_size_threshold_ w) (cfg_delta_checkpoint_interval_wal_bytes_ w)
    (running_ w) (flush_option_ w) (blocking_queue_ w) (max_commit_ts_ w) (wal_size_ w)
    (last_ckp_wal_size_ w) (checkpoint_in_progress_ w) (last_ckp_ts_ w)
    ts (fs_ w) (trace_ w).
Definition set_fs_ (f : FileSystem) (w : WalManager) : WalManager :=
  mkWalManager (cfg_wal_size_threshold_ w) (cfg_delta_checkpoint_interval_wal_bytes_ w)
    (running_ w) (flush_option_ w) (blocking_queue_ w) (max_commit_ts_ w) (wal_size_ w)
    (last_ckp_wal_size_ w) (checkpoint_in_progress_ w) (last_ckp_ts_ w)
    (last_full_ckp_ts_ w) f (trace_ w).
Definition set_trace_ (t : list Event) (w : WalManager) : WalManager :=
  mkWalManager (cfg_wal_size_threshold_ w) (cfg_delta_checkpoint_interval_wal_bytes_ w)
    (running_ w) (flush_option_ w) (blocking_queue_ w) (max_commit_ts_ w) (wal_size_ w)
    (last_ckp_wal_size_ w) (checkpoint_in_progress_ w) (last_ckp_ts_ w)
    (last_full_ckp_ts_ w) (fs_ w) t.

(** Record a call into another component. *)
Definition emit (ev : Event) : M WalManager unit :=
  modify (λ w, set_trace_ (trace_ w ++ [ev]) w).

(** ** Construction, start and stop *)

(** [WalManager::WalManager].  [max_commit_ts_] and [wal_size_] are not
    set by the constructor's initializer list; they are zero here. *)
Definition WalManager_new (env : Env)
    (wal_size_threshold delta_checkpoint_interval_wal_bytes : Z)
    (flush_option : FlushOption) (fs : FileSystem) : WalManager :=
  mkWalManager wal_size_threshold delta_checkpoint_interval_wal_bytes
    false flush_option [] 0%Z 0%Z 0%Z false (UNCOMMIT_TS env) (UNCOMMIT_TS env) fs [].

(** [WalManager::Start], up to the creation of the flush thread.  The log is
    opened in append mode, which always succeeds on [FileSystem]. *)
Definition Start : M WalManager unit :=
  expected ← gets running_;
  if expected then mret tt
  else
    modify (set_running_ true);;
    modify (set_wal_size_ 0%Z).

(** [WalManager::Stop], up to [flush_thread_.join()]: the terminate entry is
    the pair of null pointers. *)
Definition Stop : M WalManager unit :=
  expected ← gets running_;
  if negb expected then mret tt
  else
    modify (set_running_ false);;
    emit EvTxnManagerStop;;
    modify (λ w, set_blocking_queue_ (blocking_queue_ w ++ [(None, None)]) w).

(** [WalManager::PutEntry] *)
Definition PutEntry (entry : WalEntry) (txn : TransactionID) : M WalManager unit :=
  running ← gets running_;
  if negb running then mret tt
  else modify (λ w, set_blocking_queue_ (blocking_queue_ w ++ [(Some entry, Some txn)]) w).

Definition SetLastCkpWalSize (wal_size : Z) : M WalManager unit :=
  modify (set_last_ckp_wal_size_ wal_size).

Definition GetLastCkpWalSize : M WalManager Z := gets last_ckp_wal_size_.

(** ** The log file *)

Definition ofs_write (buf : list byte) : M WalManager unit :=
  modify (λ w, set_fs_ (mkFileSystem (wal_log (fs_ w) ++ buf) (rolled_logs (fs_ w))
                                     (catalog_files (fs_ w))) w);;
  emit (EvOfsWrite buf).

Definition ofs_flush : M WalManager unit := emit EvOfsFlush.

(** [LocalFileSystem::GetFileSizeByPath(wal_path_)] *)
Definition GetFileSizeByPath : M WalManager Z :=
  gets (λ w, Z.of_nat (length (wal_log (fs_ w)))).

(** [WalManager::SwapWalFile]: [wal.log] is renamed to
    [wal.log.<max_commit_ts>] (replacing a file of that name) and a fresh
    [wal.log] is opened. *)
Definition SwapWalFile (max_commit_ts : TxnTimeStamp) : M WalManager unit :=
  modify (λ w,
    set_fs_ (mkFileSystem []
               ((max_commit_ts, wal_log (fs_ w))
                  :: filter (λ f, f.1 ≠ max_commit_ts) (rolled_logs (fs_ w)))
               (catalog_files (fs_ w))) w);;
  emit (EvSwapWalFile max_commit_ts).

(** [try { ... } catch (RecoverableException &) { LOG_ERROR } catch
    (UnrecoverableException &e) { throw e; }] *)
Definition catch_recoverable (c : M WalManager unit) : M WalManager unit :=
  λ w, match c w with
       | (Throw (RecoverableException _), w') => (Ok tt, w')
       | r => r
       end.

(** [WalManager::TrySubmitCheckpointTask] *)
Definition TrySubmitCheckpointTask (is_full_checkpoint : bool) : M WalManager bool :=
  in_progress ← gets checkpoint_in_progress_;
  if in_progress then mret false
  else
    modify (set_checkpoint_in_progress_ true);;
    emit (EvSubmit is_full_checkpoint);;
    mret true.

(** ** [WalManager::Flush] *)

(** The body of the first loop over [log_batch], for a non-null entry.
    [Vector<char> buf(exp_size)] throws for a negative [exp_size].
    [entry->WriteAdv(ptr)] then writes the serialization through [ptr],
    which knows no bound: a serialization longer than [exp_size] runs over
    the end of [buf], before the two sizes are compared.  Otherwise the
    bytes written are the first [act_size] bytes of [buf], which is what
    [ofs_.write(buf.data(), ptr - buf.data())] appends to the log. *)
Definition Flush_write_entry (env : Env) (entry : WalEntry) : M WalManager unit :=
  match cmds_ entry with
  | [] => UnrecoverableError (WalEntryCommandsEmpty (txn_id_ entry))
  | _ :: _ =>
    let exp_size := to_i32 (GetSizeInBytes env entry) in
    if (exp_size <? 0)%Z then throw StdException
    else
      let written := WriteAdv env entry in
      if (exp_size <? Z.of_nat (length written))%Z then throw InvalidAccess
      else
        let act_size := to_i32 (Z.of_nat (length written)) in
        if negb (exp_size =? act_size)%Z
        then UnrecoverableError (EstimatedSizeDiffers exp_size act_size)
        else
          ofs_write written;;
          modify (set_max_commit_ts_ (commit_ts_ entry));;
          modify (λ w, set_wal_size_ (wal_size_ w + act_size)%Z w)
  end.

(** The first loop over [log_batch]: a null entry terminates it. *)
Fixpoint Flush_write_batch (env : Env) (log_batch : list (option WalEntry))
    : M WalManager unit :=
  match log_batch with
  | [] => mret tt
  | None :: _ => modify (set_running_ false)
  | Some entry :: rest =>
    Flush_write_entry env entry;;
    Flush_write_batch env rest
  end.

(** [switch (flush_option_)]: every case calls [ofs_.flush()]. *)
Definition Flush_sync (opt : FlushOption) : M WalManager unit :=
  match opt with
  | kFlushAtOnce => ofs_flush
  | kOnlyWrite => ofs_flush      (* FIXME: not flush, only write *)
  | kFlushPerSecond => ofs_flush (* FIXME: not flush, flush per second *)
  end.

(** The body of the second loop over [log_batch]. *)
Definition Flush_commit_entry (env : Env) (entry : option WalEntry)
    : M WalManager unit :=
  match entry with
  | None => throw InvalidAccess
  | Some e =>
    tr ← gets trace_;
    if GetTxn env tr (txn_id_ e) then emit (EvCommitBottom (txn_id_ e))
    else mret tt
  end.

Inductive LoopCtl := LoopContinue | LoopBreak.

(** [BlockingQueue::DequeueBulk]: takes everything that is queued. *)
Definition DequeueBulk : M WalManager (list (option WalEntry)) :=
  q ← gets blocking_queue_;
  modify (set_blocking_queue_ []);;
  mret (map fst q).

(** "Check if the wal file is too large, swap to a new one." *)
Definition Flush_swap_if_large : M WalManager unit :=
  catch_recoverable (
    file_size ← GetFileSizeByPath;
    threshold ← gets cfg_wal_size_threshold_;
    if (threshold <? file_size)%Z
    then max_commit_ts ← gets max_commit_ts_; SwapWalFile max_commit_ts
    else mret tt).

(** "Check if total wal is too large, do delta checkpoint." *)
Definition Flush_checkpoint_if_due : M WalManager unit :=
  last_ckp_wal_size ← GetLastCkpWalSize;
  wal_size ← gets wal_size_;
  interval ← gets cfg_delta_checkpoint_interval_wal_bytes_;
  if (to_i64 interval <? wal_size - last_ckp_wal_size)%Z
  then TrySubmitCheckpointTask false;; mret tt
  else mret tt.

(** One pass through the body of [while (running_.load())]. *)
Definition Flush_iteration (env : Env) : M WalManager LoopCtl :=
  log_batch ← DequeueBulk;
  match log_batch with
  | [] => mret LoopContinue
  | _ :: _ =>
    Flush_write_batch env log_batch;;
    running ← gets running_;
    if negb running then mret LoopBreak
    else
      opt ← gets flush_option_;
      Flush_sync opt;;
      for_each log_batch (Flush_commit_entry env);;
      Flush_swap_if_large;;
      Flush_checkpoint_if_due;;
      mret LoopContinue
  end.

(** A step of another thread: a commit hands over its entry, or the manager
    is stopped.  The checkpoint task of the background processor is not
    among the steps: a run of [Flush] is a stretch of the flush thread
    during which no [CheckpointInner] runs, and a run with checkpoints is
    the alternation of [Flush] and [CheckpointInner]. *)
Inductive ProducerStep :=
| StepPutEntry (entry : WalEntry) (txn : TransactionID)
| StepStop.

Definition run_step (s : ProducerStep) : M WalManager unit :=
  match s with
  | StepPutEntry entry txn => PutEntry entry txn
  | StepStop => Stop
  end.

(** [WalManager::Flush]: the main loop of the flush thread.  The schedule
    gives, for each pass, what the producers do before the thread tests
    [running_] and what they do while it waits in [DequeueBulk].  When the
    schedule is used up the thread stays blocked on the queue. *)
Fixpoint Flush (env : Env) (schedule : list (list ProducerStep * list ProducerStep))
    : M WalManager unit :=
  match schedule with
  | [] => mret tt
  | (before_test, while_waiting) :: schedule' =>
    for_each before_test run_step;;
    running ← gets running_;
    if negb running then mret tt
    else
      for_each while_waiting run_step;;
      ctl ← Flush_iteration env;
      match ctl with
      | LoopBreak => mret tt
      | LoopContinue => Flush env schedule'
      end
  end.

(** ** Checkpointing *)

(** [try { c } catch (RecoverableException &) { }] for a block with a
    result: [caught] is the value the code continues with after the
    handler. *)
Definition try_catch_recoverable {A} (c : M WalManager A) (caught : A) : M WalManager A :=
  λ w, match c w with
       | (Throw (RecoverableException _), w') => (Ok caught, w')
       | r => r
       end.

(** [DeferFn defer([&] { ... })]: the deferred action runs when the scope is
    left, by [return] or by an exception. *)
Definition with_defer {A} (deferred : WalManager → WalManager) (c : M WalManager A)
    : M WalManager A :=
  λ w, let '(r, w') := c w in (r, deferred w').

(** Modelled from the spec: the catalog directory after the checkpoint file
    [file] was written into it; a file of that name is replaced. *)
Definition write_catalog_file (file : CatalogFileInfo) (files : list CatalogFileInfo)
    : list CatalogFileInfo :=
  filter (λ f, f ≠ file) files ++ [file].

(** Modelled from the spec: [txn->Checkpoint(max_commit_ts, is_full_checkpoint)]
    (txn.cpp is not in src) serializes the catalog to a file under the
    catalog directory, [FULL.<max_commit_ts>.json] for a full checkpoint and
    [DELTA.<max_commit_ts>] for a delta one.  Whether it succeeds is the
    answer of the environment; the file is there when it returns [true].
    (The [Checkpoint] command it appends to the WAL travels in the entry of
    the checkpoint transaction and reaches the manager through [PutEntry]
    when that transaction commits.) *)
Definition Txn_Checkpoint (env : Env) (max_commit_ts : TxnTimeStamp)
    (is_full_checkpoint : bool) : M WalManager bool :=
  tr ← gets trace_;
  emit (EvTxnCheckpoint max_commit_ts is_full_checkpoint);;
  match TxnCheckpoint env tr max_commit_ts is_full_checkpoint with
  | Ok true =>
    modify (λ w,
      set_fs_ (mkFileSystem (wal_log (fs_ w)) (rolled_logs (fs_ w))
                 (write_catalog_file
                    (mkCatalogFileInfo is_full_checkpoint max_commit_ts)
                    (catalog_files (fs_ w)))) w);;
    mret true
  | r => λ w, (r, w)
  end.

(** Modelled from the spec: [WalFile::RecycleWalFile] (log_file.cpp is not in
    src) removes the obsolete log files, those with
    [max_commit_ts ≤ new_ckp_ts]. *)
Definition RecycleWalFile (max_commit_ts : TxnTimeStamp) : M WalManager unit :=
  modify (λ w,
    set_fs_ (mkFileSystem (wal_log (fs_ w))
               (filter (λ f, (max_commit_ts < f.1)%Z) (rolled_logs (fs_ w)))
               (catalog_files (fs_ w))) w);;
  emit (EvRecycleWalFile max_commit_ts).

(** Modelled from the spec: the catalog files a full checkpoint at
    [new_ckp_ts] makes obsolete are those with [max_commit_ts ≤ new_ckp_ts],
    but for the full snapshot of [new_ckp_ts] itself: recovery selects the
    newest full snapshot whose timestamp is at most the target and the
    deltas after it, so that snapshot is what keeps every timestamp from
    [new_ckp_ts] on recoverable. *)
Definition obsolete_catalog_file (new_ckp_ts : TxnTimeStamp) (f : CatalogFileInfo)
    : Prop :=
  (cfi_max_commit_ts_ f ≤ new_ckp_ts)%Z ∧
  f ≠ mkCatalogFileInfo true new_ckp_ts.

#[global] Instance obsolete_catalog_file_dec new_ckp_ts f :
  Decision (obsolete_catalog_file new_ckp_ts f).
Proof. unfold obsolete_catalog_file. apply _. Defined.

(** Modelled from the spec: [CatalogFile::RecycleCatalogFile]
    (catalog_file.cpp is not in src) removes the obsolete catalog files. *)
Definition RecycleCatalogFile (max_commit_ts : TxnTimeStamp) : M WalManager unit :=
  modify (λ w,
    set_fs_ (mkFileSystem (wal_log (fs_ w)) (rolled_logs (fs_ w))
               (filter (λ f, ¬ obsolete_catalog_file max_commit_ts f)
                       (catalog_files (fs_ w)))) w);;
  emit (EvRecycleCatalogFile max_commit_ts).

(** The checks at the head of [CheckpointInner]; [false] is the early
    [return] of a skipped checkpoint. *)
Definition CheckpointInner_check (env : Env) (is_full_checkpoint : bool)
    (max_commit_ts : TxnTimeStamp) : M WalManager bool :=
  last_ckp_ts ← gets last_ckp_ts_;
  last_full_ckp_ts ← gets last_full_ckp_ts_;
  if is_full_checkpoint then
    if (max_commit_ts =? last_full_ckp_ts)%Z then mret false
    else if negb (last_full_ckp_ts =? UNCOMMIT_TS env)%Z && (max_commit_ts <=? last_full_ckp_ts)%Z
    then UnrecoverableError (LastFullCkpTsGeMaxCommitTs last_full_ckp_ts max_commit_ts)
    else if negb (last_ckp_ts =? UNCOMMIT_TS env)%Z && (max_commit_ts <? last_ckp_ts)%Z
    then UnrecoverableError (LastCkpTsGeMaxCommitTs last_ckp_ts max_commit_ts)
    else mret true
  else
    if (max_commit_ts =? last_ckp_ts)%Z then mret false
    else if (max_commit_ts <=? last_ckp_ts)%Z
    then UnrecoverableError (LastCkpTsGeMaxCommitTs last_ckp_ts max_commit_ts)
    else mret true.

(** [WalManager::CheckpointInner] *)
Definition CheckpointInner (env : Env) (is_full_checkpoint : bool)
    (max_commit_ts : TxnTimeStamp) (wal_size : Z) : M WalManager unit :=
  with_defer (set_checkpoint_in_progress_ false) (
    go_on ← CheckpointInner_check env is_full_checkpoint max_commit_ts;
    if negb go_on then mret tt
    else
      go_on ← try_catch_recoverable (
                 ok ← Txn_Checkpoint env max_commit_ts is_full_checkpoint;
                 if negb ok then mret false
                 else SetLastCkpWalSize wal_size;; mret true) true;
      if negb go_on then mret tt
      else
        modify (set_last_ckp_ts_ max_commit_ts);;
        RecycleWalFile max_commit_ts;;
        if is_full_checkpoint then
          modify (set_last_full_ckp_ts_ max_commit_ts);;
          RecycleCatalogFile max_commit_ts
        else mret tt).

(** ** Replay *)

(** [for (i = 0; i < n; ++i) body(i, xs[i])] over the elements of [xs],
    starting with index [i]. *)
Fixpoint fold_indexed {A S} (i : Z) (xs : list A) (body : Z → A → S → S) (s : S) : S :=
  match xs with
  | [] => s
  | x :: xs' => fold_indexed (i + 1)%Z xs' body (body i x s)
  end.

(** The number of iterations of [for (T i = 0; i < (T)size; ++i)] for an
    unsigned type [T] of the given width. *)
Definition loop_bound (bits : Z) (size : nat) : nat :=
  Z.to_nat (to_unsigned bits (Z.of_nat size)).

(** The inner loop of [ReplaySegment]: the block-columns of a block. *)
Definition ReplayBlockColumns (env : Env) (block_info : WalBlockInfo.t)
    (commit_ts : TxnTimeStamp) (block_entry : BlockEntry.t) : BlockEntry.t :=
  let infos := WalBlockInfo.outline_infos_ block_info in
  fold_indexed 0%Z (take (loop_bound (ColumnID_bits env) (length infos)) infos)
    (λ column_id '(next_idx, last_off) block_entry,
       let column_entry :=
         BlockColumnEntry.NewReplayBlockColumnEntry column_id next_idx last_off commit_ts in
       BlockEntry.AddColumnReplay column_entry column_id block_entry)
    block_entry.

(** [WalManager::ReplaySegment]: used by import and compact, builds a new
    segment. *)
Definition ReplaySegment (env : Env) (table_entry : TableEntryPtr)
    (segment_info : WalSegmentInfo.t) (txn_id : TransactionID)
    (commit_ts : TxnTimeStamp) : SegmentEntry.t :=
  let segment_entry :=
    SegmentEntry.NewReplaySegmentEntry table_entry
      (WalSegmentInfo.segment_id_ segment_info)
      kSealed
      (WalSegmentInfo.column_count_ segment_info)
      (WalSegmentInfo.row_count_ segment_info)
      (WalSegmentInfo.actual_row_count_ segment_info)
      (WalSegmentInfo.row_capacity_ segment_info)
      commit_ts (* min_row_ts *)
      commit_ts (* max_row_ts *)
      commit_ts (* commit_ts *)
      (UNCOMMIT_TS env) (* deprecate_ts *)
      0%Z (* begin_ts *)
      txn_id in
  let infos := WalSegmentInfo.block_infos_ segment_info in
  fold_indexed 0%Z (take (loop_bound (BlockID_bits env) (length infos)) infos)
    (λ block_id block_info segment_entry,
       let block_entry :=
         BlockEntry.NewReplayBlockEntry block_id
           (WalBlockInfo.row_count_ block_info)
           (WalBlockInfo.row_capacity_ block_info)
           commit_ts (* min_row_ts *)
           commit_ts (* max_row_ts *)
           commit_ts (* commit_ts *)
           commit_ts (* checkpoint_ts *)
           (WalBlockInfo.row_count_ block_info) (* checkpoint_row_count *) in
       let block_entry := ReplayBlockColumns env block_info commit_ts block_entry in
       SegmentEntry.AddBlockReplay block_entry block_id segment_entry)
    segment_entry.

(** [Catalog::GetTableByName]; a status that is not ok is fatal in replay. *)
Definition GetTableByName_or_fail (env : Env) (db_name table_name : string)
    (txn_id : TransactionID) (commit_ts : TxnTimeStamp) : M WalManager TableEntryPtr :=
  tr ← gets trace_;
  match GetTableByName env tr db_name table_name txn_id commit_ts with
  | Some table_entry => mret table_entry
  | None => UnrecoverableError GetTableFailed
  end.

(** [WalManager::WalCmdImportReplay] *)
Definition WalCmdImportReplay (env : Env) (db_name table_name : string)
    (segment_info : WalSegmentInfo.t) (txn_id : TransactionID)
    (commit_ts : TxnTimeStamp) : M WalManager unit :=
  table_entry ← GetTableByName_or_fail env db_name table_name txn_id commit_ts;
  let segment_entry := ReplaySegment env table_entry segment_info txn_id commit_ts in
  emit (EvAddSegmentReplayWalImport table_entry segment_entry).

(** The second loop of [WalCmdCompactReplay], for one deprecated segment. *)
Definition CompactReplay_deprecate (env : Env) (table_entry : TableEntryPtr)
    (commit_ts : TxnTimeStamp) (segment_id : SegmentID) : M WalManager unit :=
  tr ← gets trace_;
  match GetSegmentByID env tr table_entry segment_id commit_ts with
  | None => throw InvalidAccess
  | Some segment_entry =>
    emit (EvTrySetCompacting segment_entry);;
    if negb (TrySetCompacting env tr segment_entry)
    then UnrecoverableError ReplaySegmentShouldBeCompactable
    else
      emit (EvSetNoDelete segment_entry);;
      emit (EvSetDeprecated segment_entry commit_ts)
  end.

(** [WalManager::WalCmdCompactReplay] *)
Definition WalCmdCompactReplay (env : Env) (db_name table_name : string)
    (new_segment_infos : list WalSegmentInfo.t)
    (deprecated_segment_ids : list SegmentID) (txn_id : TransactionID)
    (commit_ts : TxnTimeStamp) : M WalManager unit :=
  table_entry ← GetTableByName_or_fail env db_name table_name txn_id commit_ts;
  for_each new_segment_infos (λ new_segment_info,
    let segment_entry := ReplaySegment env table_entry new_segment_info txn_id commit_ts in
    emit (EvAddSegmentReplayWalCompact table_entry segment_entry));;
  for_each deprecated_segment_ids (CompactReplay_deprecate env table_entry commit_ts).

(** The handlers of the other commands: a call into the catalog whose
    outcome the environment decides. *)
Definition ReplayOther (env : Env) (cmd : WalCmd) (txn_id : TransactionID)
    (commit_ts : TxnTimeStamp) : M WalManager unit :=
  tr ← gets trace_;
  emit (EvReplayCommand cmd txn_id commit_ts);;
  (λ w, (ReplayOtherCommand env tr cmd txn_id commit_ts, w)).

(** The [switch] of [WalManager::ReplayWalEntry]. *)
Definition ReplayWalCmd (env : Env) (txn_id : TransactionID)
    (commit_ts : TxnTimeStamp) (cmd : WalCmd) : M WalManager unit :=
  match cmd with
  | WalCmdAlterInfo => RecoverableError AlterInfoReplayNotImplemented
  | WalCmdImport db_name table_name segment_info =>
    WalCmdImportReplay env db_name table_name segment_info txn_id commit_ts
  | WalCmdCheckpointCmd _ => mret tt
  | WalCmdCompact db_name table_name new_segment_infos deprecated_segment_ids =>
    WalCmdCompactReplay env db_name table_name new_segment_infos
      deprecated_segment_ids txn_id commit_ts
  | WalCmdSetSegmentStatusSealed | WalCmdUpdateSegmentBloomFilterData =>
    UnrecoverableError UnknownWalCommandType
  | _ => ReplayOther env cmd txn_id commit_ts
  end.

(** [WalManager::ReplayWalEntry] *)
Definition ReplayWalEntry (env : Env) (entry : WalEntry) : M WalManager unit :=
  for_each (cmds_ entry) (ReplayWalCmd env (txn_id_ entry) (commit_ts_ entry)).

(** The local variables of [ReplayWalFile] after phase 1, and the entries
    the iterator has not yet returned. *)
Record ReplayScan := mkReplayScan {
  scan_max_commit_ts : TxnTimeStamp;
  scan_catalog_dir : string;
  scan_system_start_ts : TxnTimeStamp;
  scan_replay_entries : list WalEntry;
  scan_iterator : list WalEntry
}.

(** Phase 1: from the newest entry backwards, find the checkpoint entry. *)
Fixpoint Replay_phase1 (env : Env) (iterator : list WalEntry)
    (replay_entries : list WalEntry) : ReplayScan :=
  match iterator with
  | [] => mkReplayScan 0%Z "" 0%Z replay_entries []
  | wal_entry :: iterator' =>
    match IsCheckPoint env replay_entries wal_entry with
    | Some checkpoint_cmd =>
      mkReplayScan (ckp_max_commit_ts_ checkpoint_cmd)
        (parent_path env (ckp_catalog_path_ checkpoint_cmd))
        (commit_ts_ wal_entry) replay_entries iterator'
    | None => Replay_phase1 env iterator' (replay_entries ++ [wal_entry])
    end
  end.

(** Phase 2: keep the older entries above the checkpoint's [max_commit_ts]. *)
Fixpoint Replay_phase2 (max_commit_ts : TxnTimeStamp) (iterator : list WalEntry)
    (replay_entries : list WalEntry) : list WalEntry :=
  match iterator with
  | [] => replay_entries
  | wal_entry :: iterator' =>
    if (max_commit_ts <? commit_ts_ wal_entry)%Z
    then Replay_phase2 max_commit_ts iterator' (replay_entries ++ [wal_entry])
    else replay_entries
  end.

(** Phase 3: replay in log order; the result is the pair
    [(system_start_ts, last_txn_id)]. *)
Fixpoint Replay_phase3 (env : Env) (max_commit_ts : TxnTimeStamp)
    (replay_entries : list WalEntry) (system_start_ts : TxnTimeStamp)
    (last_txn_id : TransactionID) : M WalManager (TxnTimeStamp * TransactionID) :=
  match replay_entries with
  | [] => mret (system_start_ts, last_txn_id)
  | entry :: rest =>
    if (commit_ts_ entry <? max_commit_ts)%Z
    then UnrecoverableError CommitTsShouldBeGreater
    else
      ReplayWalEntry env entry;;
      Replay_phase3 env max_commit_ts rest (commit_ts_ entry) (txn_id_ entry)
  end.

(** The comparison of [std::sort] in [ReplayWalFile]:
    [a.max_commit_ts_ > b.max_commit_ts_], as a total order for the
    (stable) merge sort. *)
Definition wal_info_before (a b : WalFileInfo) : Prop :=
  (wfi_max_commit_ts_ b ≤ wfi_max_commit_ts_ a)%Z.

#[global] Instance wal_info_before_dec : RelDecision wal_info_before.
Proof. intros a b. unfold wal_info_before. apply _. Defined.

(** The list of log files: the active [wal.log] first, then the rolled logs
    by descending [max_commit_ts]. *)
Definition Replay_wal_list (env : Env) : list string :=
  let '(temp_wal_info, wal_infos) := ParseWalFilenames env in
  let wal_infos := merge_sort wal_info_before wal_infos in
  match temp_wal_info with
  | Some info => [wfi_path_ info]
  | None => []
  end ++ map wfi_path_ wal_infos.

(** [WalManager::ReplayWalFile] *)
Definition ReplayWalFile (env : Env) : M WalManager Z :=
  let wal_list := Replay_wal_list env in
  match wal_list with
  | [] =>
    emit EvInitNewCatalog;;
    mret 0%Z
  | _ :: _ =>
    let scan := Replay_phase1 env (WalListIterator env wal_list) [] in
    let max_commit_ts := scan_max_commit_ts scan in
    let replay_entries :=
      Replay_phase2 max_commit_ts (scan_iterator scan) (scan_replay_entries scan) in
    if (scan_system_start_ts scan =? 0)%Z
    then UnrecoverableError NoCheckpointFoundInWal
    else
      match ParseValidCheckpointFilenames env (scan_catalog_dir scan) max_commit_ts with
      | None => UnrecoverableError ParseCatalogFileFailed
      | Some (full_catalog_fileinfo, delta_catalog_fileinfos) =>
        emit (EvAttachCatalog full_catalog_fileinfo delta_catalog_fileinfos);;
        r ← Replay_phase3 env max_commit_ts (reverse replay_entries)
              (scan_system_start_ts scan) 0%Z;
        let '(system_start_ts, last_txn_id) := r in
        emit (EvSetNextTxnId last_txn_id);;
        modify (set_max_commit_ts_ system_start_ts);;
        emit (EvInitDeltaEntry system_start_ts);;
        mret (to_i64 system_start_ts)
      end
  end.

(** ** Vocabulary of the properties *)

(** The check of the flush loop passes: the serialization fills the buffer
    of the estimated size, an [i32], exactly. *)
Definition size_verified (env : Env) (entry : WalEntry) : Prop :=
  to_i32 (GetSizeInBytes env entry)
  = Z.of_nat (length (WriteAdv env entry)).

(** The [ofs_.write] of an entry. *)
Definition write_of (env : Env) (entry : WalEntry) : Event :=
  EvOfsWrite (WriteAdv env entry).

Definition is_commit_bottom (ev : Event) : Prop :=
  match ev with EvCommitBottom _ => True | _ => False end.

(** What follows the commits in a pass of the flush loop: the log swap and
    the submission of a checkpoint task. *)
Definition is_housekeeping (ev : Event) : Prop :=
  match ev with EvSwapWalFile _ | EvSubmit _ => True | _ => False end.

(** The transactions the second loop of [Flush] finalizes, for the entries
    of a batch and the trace before the loop. *)
Fixpoint committed (env : Env) (tr : list Event) (entries : list WalEntry)
    : list TransactionID :=
  match entries with
  | [] => []
  | e :: es =>
    if GetTxn env tr (txn_id_ e)
    then txn_id_ e :: committed env (tr ++ [EvCommitBottom (txn_id_ e)]) es
    else committed env tr es
  end.

Definition is_write (ev : Event) : Prop :=
  match ev with EvOfsWrite _ => True | _ => False end.

(** Every write to the log in [evs] is the write of an entry that passed
    the size check. *)
Definition writes_verified (env : Env) (evs : list Event) : Prop :=
  Forall (λ ev, is_write ev →
                ∃ entry, ev = write_of env entry ∧ size_verified env entry) evs.

(** Every [CommitBottom] in [evs] comes after the write of an entry of that
    transaction and a flush of the log that follows this write. *)
Definition durable_before_commit (env : Env) (evs : list Event) : Prop :=
  ∀ pre txn_id post,
    evs = pre ++ EvCommitBottom txn_id :: post →
    ∃ entry pre1 pre2 pre3,
      txn_id_ entry = txn_id ∧
      pre = pre1 ++ write_of env entry :: pre2 ++ EvOfsFlush :: pre3.

(** An entry the write loop accepts. *)
Definition flushable (env : Env) (entry : WalEntry) : Prop :=
  cmds_ entry ≠ [] ∧
  (0 ≤ to_i32 (GetSizeInBytes env entry))%Z ∧
  size_verified env entry.

(** The block-column [ReplaySegment] creates for the outline checkpoint
    [info] of column [column_id]. *)
Definition replayed_column (commit_ts : TxnTimeStamp) (column_id : Z) (info : Z * Z)
    : BlockColumnEntry.t :=
  BlockColumnEntry.mk column_id info.1 info.2 commit_ts.

(** [b] is block [block_id] as recreated from [block_info]: the recorded
    row count and capacity, every timestamp equal to [commit_ts], and one
    block-column per recorded outline checkpoint, in column order. *)
Definition block_replayed (commit_ts : TxnTimeStamp) (block_id : Z)
    (block_info : WalBlockInfo.t) (b : BlockEntry.t) : Prop :=
  BlockEntry.block_id_ b = block_id ∧
  BlockEntry.row_count_ b = WalBlockInfo.row_count_ block_info ∧
  BlockEntry.row_capacity_ b = WalBlockInfo.row_capacity_ block_info ∧
  BlockEntry.min_row_ts_ b = commit_ts ∧
  BlockEntry.max_row_ts_ b = commit_ts ∧
  BlockEntry.commit_ts_ b = commit_ts ∧
  BlockEntry.checkpoint_ts_ b = commit_ts ∧
  BlockEntry.checkpoint_row_count_ b = WalBlockInfo.row_count_ block_info ∧
  ∀ k : Z,
    BlockEntry.columns_ b !! k
    = if decide (0 ≤ k)%Z
      then replayed_column commit_ts k
             <$> WalBlockInfo.outline_infos_ block_info !! Z.to_nat k
      else None.

(** [s] is the segment recreated from [segment_info] at [commit_ts]. *)
Definition segment_replayed (env : Env) (table_entry : TableEntryPtr)
    (txn_id : TransactionID) (commit_ts : TxnTimeStamp)
    (segment_info : WalSegmentInfo.t) (s : SegmentEntry.t) : Prop :=
  SegmentEntry.status_ s = kSealed ∧
  SegmentEntry.min_row_ts_ s = commit_ts ∧
  SegmentEntry.max_row_ts_ s = commit_ts ∧
  SegmentEntry.commit_ts_ s = commit_ts ∧
  SegmentEntry.deprecate_ts_ s = UNCOMMIT_TS env ∧
  SegmentEntry.table_entry_ s = table_entry ∧
  SegmentEntry.txn_id_ s = txn_id ∧
  SegmentEntry.segment_id_ s = WalSegmentInfo.segment_id_ segment_info ∧
  SegmentEntry.column_count_ s = WalSegmentInfo.column_count_ segment_info ∧
  SegmentEntry.row_count_ s = WalSegmentInfo.row_count_ segment_info ∧
  SegmentEntry.actual_row_count_ s = WalSegmentInfo.actual_row_count_ segment_info ∧
  SegmentEntry.row_capacity_ s = WalSegmentInfo.row_capacity_ segment_info ∧
  (∀ k : Z, (k < 0)%Z → SegmentEntry.block_entries_ s !! k = None) ∧
  (∀ i : nat,
     option_Forall2 (block_replayed commit_ts (Z.of_nat i))
       (WalSegmentInfo.block_infos_ segment_info !! i)
       (SegmentEntry.block_entries_ s !! Z.of_nat i)).

(** The numbers of blocks and of columns are values of [BlockID] and
    [ColumnID]. *)
Definition info_in_range (env : Env) (segment_info : WalSegmentInfo.t) : Prop :=
  (Z.of_nat (length (WalSegmentInfo.block_infos_ segment_info))
   < 2 ^ BlockID_bits env)%Z ∧
  Forall (λ block_info,
            (Z.of_nat (length (WalBlockInfo.outline_infos_ block_info))
             < 2 ^ ColumnID_bits env)%Z)
         (WalSegmentInfo.block_infos_ segment_info).

Definition adds_no_segment (ev : Event) : Prop :=
  match ev with
  | EvAddSegmentReplayWalImport _ _ | EvAddSegmentReplayWalCompact _ _ => False
  | _ => True
  end.

(** ** A small concrete setting *)

(** A serialization of the right shape: 24 bytes of header, one byte per
    command, 4 bytes of checksum. *)
Definition example_WriteAdv (entry : WalEntry) : list byte :=
  repeat x00 (24 + length (cmds_ entry) + 4).

Definition example_env : Env :=
  mkEnv TxnTimeStamp_max 16 64
    (λ entry, Z.of_nat (length (example_WriteAdv entry)))
    example_WriteAdv
    (λ _, [])
    (λ _ _, None)
    (None, [])
    (λ _ _, None)
    (λ path, path)
    (λ _ _, true)
    (λ _ _ _, Ok true)
    (λ _ _ _ _ _, Some 1%N)
    (λ _ _ _ _, Some 2%N)
    (λ _ _, true)
    (λ _ _ _ _, Ok tt).

(** The same with a size estimate that is too small. *)
Definition example_env_bad_size : Env :=
  mkEnv TxnTimeStamp_max 16 64
    (λ _, 7%Z)
    example_WriteAdv
    (λ _, [])
    (λ _ _, None)
    (None, [])
    (λ _ _, None)
    (λ path, path)
    (λ _ _, true)
    (λ _ _ _, Ok true)
    (λ _ _ _ _ _, Some 1%N)
    (λ _ _ _ _, Some 2%N)
    (λ _ _, true)
    (λ _ _ _ _, Ok tt).

(** The same with a size estimate that is too large. *)
Definition example_env_large_size : Env :=
  mkEnv TxnTimeStamp_max 16 64
    (λ _, 100%Z)
    example_WriteAdv
    (λ _, [])
    (λ _ _, None)
    (None, [])
    (λ _ _, None)
    (λ path, path)
    (λ _ _, true)
    (λ _ _ _, Ok true)
    (λ _ _ _ _ _, Some 1%N)
    (λ _ _ _ _, Some 2%N)
    (λ _ _, true)
    (λ _ _ _ _, Ok tt).

Definition example_entry1 : WalEntry :=
  mkWalEntry 1%Z 10%Z [WalCmdCreateDatabase "db1" "db1_dir"].

Definition example_entry2 : WalEntry :=
  mkWalEntry 2%Z 11%Z [WalCmdDropDatabase "db0"; WalCmdDropTable "db1" "t"].

Definition example_fs : FileSystem :=
  mkFileSystem [] [(5%Z, [x01; x02])]
    [mkCatalogFileInfo true 3%Z; mkCatalogFileInfo false 5%Z].

(** A running manager under [kOnlyWrite] with two entries queued and the
    last checkpoint at 5. *)
Definition example_manager : WalManager :=
  mkWalManager 1024%Z 4096%Z true kOnlyWrite
    [(Some example_entry1, Some 1%Z); (Some example_entry2, Some 2%Z)]
    9%Z 0%Z 0%Z false 5%Z 3%Z example_fs [].

(** The producers stay quiet during the first pass and stop the manager
    while the thread waits for the second batch. *)
Definition example_schedule : list (list ProducerStep * list ProducerStep) :=
  [([], []); ([], [StepStop])].

(** A manager that was never started. *)
Definition example_manager_idle : WalManager :=
  WalManager_new example_env 1024%Z 4096%Z kFlushAtOnce example_fs.

(** A checkpoint finder that takes the first [Checkpoint] command of the
    entry. *)
Definition example_IsCheckPoint (replay_entries : list WalEntry) (entry : WalEntry)
    : option WalCmdCheckpoint :=
  head (omap (λ cmd, match cmd with
                     | WalCmdCheckpointCmd ckp => Some ckp
                     | _ => None
                     end) (cmds_ entry)).

(** A WAL directory with [wal.log] and [wal.log.5] that hold the given
    entries, newest first. *)
Definition example_env_replay (entries : list WalEntry) : Env :=
  mkEnv TxnTimeStamp_max 16 64
    (λ entry, Z.of_nat (length (example_WriteAdv entry)))
    example_WriteAdv
    (λ _, entries)
    example_IsCheckPoint
    (Some (mkWalFileInfo "wal.log" 0%Z), [mkWalFileInfo "wal.log.5" 5%Z])
    (λ _ ts, Some (mkCatalogFileInfo true 3%Z, [mkCatalogFileInfo false ts]))
    (λ path, path)
    (λ _ _, true)
    (λ _ _ _, Ok true)
    (λ _ _ _ _ _, Some 1%N)
    (λ _ _ _ _, Some 2%N)
    (λ _ _, true)
    (λ _ _ _ _, Ok tt).

(** A segment of two blocks with two columns each. *)
Definition example_segment_info : WalSegmentInfo.t :=
  WalSegmentInfo.mk 4%Z 2%Z 100%Z 100%Z 8192%Z
    [WalBlockInfo.mk 60%Z 64%Z [(1%Z, 10%Z); (0%Z, 0%Z)];
     WalBlockInfo.mk 40%Z 64%Z [(2%Z, 20%Z); (0%Z, 0%Z)]].

Definition example_checkpoint_entry : WalEntry :=
  mkWalEntry 3%Z 12%Z [WalCmdCheckpointCmd (mkWalCmdCheckpoint 9%Z false "catalog/DELTA.9")].

(** ** Vocabulary of the properties of the bookkeeping *)

(** What the writes of [evs] add to [wal_size_]: the [i32] length of each
    buffer. *)
Fixpoint written_size (evs : list Event) : Z :=
  match evs with
  | [] => 0%Z
  | EvOfsWrite buf :: evs' => (to_i32 (Z.of_nat (length buf)) + written_size evs')%Z
  | _ :: evs' => written_size evs'
  end.

(** The checkpoint tasks handed to the background processor in [evs], by
    their [is_full_checkpoint]. *)
Fixpoint submitted (evs : list Event) : list bool :=
  match evs with
  | [] => []
  | EvSubmit is_full_checkpoint :: evs' => is_full_checkpoint :: submitted evs'
  | _ :: evs' => submitted evs'
  end.

(** [checkpoint_in_progress_] as the number of tasks under way. *)
Definition checkpoints_under_way (w : WalManager) : nat :=
  if checkpoint_in_progress_ w then 1 else 0.

(** The operations on the files of the WAL and catalog directories. *)
Definition is_file_op (ev : Event) : Prop :=
  match ev with
  | EvOfsWrite _ | EvOfsFlush | EvSwapWalFile _ | EvTxnCheckpoint _ _
  | EvRecycleWalFile _ | EvRecycleCatalogFile _ => True
  | _ => False
  end.

(** A computation keeps the relation [R] between the manager before and
    after it, whatever its outcome. *)
Definition respects (R : WalManager → WalManager → Prop) {A} (c : M WalManager A)
    : Prop :=
  ∀ w, R w (c w).2.

(** [wal_size_] grows by what the new writes add to it. *)
Definition accounted (w w' : WalManager) : Prop :=
  ∃ evs, trace_ w' = trace_ w ++ evs ∧
         wal_size_ w' = (wal_size_ w + written_size evs)%Z ∧
         (0 ≤ written_size evs)%Z.

(** Every new submission of a checkpoint task is a delta checkpoint and is
    counted by [checkpoint_in_progress_]. *)
Definition submissions_counted (w w' : WalManager) : Prop :=
  ∃ evs, trace_ w' = trace_ w ++ evs ∧
         checkpoints_under_way w' = checkpoints_under_way w + length (submitted evs) ∧
         Forall (λ is_full_checkpoint, is_full_checkpoint = false) (submitted evs).

(** [w'] is [w] after calls into the other components that are no file
    operations and an assignment to [max_commit_ts_]: nothing but the trace
    and [max_commit_ts_] differs. *)
Definition recovered (w w' : WalManager) : Prop :=
  ∃ evs ts,
    w' = set_max_commit_ts_ ts (set_trace_ (trace_ w ++ evs) w) ∧
    Forall (λ ev, ¬ is_file_op ev) evs.

(** ** Vocabulary of the properties of recovery *)

(** The local variables of [ReplayWalFile] after phase 1. *)
Definition Replay_scan (env : Env) : ReplayScan :=
  Replay_phase1 env (WalListIterator env (Replay_wal_list env)) [].

(** [replay_entries] after [std::reverse]: what phase 3 goes through,
    oldest first. *)
Definition Replay_entries (env : Env) : list WalEntry :=
  let scan := Replay_scan env in
  reverse (Replay_phase2 (scan_max_commit_ts scan) (scan_iterator scan)
             (scan_replay_entries scan)).

(** The commands whose case in [ReplayWalEntry] raises an error. *)
Definition unreplayable (cmd : WalCmd) : Prop :=
  match cmd with
  | WalCmdAlterInfo | WalCmdSetSegmentStatusSealed
  | WalCmdUpdateSegmentBloomFilterData => True
  | _ => False
  end.

(** [system_start_ts] and [last_txn_id] after phase 3 went through
    [entries]. *)
Definition Replay_last (entries : list WalEntry) (system_start_ts : TxnTimeStamp)
    : TxnTimeStamp * TransactionID :=
  match last entries with
  | Some entry => (commit_ts_ entry, txn_id_ entry)
  | None => (system_start_ts, 0%Z)
  end.

(** The three calls of [WalCmdCompactReplay] on a deprecated segment. *)
Definition deprecation (commit_ts : TxnTimeStamp) (segment_entry : SegmentEntryPtr)
    : list Event :=
  [EvTrySetCompacting segment_entry; EvSetNoDelete segment_entry;
   EvSetDeprecated segment_entry commit_ts].

(** ** More of the concrete setting *)

(** The setting of [example_env] with a [txn->Checkpoint] of the given
    outcome. *)
Definition example_env_checkpoint (outcome : Res bool) : Env :=
  mkEnv TxnTimeStamp_max 16 64
    (λ entry, Z.of_nat (length (example_WriteAdv entry)))
    example_WriteAdv
    (λ _, [])
    (λ _ _, None)
    (None, [])
    (λ _ _, None)
    (λ path, path)
    (λ _ _, true)
    (λ _ _ _, outcome)
    (λ _ _ _ _ _, Some 1%N)
    (λ _ _ _ _, Some 2%N)
    (λ _ _, true)
    (λ _ _ _ _, Ok tt).

(** The setting of [example_env] with a catalog in which segment [id] lives
    at address [id] and only the segments at an address below [limit] can be
    set to compacting. *)
Definition example_env_segments (limit : N) : Env :=
  mkEnv TxnTimeStamp_max 16 64
    (λ entry, Z.of_nat (length (example_WriteAdv entry)))
    example_WriteAdv
    (λ _, [])
    (λ _ _, None)
    (None, [])
    (λ _ _, None)
    (λ path, path)
    (λ _ _, true)
    (λ _ _ _, Ok true)
    (λ _ _ _ _ _, Some 1%N)
    (λ _ _ segment_id _, Some (Z.to_N segment_id))
    (λ _ segment_entry, bool_decide (segment_entry < limit)%N)
    (λ _ _ _ _, Ok tt).

(** An entry that alters a table. *)
Definition example_alter_entry : WalEntry :=
  mkWalEntry 4%Z 13%Z [WalCmdDropDatabase "db0"; WalCmdAlterInfo].

End Wal.

(** * The full-text column index reader and its cache
      ([column_index_reader] module) *)

Module FullText.

(** [std::map<SegmentID, V>]: a finite map that is iterated in ascending key
    order. *)
Definition key_le {V} (a b : Z * V) : Prop := (a.1 ≤ b.1)%Z.

#[global] Instance key_le_dec {V} : RelDecision (@key_le V).
Proof. intros a b. unfold key_le. apply _. Defined.

Definition Map_items {V} (m : gmap Z V) : list (Z * V) :=
  merge_sort key_le (map_to_list m).

(** [MemoryIndexer], with what [Open] asks of it. *)
Record MemoryIndexer := mkMemoryIndexer {
  GetDocCount : Z;
  GetBaseName : string;
  GetBaseRowId : RowID
}.

(** [SegmentIndexEntry]: the result of [GetFullTextIndexSnapshot], the two
    vectors and the possibly null in-memory indexer. *)
Record SegmentIndexEntry := mkSegmentIndexEntry {
  base_names : list string;
  base_row_ids : list RowID;
  memory_indexer : option MemoryIndexer
}.

Inductive IndexSegmentReader :=
| DiskIndexSegmentReader (index_dir base_name : string) (base_row_id : RowID) (flag : Z)
| InMemIndexSegmentReader (indexer : MemoryIndexer).

Module ColumnIndexReader.

Record t := mk {
  flag_ : Z;
  segment_readers_ : list IndexSegmentReader;
  index_by_segment_ : gmap Z SegmentIndexEntry;
  index_dir_ : string;
  base_names_ : list string;
  base_row_ids_ : list RowID
}.

(** A default-constructed reader, as [MakeShared<ColumnIndexReader>()]
    gives it ([flag_] has no initializer; it is zero here). *)
Definition new : t := mk 0%Z [] ∅ "" [] [].

Definition push_segment_reader (r : IndexSegmentReader) : M t unit :=
  modify (λ o, mk (flag_ o) (segment_readers_ o ++ [r]) (index_by_segment_ o)
                  (index_dir_ o) (base_names_ o) (base_row_ids_ o)).

Definition append_base_names (names : list string) : M t unit :=
  modify (λ o, mk (flag_ o) (segment_readers_ o) (index_by_segment_ o)
                  (index_dir_ o) (base_names_ o ++ names) (base_row_ids_ o)).

Definition append_base_row_ids (ids : list RowID) : M t unit :=
  modify (λ o, mk (flag_ o) (segment_readers_ o) (index_by_segment_ o)
                  (index_dir_ o) (base_names_ o) (base_row_ids_ o ++ ids)).

(** [for (u32 i = 0; i < base_names.size(); ++i)]: one disk reader per base
    name; [base_row_ids[i]] beyond the end of the vector is an invalid
    access.  ([i] does not wrap: a vector has fewer than [2^32] names.) *)
Fixpoint Open_disk_readers (flag : Z) (i : nat) (names : list string)
    (row_ids : list RowID) : M t unit :=
  match names with
  | [] => mret tt
  | name :: names' =>
    match row_ids !! i with
    | None => throw InvalidAccess
    | Some row_id =>
      index_dir ← gets index_dir_;
      push_segment_reader (DiskIndexSegmentReader index_dir name row_id flag);;
      Open_disk_readers flag (S i) names' row_ids
    end
  end.

(** The body of the loop over [index_by_segment_]. *)
Definition Open_segment (flag : Z) (segment_index_entry : SegmentIndexEntry) : M t unit :=
  let names := base_names segment_index_entry in
  let row_ids := base_row_ids segment_index_entry in
  Open_disk_readers flag 0 names row_ids;;
  append_base_names names;;
  append_base_row_ids row_ids;;
  match memory_indexer segment_index_entry with
  | Some indexer =>
    if negb (GetDocCount indexer =? 0)%Z then
      push_segment_reader (InMemIndexSegmentReader indexer);;
      append_base_names [GetBaseName indexer];;
      append_base_row_ids [GetBaseRowId indexer]
    else mret tt
  | None => mret tt
  end.

(** [ColumnIndexReader::Open]; [INVALID_ROWID] is declared outside src. *)
Definition Open (INVALID_ROWID : RowID) (flag : Z) (index_dir : string)
    (index_by_segment : gmap Z SegmentIndexEntry) : M t unit :=
  modify (λ o, mk flag (segment_readers_ o) index_by_segment index_dir
                  (base_names_ o) (base_row_ids_ o));;
  for_each (Map_items index_by_segment) (λ kv, Open_segment flag kv.2);;
  append_base_row_ids [INVALID_ROWID].

(** *** Vocabulary of the properties *)

(** The two vectors of a snapshot describe the same posting bases. *)
Definition snapshot_well_formed (e : SegmentIndexEntry) : Prop :=
  length (base_names e) = length (base_row_ids e).

(** The in-memory indexer of a segment, when it has documents. *)
Definition active_indexer (e : SegmentIndexEntry) : option MemoryIndexer :=
  match memory_indexer e with
  | Some indexer => if (GetDocCount indexer =? 0)%Z then None else Some indexer
  | None => None
  end.

(** What a segment contributes to [base_names_] and [base_row_ids_]. *)
Definition segment_base_names (e : SegmentIndexEntry) : list string :=
  base_names e ++ match active_indexer e with
                  | Some indexer => [GetBaseName indexer]
                  | None => []
                  end.

Definition segment_base_row_ids (e : SegmentIndexEntry) : list RowID :=
  base_row_ids e ++ match active_indexer e with
                    | Some indexer => [GetBaseRowId indexer]
                    | None => []
                    end.

(** *** Term lookup and the average column length *)

(** [PostingIterator]: the arguments of its constructor and of [Init] (the
    class is declared outside src). *)
Record PostingIterator (P : Type) := mkPostingIterator {
  pi_flag : Z;
  pi_session_pool : N;
  pi_seg_postings : list P;
  pi_state_pool_size : Z
}.
Arguments mkPostingIterator {P} _ _ _ _.
Arguments pi_flag {P} _.
Arguments pi_session_pool {P} _.
Arguments pi_seg_postings {P} _.
Arguments pi_state_pool_size {P} _.

(** [BlockMaxTermDocIterator]: the arguments of its constructor, of
    [MultiplyWeight] and of [InitPostingIterator]. *)
Record BlockMaxTermDocIterator (P W : Type) := mkBlockMaxTermDocIterator {
  bm_flag : Z;
  bm_session_pool : N;
  bm_weight : W;
  bm_seg_postings : list P;
  bm_state_pool_size : Z
}.
Arguments mkBlockMaxTermDocIterator {P W} _ _ _ _ _.
Arguments bm_flag {P W} _.
Arguments bm_session_pool {P W} _.
Arguments bm_weight {P W} _.
Arguments bm_seg_postings {P W} _.
Arguments bm_state_pool_size {P W} _.

(** The loop of [Lookup] and of [LookupBlockMax] over [segment_readers_]:
    [GetSegmentPosting] answers with the posting of the term in a segment
    reader, if it has one. *)
Fixpoint Lookup_postings {P} (GetSegmentPosting : IndexSegmentReader → string → N → option P)
    (term : string) (session_pool : N) (segment_readers : list IndexSegmentReader)
    : list P :=
  match segment_readers with
  | [] => []
  | segment_reader :: segment_readers' =>
    match GetSegmentPosting segment_reader term session_pool with
    | Some seg_posting =>
      seg_posting :: Lookup_postings GetSegmentPosting term session_pool segment_readers'
    | None => Lookup_postings GetSegmentPosting term session_pool segment_readers'
    end
  end.

(** [ColumnIndexReader::Lookup]; [None] is [nullptr]. *)
Definition Lookup {P} (GetSegmentPosting : IndexSegmentReader → string → N → option P)
    (term : string) (session_pool : N) (o : t) : option (PostingIterator P) :=
  let seg_postings :=
    Lookup_postings GetSegmentPosting term session_pool (segment_readers_ o) in
  match seg_postings with
  | [] => None
  | _ :: _ => Some (mkPostingIterator (flag_ o) session_pool seg_postings 0%Z)
  end.

(** [ColumnIndexReader::LookupBlockMax] *)
Definition LookupBlockMax {P W} (GetSegmentPosting : IndexSegmentReader → string → N → option P)
    (term : string) (session_pool : N) (weight : W) (o : t)
    : option (BlockMaxTermDocIterator P W) :=
  let seg_postings :=
    Lookup_postings GetSegmentPosting term session_pool (segment_readers_ o) in
  match seg_postings with
  | [] => None
  | _ :: _ =>
    Some (mkBlockMaxTermDocIterator (flag_ o) session_pool weight seg_postings 0%Z)
  end.

(** The loop of [GetAvgColumnLength]: the [u64] sum and the [u32] count. *)
Fixpoint column_len_totals (GetFulltextColumnLenInfo : SegmentIndexEntry → Z * Z)
    (entries : list (Z * SegmentIndexEntry)) (column_len_sum column_len_cnt : Z)
    : Z * Z :=
  match entries with
  | [] => (column_len_sum, column_len_cnt)
  | (_, segment_index_entry) :: entries' =>
    let '(sum, cnt) := GetFulltextColumnLenInfo segment_index_entry in
    column_len_totals GetFulltextColumnLenInfo entries'
      (to_unsigned 64 (column_len_sum + sum)) (to_unsigned 32 (column_len_cnt + cnt))
  end.

(** [ColumnIndexReader::GetAvgColumnLength], up to the division: the result
    is the pair of its operands, [None] is the unrecoverable error
    "column_len_cnt is 0". *)
Definition GetAvgColumnLength (GetFulltextColumnLenInfo : SegmentIndexEntry → Z * Z)
    (o : t) : option (Z * Z) :=
  let '(column_len_sum, column_len_cnt) :=
    column_len_totals GetFulltextColumnLenInfo (Map_items (index_by_segment_ o)) 0%Z 0%Z in
  if (column_len_cnt =? 0)%Z then None else Some (column_len_sum, column_len_cnt).

(** *** Vocabulary of the properties of the segment readers *)

(** The readers [Open] creates for a segment: one per disk base, then the
    reader of the in-memory indexer when that one has documents. *)
Definition segment_readers (index_dir : string) (flag : Z) (e : SegmentIndexEntry)
    : list IndexSegmentReader :=
  zip_with (λ name row_id, DiskIndexSegmentReader index_dir name row_id flag)
           (base_names e) (base_row_ids e)
  ++ match active_indexer e with
     | Some indexer => [InMemIndexSegmentReader indexer]
     | None => []
     end.

(** The base a segment reader reads: its name and its first row id. *)
Definition reader_base (r : IndexSegmentReader) : string * RowID :=
  match r with
  | DiskIndexSegmentReader _ base_name base_row_id _ => (base_name, base_row_id)
  | InMemIndexSegmentReader indexer => (GetBaseName indexer, GetBaseRowId indexer)
  end.

(** A disk reader was opened in [index_dir] with [flag]. *)
Definition reader_opened_with (index_dir : string) (flag : Z) (r : IndexSegmentReader)
    : Prop :=
  match r with
  | DiskIndexSegmentReader dir _ _ f => dir = index_dir ∧ f = flag
  | InMemIndexSegmentReader _ => True
  end.

(** The sums of the column lengths and of the document counts over the
    segments, without wrap-around. *)
Definition column_len_sum_of (GetFulltextColumnLenInfo : SegmentIndexEntry → Z * Z)
    (entries : list (Z * SegmentIndexEntry)) : Z :=
  foldr (λ kv acc, ((GetFulltextColumnLenInfo kv.2).1 + acc)%Z) 0%Z entries.

Definition column_len_cnt_of (GetFulltextColumnLenInfo : SegmentIndexEntry → Z * Z)
    (entries : list (Z * SegmentIndexEntry)) : Z :=
  foldr (λ kv acc, ((GetFulltextColumnLenInfo kv.2).2 + acc)%Z) 0%Z entries.

End ColumnIndexReader.

(** ** Shared objects

    A [SharedPtr<T>] is the address of an object in the heap of its type, or
    null ([None]); copying the pointer shares the object. *)
Record Heap := mkHeap {
  (* FlatHashMap<u64, SharedPtr<ColumnIndexReader>> objects *)
  column_reader_maps : gmap N (gmap Z N);
  (* Map<String, String> objects *)
  analyzer_maps : gmap N (gmap string string);
  (* ColumnIndexReader objects *)
  column_index_readers : gmap N ColumnIndexReader.t;
  (* MemoryPool objects *)
  memory_pools : gset N
}.

(** ** The catalog as the cache sees it *)

Record TableIndexEntry := mkTableIndexEntry {
  index_base : IndexBase;
  index_dir : string;
  GetFulltexSegmentUpdateTs : TxnTimeStamp;
  GetIndexBySegmentSnapshot : gmap Z SegmentIndexEntry
}.

(** [GetEntryNolock] gives the entry visible to the transaction, or a status
    that is not ok ([None]). *)
Record TableIndexMeta := mkTableIndexMeta {
  GetEntryNolock : TransactionID → TxnTimeStamp → option TableIndexEntry
}.

Record TableEntry := mkTableEntry {
  IndexMetaMap : list (string * TableIndexMeta);
  GetColumnIdByName : string → Z
}.

Module IndexReader.
Record t := mk {
  column_index_readers_ : option N;
  column2analyzer_ : option N;
  session_pool_ : option N
}.
End IndexReader.

Module TableIndexReaderCache.

Record t := mk {
  first_known_update_ts_ : TxnTimeStamp;
  last_known_update_ts_ : TxnTimeStamp;
  cache_ts_ : TxnTimeStamp;
  cache_column_ts_ : gmap Z TxnTimeStamp;
  cache_column_readers_ : option N;
  column2analyzer_ : option N
}.

(** The default member initializers. *)
Definition new : t := mk 0%Z 0%Z 0%Z ∅ None None.

(** The cache object and the heap its pointers live in. *)
Record State := mkState {
  cache : t;
  heap : Heap
}.

Definition set_heap (h : Heap) (st : State) : State := mkState (cache st) h.
Definition set_cache (c : t) (st : State) : State := mkState c (heap st).

(** [MakeShared<MemoryPool>()] *)
Definition new_memory_pool : M State N :=
  h ← gets heap;
  let a := fresh (memory_pools h) in
  modify (set_heap (mkHeap (column_reader_maps h) (analyzer_maps h)
                           (column_index_readers h) ({[a]} ∪ memory_pools h)));;
  mret a.

(** [MakeShared<FlatHashMap<u64, SharedPtr<ColumnIndexReader>, ...>>()] *)
Definition new_column_reader_map : M State N :=
  h ← gets heap;
  let a := fresh (dom (column_reader_maps h)) in
  modify (set_heap (mkHeap (<[a := ∅]> (column_reader_maps h)) (analyzer_maps h)
                           (column_index_readers h) (memory_pools h)));;
  mret a.

(** [MakeShared<Map<String, String>>()] *)
Definition new_analyzer_map : M State N :=
  h ← gets heap;
  let a := fresh (dom (analyzer_maps h)) in
  modify (set_heap (mkHeap (column_reader_maps h) (<[a := ∅]> (analyzer_maps h))
                           (column_index_readers h) (memory_pools h)));;
  mret a.

(** [MakeShared<ColumnIndexReader>()] followed by [Open]: the reader is
    opened before its address is stored anywhere. *)
Definition new_column_index_reader (INVALID_ROWID : RowID) (flag : Z)
    (index_dir : string) (index_by_segment : gmap Z SegmentIndexEntry) : M State N :=
  match ColumnIndexReader.Open INVALID_ROWID flag index_dir index_by_segment
          ColumnIndexReader.new with
  | (Throw e, _) => throw e
  | (Ok _, reader) =>
    h ← gets heap;
    let a := fresh (dom (column_index_readers h)) in
    modify (set_heap (mkHeap (column_reader_maps h) (analyzer_maps h)
                             (<[a := reader]> (column_index_readers h))
                             (memory_pools h)));;
    mret a
  end.

(** Assignment to the element [column_id] of the map [p] points to. *)
Definition store_column_reader (p : N) (column_id : Z) (reader : N) : M State unit :=
  h ← gets heap;
  match column_reader_maps h !! p with
  | None => throw InvalidAccess
  | Some m =>
    modify (set_heap (mkHeap (<[p := <[column_id := reader]> m]> (column_reader_maps h))
                             (analyzer_maps h) (column_index_readers h) (memory_pools h)))
  end.

(** Assignment to the element [column_name] of the map [p] points to. *)
Definition store_analyzer (p : N) (column_name analyzer : string) : M State unit :=
  h ← gets heap;
  match analyzer_maps h !! p with
  | None => throw InvalidAccess
  | Some m =>
    modify (set_heap (mkHeap (column_reader_maps h)
                             (<[p := <[column_name := analyzer]> m]> (analyzer_maps h))
                             (column_index_readers h) (memory_pools h)))
  end.

(** [cache_column_readers_->at(column_id)]: [at] throws [std::out_of_range]
    for a missing key. *)
Definition cached_column_reader_at (column_id : Z) : M State N :=
  c ← gets cache;
  h ← gets heap;
  match cache_column_readers_ c with
  | None => throw InvalidAccess
  | Some p =>
    match column_reader_maps h !! p with
    | None => throw InvalidAccess
    | Some m =>
      match m !! column_id with
      | None => throw StdException
      | Some reader => mret reader
      end
    end
  end.

(** The body of the loop over the table's index metas in the slow path.
    [cache_column_ts] is the local map of that name; the result is its new
    value.  [cache_column_ts[column_id]] inserts a zero for a missing key. *)
Definition GetIndexReader_index (INVALID_ROWID : RowID) (txn_id : TransactionID)
    (begin_ts : TxnTimeStamp) (self_table_entry_ptr : TableEntry)
    (readers analyzers : N) (table_index_meta : TableIndexMeta)
    (cache_column_ts : gmap Z TxnTimeStamp) : M State (gmap Z TxnTimeStamp) :=
  match GetEntryNolock table_index_meta txn_id begin_ts with
  | None => RecoverableError TableIndexEntryNotFound
  | Some table_index_entry =>
    let index_base := index_base table_index_entry in
    if negb (bool_decide (index_type_ index_base = kFullText))
    then mret cache_column_ts
    else
      let column_name := column_name index_base in
      let column_id := GetColumnIdByName self_table_entry_ptr column_name in
      let ts := GetFulltexSegmentUpdateTs table_index_entry in
      let target_ts := default 0%Z (cache_column_ts !! column_id) in
      if (target_ts <? ts)%Z then
        store_analyzer analyzers column_name (analyzer_ index_base);;
        c ← gets cache;
        reader ← (if bool_decide (cache_column_ts_ c !! column_id = Some ts)
                  then cached_column_reader_at column_id
                  else new_column_index_reader INVALID_ROWID (flag_ index_base)
                         (index_dir table_index_entry)
                         (GetIndexBySegmentSnapshot table_index_entry));
        store_column_reader readers column_id reader;;
        mret (<[column_id := ts]> cache_column_ts)
      else mret (<[column_id := target_ts]> cache_column_ts)
  end.

Fixpoint GetIndexReader_build (INVALID_ROWID : RowID) (txn_id : TransactionID)
    (begin_ts : TxnTimeStamp) (self_table_entry_ptr : TableEntry)
    (readers analyzers : N) (metas : list (string * TableIndexMeta))
    (cache_column_ts : gmap Z TxnTimeStamp) : M State (gmap Z TxnTimeStamp) :=
  match metas with
  | [] => mret cache_column_ts
  | (_, table_index_meta) :: metas' =>
    cache_column_ts ← GetIndexReader_index INVALID_ROWID txn_id begin_ts
                        self_table_entry_ptr readers analyzers table_index_meta
                        cache_column_ts;
    GetIndexReader_build INVALID_ROWID txn_id begin_ts self_table_entry_ptr
      readers analyzers metas' cache_column_ts
  end.

(** [TableIndexReaderCache::GetIndexReader] *)
Definition GetIndexReader (INVALID_ROWID : RowID) (txn_id : TransactionID)
    (begin_ts : TxnTimeStamp) (self_table_entry_ptr : TableEntry)
    : M State IndexReader.t :=
  session_pool ← new_memory_pool;
  c ← gets cache;
  if (cache_ts_ c <=? begin_ts)%Z && (begin_ts <? first_known_update_ts_ c)%Z then
    (* no need to build, use cache *)
    mret (IndexReader.mk (cache_column_readers_ c) (column2analyzer_ c) (Some session_pool))
  else
    readers ← new_column_reader_map;
    analyzers ← new_analyzer_map;
    cache_column_ts ← GetIndexReader_build INVALID_ROWID txn_id begin_ts
                        self_table_entry_ptr readers analyzers
                        (IndexMetaMap self_table_entry_ptr) ∅;
    (if (last_known_update_ts_ c <=? begin_ts)%Z then
       (* need to update cache *)
       modify (set_cache (mk TxnTimeStamp_max 0%Z (last_known_update_ts_ c)
                             cache_column_ts (Some readers) (Some analyzers)))
     else mret tt);;
    mret (IndexReader.mk (Some readers) (Some analyzers) (Some session_pool)).

(** *** Vocabulary of the properties *)

(** Every column the cache has a positive timestamp for has a reader in the
    cached map. *)
Definition cache_consistent (st : State) : Prop :=
  ∀ column_id ts,
    cache_column_ts_ (cache st) !! column_id = Some ts →
    (0 < ts)%Z →
    ∃ p m reader,
      cache_column_readers_ (cache st) = Some p ∧
      column_reader_maps (heap st) !! p = Some m ∧
      m !! column_id = Some reader.

(** Every index of the table has an entry visible to the transaction, and
    the snapshots of the full-text ones are well formed. *)
Definition table_resolves (txn_id : TransactionID) (begin_ts : TxnTimeStamp)
    (table : TableEntry) : Prop :=
  Forall (λ nm : string * TableIndexMeta,
            ∃ e, GetEntryNolock nm.2 txn_id begin_ts = Some e ∧
                 map_Forall (λ _ seg, ColumnIndexReader.snapshot_well_formed seg)
                            (GetIndexBySegmentSnapshot e))
         (IndexMetaMap table).

(** The condition of the fast path. *)
Definition cache_hit (c : t) (begin_ts : TxnTimeStamp) : Prop :=
  (cache_ts_ c ≤ begin_ts)%Z ∧ (begin_ts < first_known_update_ts_ c)%Z.

(** The state of the slow path's loop: [readers] and [analyzers] are the
    maps under construction, [local] is the local [cache_column_ts], [st0]
    is the state at the call. *)
Definition build_inv (st0 : State) (readers analyzers : N)
    (local : gmap Z TxnTimeStamp) (st : State) : Prop :=
  cache st = cache st0 ∧
  (∀ column_id ts, local !! column_id = Some ts → (0 ≤ ts)%Z) ∧
  (∃ m, column_reader_maps (heap st) !! readers = Some m ∧
        ∀ column_id ts, local !! column_id = Some ts → (0 < ts)%Z →
                        is_Some (m !! column_id)) ∧
  is_Some (analyzer_maps (heap st) !! analyzers) ∧
  (∀ p, p ≠ readers →
        column_reader_maps (heap st) !! p = column_reader_maps (heap st0) !! p) ∧
  (∀ p, p ≠ analyzers →
        analyzer_maps (heap st) !! p = analyzer_maps (heap st0) !! p).

(** [e] is one of the full-text indexes [metas] as the transaction sees
    them. *)
Definition fulltext_index_of (txn_id : TransactionID) (begin_ts : TxnTimeStamp)
    (metas : list (string * TableIndexMeta)) (e : TableIndexEntry) : Prop :=
  index_type_ (index_base e) = kFullText ∧
  ∃ nm, nm ∈ metas ∧ GetEntryNolock nm.2 txn_id begin_ts = Some e.

(** The column a full-text index is on. *)
Definition column_of (table : TableEntry) (e : TableIndexEntry) : Z :=
  GetColumnIdByName table (column_name (index_base e)).

(** [reader] is the column index reader the slow path takes for the index
    [e], called in state [st0]: the reader the cache holds for the column
    when the cache has the column at the update timestamp of the index, and
    otherwise a new [ColumnIndexReader], opened on the segment snapshot of
    the index with its flag and directory, which [st] holds. *)
Definition reader_built_for (INVALID_ROWID : RowID) (table : TableEntry)
    (st0 st : State) (e : TableIndexEntry) (reader : N) : Prop :=
  if decide (cache_column_ts_ (cache st0) !! column_of table e
             = Some (GetFulltexSegmentUpdateTs e))
  then cached_column_reader_at (column_of table e) st0 = (Ok reader, st0)
  else (reader ∉ dom (column_index_readers (heap st0))) ∧
       ∃ o, ColumnIndexReader.Open INVALID_ROWID (flag_ (index_base e))
              (index_dir e) (GetIndexBySegmentSnapshot e) ColumnIndexReader.new
            = (Ok tt, o) ∧
            column_index_readers (heap st) !! reader = Some o.

(** What the slow path, called in state [st0], has built in [st] from the
    indexes [metas]: [readers] and [analyzers] point to the two maps and
    [local] is the local [cache_column_ts].  Every full-text index with a
    positive update timestamp has its column in [local], at that timestamp
    or a later one, and a reader for it.  Every reader of the map is the
    reader built for a full-text index on that column, the one whose update
    timestamp [local] has for the column, and the analyzer map has the
    analyzer of that index under its column name.  Every analyzer of the map
    is the analyzer of a full-text index on the column of that name.  The
    [ColumnIndexReader] objects that existed are untouched. *)
Definition built_from (INVALID_ROWID : RowID) (txn_id : TransactionID)
    (begin_ts : TxnTimeStamp) (table : TableEntry)
    (metas : list (string * TableIndexMeta)) (st0 : State) (readers analyzers : N)
    (local : gmap Z TxnTimeStamp) (st : State) : Prop :=
  ∃ m an,
    column_reader_maps (heap st) !! readers = Some m ∧
    analyzer_maps (heap st) !! analyzers = Some an ∧
    (∀ e, fulltext_index_of txn_id begin_ts metas e →
          (0 < GetFulltexSegmentUpdateTs e)%Z →
          ∃ ts, local !! column_of table e = Some ts ∧
                (GetFulltexSegmentUpdateTs e ≤ ts)%Z ∧
                is_Some (m !! column_of table e)) ∧
    (∀ column_id reader,
       m !! column_id = Some reader →
       ∃ e, fulltext_index_of txn_id begin_ts metas e ∧
            column_of table e = column_id ∧
            local !! column_id = Some (GetFulltexSegmentUpdateTs e) ∧
            an !! column_name (index_base e) = Some (analyzer_ (index_base e)) ∧
            reader_built_for INVALID_ROWID table st0 st e reader) ∧
    (∀ name analyzer,
       an !! name = Some analyzer →
       ∃ e, fulltext_index_of txn_id begin_ts metas e ∧
            column_name (index_base e) = name ∧
            analyzer_ (index_base e) = analyzer) ∧
    (∀ a o, column_index_readers (heap st0) !! a = Some o →
            column_index_readers (heap st) !! a = Some o).

(** *** Known updates *)


(** The cached reader map, if there is one, is an object of the heap. *)
Definition cache_allocated (st : State) : Prop :=
  ∀ p, cache_column_readers_ (cache st) = Some p →
       p ∈ dom (column_reader_maps (heap st)).

End TableIndexReaderCache.

(** ** A small concrete setting *)

Definition example_INVALID_ROWID : RowID := mkRowID (-1)%Z (-1)%Z.

(** Segment 0 has two disk bases and an in-memory indexer with documents;
    segment 1 has one disk base. *)
Definition example_segment0 : SegmentIndexEntry :=
  mkSegmentIndexEntry ["base_0"; "base_1"] [mkRowID 0%Z 0%Z; mkRowID 0%Z 100%Z]
    (Some (mkMemoryIndexer 3%Z "mem_0" (mkRowID 0%Z 200%Z))).

Definition example_segment1 : SegmentIndexEntry :=
  mkSegmentIndexEntry ["base_2"] [mkRowID 1%Z 0%Z] None.

Definition example_index_by_segment : gmap Z SegmentIndexEntry :=
  <[1%Z := example_segment1]> (<[0%Z := example_segment0]> ∅).

(** A table with one full-text index on column [text] (column id 1), last
    updated at 7. *)
Definition example_index_entry : TableIndexEntry :=
  mkTableIndexEntry (mkIndexBase kFullText "idx_text" "text" "standard" 0%Z)
    "idx_text_dir" 7%Z example_index_by_segment.

Definition example_table : TableEntry :=
  mkTableEntry [("idx_text", mkTableIndexMeta (λ _ _, Some example_index_entry))]
    (λ _, 1%Z).

(** A new cache and an empty heap, and the state after a first call at 5. *)
Definition example_state0 : TableIndexReaderCache.State :=
  TableIndexReaderCache.mkState TableIndexReaderCache.new (mkHeap ∅ ∅ ∅ ∅).

Definition example_state1 : TableIndexReaderCache.State :=
  (TableIndexReaderCache.GetIndexReader example_INVALID_ROWID 1%Z 5%Z
     example_table example_state0).2.

(** A dictionary in which only the disk bases hold the term [infinity], with
    the row offset of the base as posting. *)
Definition example_GetSegmentPosting (segment_reader : IndexSegmentReader)
    (term : string) (session_pool : N) : option Z :=
  match segment_reader with
  | DiskIndexSegmentReader _ _ base_row_id _ =>
    if bool_decide (term = "infinity") then Some (rowid_segment_offset_ base_row_id)
    else None
  | InMemIndexSegmentReader _ => None
  end.

(** Column lengths: 10 per disk base, one document per disk base. *)
Definition example_GetFulltextColumnLenInfo (e : SegmentIndexEntry) : Z * Z :=
  (10 * Z.of_nat (length (base_names e)), Z.of_nat (length (base_names e)))%Z.


End FullText.

(** * The full-text import benchmark ([fulltext_import_benchmark]) *)

Module Benchmark.

(** ** The input file *)

(** A [std::ifstream] that was opened successfully and is read with
    [std::getline] only: the lines not yet read, each of them ended by a
    newline in the file, the characters after the last newline, and
    [eofbit].  ([getline] sets [failbit] only when [eofbit] is or becomes
    set, and the code tests [eof()] only.) *)
Record ifstream := mkIfstream {
  file_lines : list string;
  file_rest : string;
  eofbit : bool
}.

(** [line.clear(); std::getline(input_file, line)]: the line and the stream
    after the call.  On a stream with [eofbit] nothing is extracted; at the
    end of the file the characters after the last newline are extracted and
    [eofbit] is set. *)
Definition getline (input_file : ifstream) : string * ifstream :=
  if eofbit input_file then (""%string, input_file)
  else
    match file_lines input_file with
    | line :: file_lines' => (line, mkIfstream file_lines' (file_rest input_file) false)
    | [] => (file_rest input_file, mkIfstream [] ""%string true)
    end.

(** A row of the batch: the values of [id], [title] and [text], which the
    code copies into three C strings. *)
Definition Row : Type := string * string * string.

(** The loop of [ReadJsonl] on a stream with [eofbit] clear, by recursion
    on the lines not yet read.  [parse] is [nlohmann::json::parse] followed
    by the extraction of the three columns; it is [None] when the parser or
    the conversion throws or a column is missing.  [None] as result is this
    exception. *)
Fixpoint ReadJsonl_loop (parse : string → option Row) (lines_to_read : Z)
    (lines : list string) (rest : string) (lines_readed : Z) (batch : list Row)
    : option (list Row * ifstream) :=
  if negb (lines_readed <? lines_to_read)%Z
  then Some (batch, mkIfstream lines rest false)
  else
    match lines with
    | [] =>
      (* getline reaches the end of the file: eof(), break *)
      Some (batch, (getline (mkIfstream [] rest false)).2)
    | line :: lines' =>
      (* getline returns this line *)
      if (String.length line =? 0)%nat
      then ReadJsonl_loop parse lines_to_read lines' rest lines_readed batch
      else
        match parse line with
        | None => None
        | Some row =>
          ReadJsonl_loop parse lines_to_read lines' rest (lines_readed + 1)%Z
            (batch ++ [row])
        end
    end.

(** [ReadJsonl]: [batch] is cleared first, so that the result does not
    depend on what it held.  On a stream with [eofbit] the first [getline]
    extracts nothing and the loop is left at once. *)
Definition ReadJsonl (parse : string → option Row) (input_file : ifstream)
    (lines_to_read : Z) : option (list Row * ifstream) :=
  if eofbit input_file then Some ([], input_file)
  else ReadJsonl_loop parse lines_to_read (file_lines input_file)
         (file_rest input_file) 0%Z [].

(** ** Inserting the file *)

(** How a run of [BenchmarkInsert] ends: it returns after the given calls of
    [Infinity::Insert], each with the rows of a batch; or the JSON parser
    throws; or the model ran out of fuel. *)
Inductive InsertRun :=
| RunReturns (inserted : list (list Row))
| RunThrows
| RunOutOfFuel.

(** The loop [while (!done)] of [BenchmarkInsert], with [batch_size = 100];
    the result of [Insert] is not looked at.  [fuel] bounds the number of
    passes. *)
Fixpoint BenchmarkInsert_loop (parse : string → option Row) (fuel : nat)
    (input_file : ifstream) (inserted : list (list Row)) : InsertRun :=
  match fuel with
  | 0 => RunOutOfFuel
  | S fuel' =>
    match ReadJsonl parse input_file 100%Z with
    | None => RunThrows
    | Some (batch, input_file') =>
      match batch with
      | [] => RunReturns inserted
      | _ :: _ =>
        let inserted := inserted ++ [batch] in
        if (Z.of_nat (length batch) <? 100)%Z then RunReturns inserted
        else BenchmarkInsert_loop parse fuel' input_file' inserted
      end
    end
  end.

(** [BenchmarkInsert]; [None] is a file that could not be opened. *)
Definition BenchmarkInsert (parse : string → option Row) (fuel : nat)
    (input_file : option ifstream) : InsertRun :=
  match input_file with
  | None => RunReturns []
  | Some input_file => BenchmarkInsert_loop parse fuel input_file []
  end.

(** ** The command line *)

Record Flags := mkFlags {
  is_import : bool;
  is_insert : bool;
  is_merge : bool
}.

(** The values of [opt] in the [switch] of [Parse]. *)
Definition opt_i : Z := 105. (* 'i' *)
Definition opt_r : Z := 114. (* 'r' *)
Definition opt_m : Z := 109. (* 'm' *)

(** The loop of [Parse]: [opts] are the values [getopt_long] returns for the
    command line before it returns -1. *)
Fixpoint Parse_options (opts : list Z) (flags : Flags) : bool * Flags :=
  match opts with
  | [] => (true, flags)
  | opt :: opts' =>
    if (opt =? opt_i)%Z
    then Parse_options opts' (mkFlags true (is_insert flags) (is_merge flags))
    else if (opt =? opt_r)%Z
    then Parse_options opts' (mkFlags (is_import flags) true (is_merge flags))
    else if (opt =? opt_m)%Z
    then Parse_options opts' (mkFlags (is_import flags) true true)
    else (false, flags)
  end.

(** [Parse]: the result and the three flags passed by reference. *)
Definition Parse (argc : Z) (opts : list Z) (flags : Flags) : bool * Flags :=
  if (argc <? 2)%Z then (true, flags)
  else Parse_options opts (mkFlags false false false).

(** The calls of [main]. *)
Inductive Step :=
| StepCreateDbAndTable
| StepBenchmarkImport
| StepBenchmarkCreateIndex
| StepBenchmarkInsert
| StepBenchmarkOptimize
| StepSleep (seconds : Z)
| StepLocalUnInit.

(** [main]: the exit status and the calls made, in order. *)
Definition main (argc : Z) (opts : list Z) : Z * list Step :=
  let '(ok, flags) := Parse argc opts (mkFlags true true true) in
  if negb ok then (1%Z, [StepCreateDbAndTable])
  else
    (0%Z,
     [StepCreateDbAndTable]
       ++ (if is_import flags then [StepBenchmarkImport] else [])
       ++ (if is_insert flags then [StepBenchmarkCreateIndex; StepBenchmarkInsert]
           else [])
       ++ (if is_merge flags then [StepBenchmarkOptimize] else [])
       ++ [StepSleep 10%Z; StepLocalUnInit]).

(** ** Vocabulary of the properties *)

(** The lines [ReadJsonl] does not skip. *)
Definition nonempty_lines (lines : list string) : list string :=
  filter (λ line, String.length line ≠ 0) lines.

(** An option the [switch] of [Parse] knows. *)
Definition known_option (opt : Z) : Prop :=
  opt = opt_i ∨ opt = opt_r ∨ opt = opt_m.

(** ** A small concrete setting *)

(** A stand-in for the JSON parser: every line but [bad] is the id of a
    row. *)
Definition example_parse (line : string) : option Row :=
  if bool_decide (line = "bad"%string) then None
  else Some (line, "title"%string, "text"%string).

Definition example_file : ifstream :=
  mkIfstream ["a"; ""; "b"; "c"]%string "d"%string false.

End Benchmark.

(** * The client interface and the HTTP handlers of the data definition
      requests ([infinity.cpp], [http_server.cpp]) *)

Module Http.

(** [ConflictType]: only [kIgnore] is named in the embedded code. *)
Inductive ConflictType :=
| kIgnore
| kOtherConflictType (tag : Z).

(** The statements the embedded requests hand to the query context, with the
    members the code sets. *)
Inductive Statement :=
| CreateSchemaStatement (schema_name_ : string) (conflict_type_ : ConflictType)
| DropSchemaStatement (schema_name_ : string) (conflict_type_ : ConflictType)
| DropTableStatement (schema_name_ table_name_ : string) (conflict_type_ : ConflictType).

(** [QueryResult], with what the handlers ask of it. *)
Record QueryResult := mkQueryResult {
  IsOk : bool;
  ErrorCode : Z;
  ErrorMsg : string
}.

(** The calls into the session manager and the query context. *)
Inductive Call :=
| CallCreateRemoteSession (session_id : N)
| CallRemoveSessionByID (session_id : N)
| CallQueryStatement (session_id : N) (statement : Statement).

(** The answers of the components outside the two files; those that depend
    on the state of their component take the calls made so far. *)
Record Env := mkEnv {
  (* query_options: the initial conflict_type_ of the option structs *)
  default_conflict_type : ConflictType;
  (* session_manager: the id of the session CreateRemoteSession returns *)
  CreateRemoteSession : list Call → N;
  (* query_context *)
  QueryStatement : list Call → N → Statement → Res QueryResult;
  (* nlohmann::json: parse(body)[key] converted to a String; None when the
     parser or the conversion throws *)
  json_string_member : string → string → option string
}.

Definition call (c : Call) : M (list Call) unit := modify (λ tr, tr ++ [c]).

(** [DeferFn defer_fn(deferred)]: runs when the scope is left, by [return]
    or by an exception. *)
Definition with_defer {A} (deferred : M (list Call) unit) (c : M (list Call) A)
    : M (list Call) A :=
  λ tr, let '(r, tr') := c tr in (r, (deferred tr').2).

(** ** [Infinity]: a connection is identified by its session *)

(** [Infinity::RemoteConnect] *)
Definition RemoteConnect (env : Env) : M (list Call) N :=
  tr ← gets (λ tr, tr);
  let session := CreateRemoteSession env tr in
  call (CallCreateRemoteSession session);;
  mret session.

(** [Infinity::RemoteDisconnect] *)
Definition RemoteDisconnect (session : N) : M (list Call) unit :=
  call (CallRemoveSessionByID session).

(** [query_context_ptr->QueryStatement(statement)] on a new query context of
    the session. *)
Definition Query (env : Env) (session : N) (statement : Statement)
    : M (list Call) QueryResult :=
  tr ← gets (λ tr, tr);
  call (CallQueryStatement session statement);;
  (λ tr', (QueryStatement env tr session statement, tr')).

(** [Infinity::CreateDatabase] *)
Definition CreateDatabase (env : Env) (session : N) (db_name : string)
    (create_db_options : ConflictType) : M (list Call) QueryResult :=
  Query env session (CreateSchemaStatement db_name create_db_options).

(** [Infinity::DropDatabase] *)
Definition DropDatabase (env : Env) (session : N) (db_name : string)
    (drop_database_options : ConflictType) : M (list Call) QueryResult :=
  Query env session (DropSchemaStatement db_name drop_database_options).

(** [Infinity::DropTable] *)
Definition DropTable (env : Env) (session : N) (db_name table_name : string)
    (options : ConflictType) : M (list Call) QueryResult :=
  Query env session (DropTableStatement db_name table_name options).

(** ** The handlers *)

Inductive JsonValue :=
| JsonNumber (n : Z)
| JsonString (s : string).

(** [ResponseFactory::createResponse(http_status, json_response.dump())]:
    the status code and the members of the JSON object. *)
Record Response := mkResponse {
  http_status : Z;
  json_response : list (string * JsonValue)
}.

(** The tail all three handlers share. *)
Definition respond (result : QueryResult) : Response :=
  if IsOk result
  then mkResponse 200%Z [("error_code"%string, JsonNumber 0%Z)]
  else mkResponse 500%Z [("error_code"%string, JsonNumber (ErrorCode result));
                         ("error_message"%string, JsonString (ErrorMsg result))].

(** [CreateDatabaseHandler::handle], for the path variable and the body of
    the request. *)
Definition CreateDatabaseHandler (env : Env) (database_name body_info : string)
    : M (list Call) Response :=
  infinity ← RemoteConnect env;
  with_defer (RemoteDisconnect infinity) (
    match json_string_member env body_info "create_option" with
    | None => throw StdException
    | Some option =>
      let create_option := default_conflict_type env in
      result ← CreateDatabase env infinity database_name create_option;
      mret (respond result)
    end).

(** [DropDatabaseHandler::handle] *)
Definition DropDatabaseHandler (env : Env) (database_name body_info : string)
    : M (list Call) Response :=
  infinity ← RemoteConnect env;
  with_defer (RemoteDisconnect infinity) (
    match json_string_member env body_info "drop_option" with
    | None => throw StdException
    | Some option =>
      let drop_option := default_conflict_type env in
      result ← DropDatabase env infinity database_name drop_option;
      mret (respond result)
    end).

(** [DropTableHandler::handle]: the body is not read. *)
Definition DropTableHandler (env : Env) (database_name table_name : string)
    : M (list Call) Response :=
  infinity ← RemoteConnect env;
  with_defer (RemoteDisconnect infinity) (
    let drop_table_opts := default_conflict_type env in
    result ← DropTable env infinity database_name table_name drop_table_opts;
    mret (respond result)).

(** ** Vocabulary of the properties *)

(** The calls of a request that opened session [session]: the session is
    created, at most one statement is run in it, and it is removed. *)
Definition one_session (session : N) (calls : list Call) : Prop :=
  calls = [CallCreateRemoteSession session; CallRemoveSessionByID session] ∨
  ∃ statement,
    calls = [CallCreateRemoteSession session; CallQueryStatement session statement;
             CallRemoveSessionByID session].

(** ** A small concrete setting *)

(** Sessions are numbered by the calls made so far; a database [db1] exists
    and nothing else; the body is taken for the option itself. *)
Definition example_env : Env :=
  mkEnv (kOtherConflictType 2%Z)
    (λ tr, N.of_nat (length tr))
    (λ _ _ statement,
       match statement with
       | DropSchemaStatement "db1" _ => Ok (mkQueryResult true 0%Z "")
       | _ => Ok (mkQueryResult false 3021%Z "not found")
       end)
    (λ body key, if bool_decide (body = ""%string) then None else Some body).

End Http.

(** * Running the monad *)

Lemma bind_Ok {S A B} (c : M S A) (k : A → M S B) s a s' :
  c s = (Ok a, s') → bind c k s = k a s'.
Proof. unfold bind. by intros ->. Qed.

Lemma bind_Throw {S A B} (c : M S A) (k : A → M S B) s e s' :
  c s = (Throw e, s') → bind c k s = (Throw e, s').
Proof. unfold bind. by intros ->. Qed.

Lemma bind_inv {S A B} (c : M S A) (k : A → M S B) s r s' :
  bind c k s = (r, s') →
  (∃ e, c s = (Throw e, s') ∧ r = Throw e) ∨
  (∃ a s1, c s = (Ok a, s1) ∧ k a s1 = (r, s')).
Proof.
  unfold bind. destruct (c s) as [[a|e] s1]; intros H.
  - right. eauto.
  - left. inversion H; subst. eauto.
Qed.

Ltac run := unfold bind, gets, modify, mret, M_ret, ret, throw,
  UnrecoverableError, RecoverableError, Wal.emit; simpl.

(** * Properties of the WAL manager *)

Module WalTheory.
Import Wal.

(** ** PutEntry *)

Lemma PutEntry_not_running entry txn w :
  running_ w = false → PutEntry entry txn w = (Ok tt, w).
Proof. intros H. unfold PutEntry. run. by rewrite H. Qed.

Lemma Stop_not_running w : running_ (Stop w).2 = false.
Proof.
  unfold Stop. run. destruct (running_ w) eqn:E; simpl; [done | exact E].
Qed.

(** C9.  [PutEntry] on a manager that is not running returns normally and
    leaves the manager as it was: the entry is not enqueued, no event is
    produced and no error is signalled.  This is the state of a manager
    that has not been started and of one on which [Stop] has begun. *)
Theorem PutEntry_discards_when_not_running (env : Env) (w : WalManager)
    (entry : WalEntry) (txn : TransactionID) :
  (running_ w = false → PutEntry entry txn w = (Ok tt, w)) ∧
  (∀ threshold interval opt fs,
     let w0 := WalManager_new env threshold interval opt fs in
     PutEntry entry txn w0 = (Ok tt, w0)) ∧
  (let w' := (Stop w).2 in PutEntry entry txn w' = (Ok tt, w')).
Proof.
  split; [apply PutEntry_not_running | split].
  - intros. by apply PutEntry_not_running.
  - simpl. apply PutEntry_not_running, Stop_not_running.
Qed.

(** ** The write loop of [Flush] *)

Lemma to_i32_range z : (- 2 ^ 31 ≤ to_i32 z < 2 ^ 31)%Z.
Proof.
  unfold to_i32, to_signed. change (2 ^ (32 - 1))%Z with (2 ^ 31)%Z.
  assert (H32 : (2 ^ 32 = 2 * 2 ^ 31)%Z) by reflexivity.
  pose proof (Z.mod_pos_bound z (2 ^ 32) ltac:(lia)) as Hm.
  destruct (_ <? _)%Z eqn:E; [apply Z.ltb_lt in E | apply Z.ltb_ge in E]; lia.
Qed.

Lemma to_i32_small z : (- 2 ^ 31 ≤ z < 2 ^ 31)%Z → to_i32 z = z.
Proof.
  intros H. unfold to_i32, to_signed.
  change (2 ^ (32 - 1))%Z with (2 ^ 31)%Z.
  assert (H32 : (2 ^ 32 = 2 * 2 ^ 31)%Z) by reflexivity.
  destruct (Z_lt_le_dec z 0) as [Hneg|Hpos].
  - replace (z mod 2 ^ 32)%Z with (z + 2 ^ 32)%Z.
    + destruct (_ <? _)%Z eqn:E; [apply Z.ltb_lt in E; lia | lia].
    + apply Z.mod_unique with (-1)%Z; lia.
  - rewrite Z.mod_small by lia.
    destruct (_ <? _)%Z eqn:E; [done | apply Z.ltb_ge in E; lia].
Qed.

(** The four ways through the body of the write loop. *)
Lemma Flush_write_entry_eq env entry w :
  let exp_size := to_i32 (GetSizeInBytes env entry) in
  let len := Z.of_nat (length (WriteAdv env entry)) in
  Flush_write_entry env entry w
  = match cmds_ entry with
    | [] => (Throw (UnrecoverableException (WalEntryCommandsEmpty (txn_id_ entry))), w)
    | _ :: _ =>
      if (exp_size <? 0)%Z then (Throw StdException, w)
      else if (exp_size <? len)%Z then (Throw InvalidAccess, w)
      else if (exp_size =? len)%Z
      then (Ok tt,
            set_wal_size_ (wal_size_ w + to_i32 len)%Z
              (set_max_commit_ts_ (commit_ts_ entry)
                 (set_trace_ (trace_ w ++ [EvOfsWrite (WriteAdv env entry)])
                    (set_fs_ (mkFileSystem (wal_log (fs_ w) ++ WriteAdv env entry)
                                (rolled_logs (fs_ w)) (catalog_files (fs_ w))) w))))
      else (Throw (UnrecoverableException (EstimatedSizeDiffers exp_size len)), w)
    end.
Proof.
  intros exp_size len. unfold Flush_write_entry, ofs_write. run.
  fold exp_size len.
  destruct (cmds_ entry); [done|].
  destruct (exp_size <? 0)%Z eqn:Hneg; [done|].
  destruct (exp_size <? len)%Z eqn:Hover; [done|].
  apply Z.ltb_ge in Hneg, Hover.
  pose proof (to_i32_range (GetSizeInBytes env entry)) as Hr. fold exp_size in Hr.
  rewrite (to_i32_small len) by lia.
  by destruct (exp_size =? len)%Z.
Qed.

Lemma Flush_write_entry_throw env entry w e w' :
  Flush_write_entry env entry w = (Throw e, w') → w' = w.
Proof.
  rewrite Flush_write_entry_eq.
  destruct (cmds_ entry); [by inversion 1|].
  repeat (match goal with |- context [if ?b then _ else _] => destruct b end);
    by inversion 1.
Qed.

Lemma Flush_write_entry_ok env entry w w' :
  Flush_write_entry env entry w = (Ok tt, w') →
  size_verified env entry ∧ cmds_ entry ≠ [] ∧
  wal_log (fs_ w') = wal_log (fs_ w) ++ WriteAdv env entry ∧
  rolled_logs (fs_ w') = rolled_logs (fs_ w) ∧
  trace_ w' = trace_ w ++ [write_of env entry] ∧
  running_ w' = running_ w ∧
  max_commit_ts_ w' = commit_ts_ entry.
Proof.
  rewrite Flush_write_entry_eq. unfold size_verified, write_of.
  destruct (cmds_ entry) eqn:Hc; [by inversion 1|].
  destruct (_ <? 0)%Z; [by inversion 1|].
  destruct (_ <? _)%Z; [by inversion 1|].
  destruct (_ =? _)%Z eqn:Heq; [|by inversion 1].
  intros H. inversion H; subst; clear H. simpl.
  apply Z.eqb_eq in Heq. done.
Qed.

(** An entry whose sizes differ is not written: it ends in an exception
    with the manager as before.  The exception is the unrecoverable error
    of the size check when the serialization is shorter than the estimate;
    when it is longer, the buffer is overrun before the check. *)
Lemma Flush_write_entry_mismatch env entry w :
  ¬ size_verified env entry →
  ∃ e, Flush_write_entry env entry w = (Throw e, w).
Proof.
  rewrite Flush_write_entry_eq. unfold size_verified. intros Hne.
  destruct (cmds_ entry); [eauto|].
  destruct (_ <? 0)%Z; [eauto|].
  destruct (_ <? _)%Z; [eauto|].
  destruct (_ =? _)%Z eqn:Heq; [|eauto].
  apply Z.eqb_eq in Heq. done.
Qed.

Lemma Flush_write_entry_overrun env entry w :
  cmds_ entry ≠ [] →
  (0 ≤ to_i32 (GetSizeInBytes env entry)
   < Z.of_nat (length (WriteAdv env entry)))%Z →
  Flush_write_entry env entry w = (Throw InvalidAccess, w).
Proof.
  intros Hc [Hpos Hlt]. rewrite Flush_write_entry_eq.
  destruct (cmds_ entry); [done|].
  destruct (_ <? 0)%Z eqn:Hneg; [apply Z.ltb_lt in Hneg; lia|].
  destruct (_ <? Z.of_nat _)%Z eqn:Hover; [done | apply Z.ltb_ge in Hover; lia].
Qed.

Lemma Flush_write_entry_short env entry w :
  cmds_ entry ≠ [] →
  (Z.of_nat (length (WriteAdv env entry))
   < to_i32 (GetSizeInBytes env entry))%Z →
  Flush_write_entry env entry w
  = (Throw (UnrecoverableException
              (EstimatedSizeDiffers (to_i32 (GetSizeInBytes env entry))
                 (Z.of_nat (length (WriteAdv env entry))))), w).
Proof.
  intros Hc Hlt. rewrite Flush_write_entry_eq.
  destruct (cmds_ entry); [done|].
  destruct (_ <? 0)%Z eqn:Hneg; [apply Z.ltb_lt in Hneg; lia|].
  destruct (_ <? Z.of_nat _)%Z eqn:Hover; [apply Z.ltb_lt in Hover; lia|].
  destruct (_ =? _)%Z eqn:Heq; [apply Z.eqb_eq in Heq; lia | done].
Qed.

Lemma Flush_write_batch_log env log_batch w r w' :
  Flush_write_batch env log_batch w = (r, w') →
  ∃ written,
    map Some written `prefix_of` log_batch ∧
    Forall (size_verified env) written ∧
    wal_log (fs_ w') = wal_log (fs_ w) ++ concat (map (WriteAdv env) written) ∧
    trace_ w' = trace_ w ++ map (write_of env) written.
Proof.
  revert w. induction log_batch as [|[entry|] rest IH]; intros w; simpl.
  - run. intros H. inversion H; subst. exists []. simpl.
    rewrite !app_nil_r. split; [apply prefix_nil|done].
  - intros H. apply bind_inv in H as [(e & H & ->)|(a & w1 & H & Hrest)].
    + apply Flush_write_entry_throw in H as ->. exists []. simpl.
      rewrite !app_nil_r. split; [apply prefix_nil|done].
    + destruct a. apply Flush_write_entry_ok in H as (Hv & _ & Hlog & _ & Htr & _).
      apply IH in Hrest as (written & Hpre & Hall & Hlog' & Htr').
      exists (entry :: written). simpl. split; [by apply prefix_cons|].
      split; [by constructor|].
      rewrite Hlog', Hlog, Htr', Htr, <- !app_assoc. done.
  - run. intros H. inversion H; subst. exists []. simpl.
    rewrite !app_nil_r. split; [apply prefix_nil|done].
Qed.

(** ** One pass of the flush loop *)

Lemma set_trace_id w : set_trace_ (trace_ w) w = w.
Proof. by destruct w. Qed.

Lemma Flush_write_entry_flushable env entry w :
  flushable env entry →
  ∃ w', Flush_write_entry env entry w = (Ok tt, w') ∧ running_ w' = running_ w.
Proof.
  intros (Hc & Hpos & Hv). rewrite Flush_write_entry_eq.
  destruct (cmds_ entry); [done|].
  destruct (_ <? 0)%Z eqn:Hneg; [apply Z.ltb_lt in Hneg; lia|].
  unfold size_verified in Hv. rewrite Hv, Z.ltb_irrefl, Z.eqb_refl. eauto.
Qed.

Lemma Flush_write_batch_cases env log_batch w :
  ∃ r w' written,
    Flush_write_batch env log_batch w = (r, w') ∧
    trace_ w' = trace_ w ++ map (write_of env) written ∧
    Forall (size_verified env) written ∧
    map Some written `prefix_of` log_batch ∧
    ((r = Ok tt ∧ log_batch = map Some written ∧ running_ w' = running_ w) ∨
     (r = Ok tt ∧ running_ w' = false) ∨
     (∃ e, r = Throw e)).
Proof.
  revert w. induction log_batch as [|[entry|] rest IH]; intros w; simpl.
  - exists (Ok tt), w, []. simpl. rewrite app_nil_r. eauto 10.
  - destruct (Flush_write_entry env entry w) as [[[]|e] w1] eqn:H.
    + rewrite (bind_Ok _ _ _ _ _ H).
      apply Flush_write_entry_ok in H as (Hv & _ & _ & _ & Htr & Hrun & _).
      destruct (IH w1) as (r & w' & written & Hb & Htr' & Hall & Hpre & Hcases).
      exists r, w', (entry :: written). split; [done|]. split.
      { rewrite Htr', Htr, <- app_assoc. done. }
      split; [by constructor|]. split; [by apply prefix_cons|].
      destruct Hcases as [(-> & -> & Hr)|[(-> & Hr)|(e & ->)]].
      * left. rewrite Hr, Hrun. done.
      * right; left. done.
      * right; right. eauto.
    + rewrite (bind_Throw _ _ _ _ _ H).
      apply Flush_write_entry_throw in H as ->.
      exists (Throw e), w, []. simpl. rewrite app_nil_r.
      split; [done|]. split; [done|]. split; [done|].
      split; [apply prefix_nil|]. eauto.
  - exists (Ok tt), (set_running_ false w), []. simpl. rewrite app_nil_r.
    split; [done|]. split; [done|]. split; [done|]. split; [apply prefix_nil|].
    right; left. done.
Qed.

Lemma Flush_write_batch_flushable env entries w :
  Forall (flushable env) entries →
  ∃ w', Flush_write_batch env (map Some entries) w = (Ok tt, w') ∧
        running_ w' = running_ w.
Proof.
  intros Hall. revert w. induction Hall as [|entry entries Hf _ IH]; intros w; simpl.
  - eauto.
  - destruct (Flush_write_entry_flushable env entry w Hf) as (w1 & H & Hrun).
    rewrite (bind_Ok _ _ _ _ _ H).
    destruct (IH w1) as (w' & H' & Hrun'). exists w'. split; [done|]. congruence.
Qed.

Lemma Flush_sync_flushes opt w :
  Flush_sync opt w = (Ok tt, set_trace_ (trace_ w ++ [EvOfsFlush]) w).
Proof. by destruct opt. Qed.

Lemma Flush_commit_loop env entries w :
  for_each (map Some entries) (Flush_commit_entry env) w
  = (Ok tt, set_trace_
              (trace_ w ++ map EvCommitBottom (committed env (trace_ w) entries)) w).
Proof.
  revert w. induction entries as [|e es IH]; intros w; simpl.
  - rewrite app_nil_r, set_trace_id. done.
  - unfold Flush_commit_entry at 1. run.
    destruct (GetTxn env (trace_ w) (txn_id_ e)); simpl.
    + rewrite IH. simpl. rewrite <- app_assoc. by destruct w.
    + apply IH.
Qed.

Lemma committed_sublist env tr entries :
  committed env tr entries `sublist_of` map txn_id_ entries.
Proof.
  revert tr. induction entries as [|e es IH]; intros tr; simpl; [done|].
  destruct (GetTxn env tr (txn_id_ e)).
  - apply sublist_skip, IH.
  - apply sublist_cons, IH.
Qed.

Lemma Flush_swap_if_large_trace w :
  ∃ w' tail, Flush_swap_if_large w = (Ok tt, w') ∧
             trace_ w' = trace_ w ++ tail ∧ Forall is_housekeeping tail.
Proof.
  unfold Flush_swap_if_large, catch_recoverable, GetFileSizeByPath, SwapWalFile. run.
  destruct (_ <? _)%Z; simpl.
  - eexists _, [_]. split; [done|]. split; [done|]. by repeat constructor.
  - exists w, []. rewrite app_nil_r. done.
Qed.

Lemma Flush_checkpoint_if_due_trace w :
  ∃ w' tail, Flush_checkpoint_if_due w = (Ok tt, w') ∧
             trace_ w' = trace_ w ++ tail ∧ Forall is_housekeeping tail.
Proof.
  unfold Flush_checkpoint_if_due, GetLastCkpWalSize, TrySubmitCheckpointTask. run.
  destruct (_ <? _)%Z; simpl.
  - destruct (checkpoint_in_progress_ w); simpl.
    + exists w, []. rewrite app_nil_r. done.
    + eexists _, [_]. split; [done|]. split; [done|]. by repeat constructor.
  - exists w, []. rewrite app_nil_r. done.
Qed.

(** The part of a pass that follows a write loop which saw no terminate
    entry. *)
Lemma Flush_iteration_after_write env entries w :
  ∃ w' tail,
    (opt ← gets flush_option_;
     Flush_sync opt;;
     for_each (map Some entries) (Flush_commit_entry env);;
     Flush_swap_if_large;;
     Flush_checkpoint_if_due;;
     mret LoopContinue) w = (Ok LoopContinue, w') ∧
    trace_ w' = trace_ w ++ [EvOfsFlush]
                  ++ map EvCommitBottom (committed env (trace_ w ++ [EvOfsFlush]) entries)
                  ++ tail ∧
    Forall is_housekeeping tail.
Proof.
  unfold bind at 1. unfold gets at 1. unfold bind at 1.
  rewrite Flush_sync_flushes. unfold bind at 1. rewrite Flush_commit_loop. simpl.
  match goal with |- context [bind Flush_swap_if_large _ ?w1] =>
    destruct (Flush_swap_if_large_trace w1) as (w2 & t1 & H1 & Ht1 & Hh1) end.
  rewrite (bind_Ok _ _ _ _ _ H1).
  destruct (Flush_checkpoint_if_due_trace w2) as (w3 & t2 & H2 & Ht2 & Hh2).
  rewrite (bind_Ok _ _ _ _ _ H2).
  exists w3, (t1 ++ t2). split; [done|]. split.
  - rewrite Ht2, Ht1. simpl. rewrite <- !app_assoc. done.
  - by apply Forall_app.
Qed.

(** The events of a pass: the writes of a prefix of the batch, all of them
    verified, and then either nothing, or (when the whole batch was written)
    the flush, the commits and the housekeeping. *)
Lemma Flush_iteration_shape env w r w' :
  Flush_iteration env w = (r, w') →
  ∃ written rest,
    trace_ w' = trace_ w ++ map (write_of env) written ++ rest ∧
    Forall (size_verified env) written ∧
    map Some written `prefix_of` map fst (blocking_queue_ w) ∧
    (rest = [] ∨
     (map fst (blocking_queue_ w) = map Some written ∧
      ∃ tail,
        rest = [EvOfsFlush]
                 ++ map EvCommitBottom
                      (committed env
                         (trace_ w ++ map (write_of env) written ++ [EvOfsFlush])
                         written)
                 ++ tail ∧
        Forall is_housekeeping tail)).
Proof.
  unfold Flush_iteration, DequeueBulk.
  unfold bind at 1. unfold bind at 1. unfold gets at 1.
  unfold bind at 1. unfold modify at 1. unfold mret at 1, M_ret, ret.
  destruct (map fst (blocking_queue_ w)) as [|o l] eqn:Hq.
  { intros H. inversion H; subst. exists [], []. simpl. rewrite app_nil_r.
    split; [done|]. split; [done|]. split; [done|]. by left. }
  destruct (Flush_write_batch_cases env (o :: l) (set_blocking_queue_ [] w))
    as (rb & w2 & written & Hb & Htr & Hall & Hpre & Hcases). simpl in Htr.
  destruct Hcases as [(-> & Hmap & Hrun)|[(-> & Hrun)|(e & ->)]].
  - rewrite (bind_Ok _ _ _ _ _ Hb). unfold bind at 1. unfold gets at 1.
    destruct (running_ w2) eqn:Hr2; unfold negb; cbv beta iota.
    + rewrite Hmap.
      destruct (Flush_iteration_after_write env written w2)
        as (w3 & tail & H3 & Htr3 & Hh).
      intros H. pose proof (eq_trans (eq_sym H3) H) as Heq.
      inversion Heq; subst. eexists written, _. split.
      { rewrite Htr3, Htr, <- app_assoc. done. }
      split; [done|]. split; [by rewrite <- Hmap|]. right. split; [done|].
      exists tail. split; [|done]. rewrite <- app_assoc. done.
    + intros H. inversion H; subst. exists written, []. rewrite app_nil_r.
      split; [done|]. split; [done|]. split; [done|]. by left.
  - rewrite (bind_Ok _ _ _ _ _ Hb). unfold bind at 1. unfold gets at 1.
    rewrite Hrun. unfold negb; cbv beta iota. intros H. inversion H; subst.
    exists written, []. rewrite app_nil_r.
    split; [done|]. split; [done|]. split; [done|]. by left.
  - rewrite (bind_Throw _ _ _ _ _ Hb). intros H. inversion H; subst.
    exists written, []. rewrite app_nil_r.
    split; [done|]. split; [done|]. split; [done|]. by left.
Qed.

Lemma Flush_iteration_commits env w entries :
  running_ w = true →
  entries ≠ [] →
  map fst (blocking_queue_ w) = map Some entries →
  Forall (flushable env) entries →
  ∃ w' tail,
    Flush_iteration env w = (Ok LoopContinue, w') ∧
    trace_ w' = trace_ w ++ map (write_of env) entries ++ [EvOfsFlush]
                  ++ map EvCommitBottom
                       (committed env
                          (trace_ w ++ map (write_of env) entries ++ [EvOfsFlush])
                          entries)
                  ++ tail ∧
    Forall is_housekeeping tail.
Proof.
  intros Hrun Hne Hq Hall.
  unfold Flush_iteration, DequeueBulk.
  unfold bind at 1. unfold bind at 1. unfold gets at 1.
  unfold bind at 1. unfold modify at 1. unfold mret at 1, M_ret, ret.
  rewrite Hq.
  assert (Hm : ∀ (X : Type) (a b : X),
             match map Some entries with [] => a | _ :: _ => b end = b).
  { intros. destruct entries; done. }
  rewrite Hm.
  destruct (Flush_write_batch_flushable env entries (set_blocking_queue_ [] w) Hall)
    as (w2 & Hb & Hrun2). simpl in Hrun2.
  destruct (Flush_write_batch_cases env (map Some entries) (set_blocking_queue_ [] w))
    as (rb & w2' & written & Hb' & Htr & _ & _ & Hcases). simpl in Htr.
  rewrite Hb in Hb'. inversion Hb'; subst rb w2'; clear Hb'.
  assert (written = entries) as ->.
  { destruct Hcases as [(_ & Hmap & _)|[(_ & Hr)|(e & He)]].
    - apply (inj (map Some)) in Hmap. done.
    - congruence.
    - done. }
  rewrite (bind_Ok _ _ _ _ _ Hb). unfold bind at 1. unfold gets at 1.
  rewrite Hrun2, Hrun. unfold negb; cbv beta iota.
  destruct (Flush_iteration_after_write env entries w2) as (w3 & tail & H3 & Htr3 & Hh).
  exists w3, tail. split; [exact H3|]. split; [|done].
  rewrite Htr3, Htr, <- !app_assoc. done.
Qed.

(** ** Properties of traces *)

Lemma writes_verified_app env evs1 evs2 :
  writes_verified env evs1 → writes_verified env evs2 →
  writes_verified env (evs1 ++ evs2).
Proof. intros H1 H2. by apply Forall_app. Qed.

Lemma writes_verified_writes env entries :
  Forall (size_verified env) entries →
  writes_verified env (map (write_of env) entries).
Proof.
  intros Hall. apply Forall_map. eapply Forall_impl; [exact Hall|].
  intros entry Hv _. eauto.
Qed.

Lemma writes_verified_no_write env evs :
  Forall (λ ev, ¬ is_write ev) evs → writes_verified env evs.
Proof. intros H. eapply Forall_impl; [exact H|]. intros ev Hn Hw. done. Qed.

Lemma split_before {A} (l1 l2 pre post : list A) (c : A) :
  l1 ++ l2 = pre ++ c :: post → c ∉ l1 →
  ∃ k, pre = l1 ++ k ∧ l2 = k ++ c :: post.
Proof.
  intros Heq Hc. apply app_eq_inv in Heq as [(k & H1 & H2)|(k & H1 & H2)].
  - destruct k as [|x k]; simpl in H2.
    + exists []. rewrite app_nil_r in *. done.
    + injection H2 as <- _. subst l1. exfalso. apply Hc.
      apply elem_of_app. right. apply list_elem_of_here.
  - eauto.
Qed.

Lemma durable_before_commit_no_commit env evs :
  Forall (λ ev, ¬ is_commit_bottom ev) evs → durable_before_commit env evs.
Proof.
  intros Hall pre id post ->. exfalso.
  rewrite Forall_app, Forall_cons in Hall. destruct Hall as (_ & Hc & _).
  by apply Hc.
Qed.

Lemma durable_before_commit_app env evs1 evs2 :
  durable_before_commit env evs1 → durable_before_commit env evs2 →
  durable_before_commit env (evs1 ++ evs2).
Proof.
  intros H1 H2 pre id post Heq.
  apply app_eq_inv in Heq as [(k & Hpre & Hpost)|(k & Hpre & Hpost)].
  - destruct k as [|x k]; simpl in Hpost.
    + rewrite app_nil_r in Hpre. subst evs1.
      destruct (H2 [] id post (eq_sym Hpost)) as (entry & p1 & p2 & p3 & _ & Hnil).
      by destruct p1.
    + injection Hpost as <- Hpost.
      apply (H1 pre id k). done.
  - destruct (H2 k id post Hpost) as (entry & p1 & p2 & p3 & Hid & ->).
    exists entry, (evs1 ++ p1), p2, p3. split; [done|].
    rewrite Hpre, <- app_assoc. done.
Qed.

Lemma committed_elem_of env tr entries id :
  id ∈ committed env tr entries → ∃ entry, entry ∈ entries ∧ txn_id_ entry = id.
Proof.
  revert tr. induction entries as [|e es IH]; intros tr; simpl.
  - by intros ?%elem_of_nil.
  - destruct (GetTxn env tr (txn_id_ e)).
    + intros [->|Hin]%elem_of_cons.
      * exists e. split; [apply list_elem_of_here|done].
      * destruct (IH _ Hin) as (entry & ? & ?). exists entry.
        split; [by apply list_elem_of_further|done].
    + intros Hin. destruct (IH _ Hin) as (entry & ? & ?). exists entry.
      split; [by apply list_elem_of_further|done].
Qed.

Lemma durable_before_commit_pass env entries ids tail :
  (∀ id, id ∈ ids → ∃ entry, entry ∈ entries ∧ txn_id_ entry = id) →
  Forall is_housekeeping tail →
  durable_before_commit env
    (map (write_of env) entries ++ [EvOfsFlush] ++ map EvCommitBottom ids ++ tail).
Proof.
  intros Hids Htail pre id post Heq.
  rewrite app_assoc in Heq.
  apply split_before in Heq as (k & -> & Hk).
  2: { intros [Hin|Hin]%elem_of_app.
       - apply list_elem_of_fmap in Hin as (entry & Hentry & _). discriminate.
       - apply list_elem_of_singleton in Hin. discriminate. }
  assert (Hin : EvCommitBottom id ∈ map EvCommitBottom ids ++ tail).
  { rewrite Hk. apply elem_of_app. right. apply list_elem_of_here. }
  apply elem_of_app in Hin as [Hin|Hin].
  - apply list_elem_of_fmap in Hin as (id' & [= ->] & Hid).
    destruct (Hids _ Hid) as (entry & Hentry & Htxn).
    apply list_elem_of_split in Hentry as (es1 & es2 & ->).
    exists entry, (map (write_of env) es1), (map (write_of env) es2), k.
    split; [done|]. rewrite map_app. simpl. rewrite <- !app_assoc. done.
  - rewrite Forall_forall in Htail. by apply Htail in Hin.
Qed.

Lemma Flush_iteration_durable env w r w' :
  Flush_iteration env w = (r, w') →
  ∃ evs, trace_ w' = trace_ w ++ evs ∧
         writes_verified env evs ∧ durable_before_commit env evs.
Proof.
  intros H. apply Flush_iteration_shape in H
    as (written & rest & Htr & Hall & _ & [->|(_ & tail & -> & Htail)]).
  - eexists. split; [exact Htr|]. rewrite app_nil_r. split.
    + by apply writes_verified_writes.
    + apply durable_before_commit_no_commit, Forall_map, Forall_forall.
      intros e _. simpl. tauto.
  - eexists. split; [exact Htr|]. split.
    + apply writes_verified_app; [by apply writes_verified_writes|].
      apply writes_verified_no_write. simpl. constructor; [simpl; tauto|].
      apply Forall_app. split.
      * apply Forall_map, Forall_forall. intros e _. simpl. tauto.
      * eapply Forall_impl; [exact Htail|]. intros ev Hh Hw. by destruct ev.
    + apply durable_before_commit_pass; [|done].
      intros id. apply committed_elem_of.
Qed.

(** The producers only call the transaction manager. *)
Lemma run_steps_trace steps w :
  ∃ w' evs, for_each steps run_step w = (Ok tt, w') ∧
            trace_ w' = trace_ w ++ evs ∧
            Forall (λ ev, ev = EvTxnManagerStop) evs.
Proof.
  revert w. induction steps as [|step steps IH]; intros w; simpl.
  - exists w, []. rewrite app_nil_r. done.
  - assert (∃ w1 evs1, run_step step w = (Ok tt, w1) ∧
                       trace_ w1 = trace_ w ++ evs1 ∧
                       Forall (λ ev, ev = EvTxnManagerStop) evs1)
      as (w1 & evs1 & H1 & Htr1 & Hall1).
    { destruct step as [entry txn|]; simpl.
      - unfold PutEntry. run. destruct (running_ w); simpl;
          eexists _, []; rewrite app_nil_r; done.
      - unfold Stop. run. destruct (running_ w); simpl.
        + eexists _, [_]. split; [done|]. split; [done|]. by repeat constructor.
        + eexists _, []. rewrite app_nil_r. done. }
    rewrite (bind_Ok _ _ _ _ _ H1).
    destruct (IH w1) as (w' & evs & H & Htr & Hall).
    exists w', (evs1 ++ evs). split; [done|]. split.
    + rewrite Htr, Htr1, <- app_assoc. done.
    + by apply Forall_app.
Qed.

(** The whole run of the flush thread. *)
Lemma Flush_durable env schedule w r w' :
  Flush env schedule w = (r, w') →
  ∃ evs, trace_ w' = trace_ w ++ evs ∧
         writes_verified env evs ∧ durable_before_commit env evs.
Proof.
  assert (Hnil : ∀ w0 : WalManager,
            ∃ evs, trace_ w0 = trace_ w0 ++ evs ∧
                   writes_verified env evs ∧ durable_before_commit env evs).
  { intros w0. exists []. rewrite app_nil_r. split; [done|]. split; [constructor|].
    intros pre id post Heq. by destruct pre. }
  assert (Hsteps : ∀ evs, Forall (λ ev, ev = EvTxnManagerStop) evs →
            writes_verified env evs ∧ durable_before_commit env evs).
  { intros evs Hall. split.
    - apply writes_verified_no_write. eapply Forall_impl; [exact Hall|].
      intros ev -> Hw. exact Hw.
    - apply durable_before_commit_no_commit. eapply Forall_impl; [exact Hall|].
      intros ev -> Hc. exact Hc. }
  revert w. induction schedule as [|[before during] schedule IH]; intros w; simpl.
  - intros [= <- <-]. apply Hnil.
  - destruct (run_steps_trace before w) as (w0 & evs0 & H0 & Htr0 & Hall0).
    rewrite (bind_Ok _ _ _ _ _ H0).
    destruct (Hsteps _ Hall0) as [Hw0 Hd0].
    unfold bind at 1. unfold gets at 1.
    destruct (running_ w0); unfold negb; cbv beta iota;
      [|intros [= <- <-]; eauto].
    destruct (run_steps_trace during w0) as (w1 & evs1 & H1 & Htr1 & Hall1).
    rewrite (bind_Ok _ _ _ _ _ H1).
    destruct (Hsteps _ Hall1) as [Hw1 Hd1].
    destruct (Flush_iteration env w1) as [[ctl|e] w2] eqn:H2.
    + rewrite (bind_Ok _ _ _ _ _ H2).
      apply Flush_iteration_durable in H2 as (evs2 & Htr2 & Hw2 & Hd2).
      destruct ctl.
      * intros H. apply IH in H as (evs3 & Htr3 & Hw3 & Hd3).
        exists (evs0 ++ evs1 ++ evs2 ++ evs3). split.
        { rewrite Htr3, Htr2, Htr1, Htr0, <- !app_assoc. done. }
        split; [by repeat apply writes_verified_app|].
        by repeat apply durable_before_commit_app.
      * intros [= <- <-]. exists (evs0 ++ evs1 ++ evs2). split.
        { rewrite Htr2, Htr1, Htr0, <- !app_assoc. done. }
        split; [by repeat apply writes_verified_app|].
        by repeat apply durable_before_commit_app.
    + rewrite (bind_Throw _ _ _ _ _ H2).
      apply Flush_iteration_durable in H2 as (evs2 & Htr2 & Hw2 & Hd2).
      intros [= <- <-]. exists (evs0 ++ evs1 ++ evs2). split.
      { rewrite Htr2, Htr1, Htr0, <- !app_assoc. done. }
      split; [by repeat apply writes_verified_app|].
      by repeat apply durable_before_commit_app.
Qed.

(** C1 (the code departs from it).  The flush loop serializes an entry into
    a buffer of the estimated size [GetSizeInBytes] and compares the sizes
    afterwards.  For an entry whose serialization [WriteAdv] is longer than
    a non-negative estimate, the serialization overruns the buffer before
    the comparison: the behaviour is undefined from that point, where the
    claim has the unrecoverable error raised before anything is written.
    The failing input is the first example entry, 29 bytes long, with an
    estimate of 7.  What holds of the claim: a serialization shorter than
    the estimate raises the unrecoverable error that reports the two sizes,
    with the manager and its log file as before; an entry whose sizes
    differ never reaches [ofs_.write] (it ends in an exception or at the
    overrun); an entry whose processing succeeds has equal sizes and exactly
    its bytes are appended to the log; over a batch the log grows by the
    bytes of a prefix of the batch, every entry of which passed the check;
    over a whole run of the flush thread every write to the log is the
    write of an entry that passed the check. *)
Theorem Flush_overruns_buffer_before_size_check (env : Env) :
  (length (WriteAdv example_env_bad_size example_entry1) = 29 ∧
   to_i32 (GetSizeInBytes example_env_bad_size example_entry1) = 7%Z ∧
   Flush_write_entry example_env_bad_size example_entry1 example_manager
   = (Throw InvalidAccess, example_manager)) ∧
  (∀ entry w,
     cmds_ entry ≠ [] →
     (0 ≤ to_i32 (GetSizeInBytes env entry)
      < Z.of_nat (length (WriteAdv env entry)))%Z →
     Flush_write_entry env entry w = (Throw InvalidAccess, w)) ∧
  (∀ entry w,
     cmds_ entry ≠ [] →
     (Z.of_nat (length (WriteAdv env entry))
      < to_i32 (GetSizeInBytes env entry))%Z →
     Flush_write_entry env entry w
     = (Throw (UnrecoverableException
                 (EstimatedSizeDiffers (to_i32 (GetSizeInBytes env entry))
                    (Z.of_nat (length (WriteAdv env entry))))), w)) ∧
  (∀ entry w,
     ¬ size_verified env entry →
     ∃ e, Flush_write_entry env entry w = (Throw e, w)) ∧
  (∀ entry w w',
     Flush_write_entry env entry w = (Ok tt, w') →
     size_verified env entry ∧
     wal_log (fs_ w') = wal_log (fs_ w) ++ WriteAdv env entry) ∧
  (∀ log_batch w r w',
     Flush_write_batch env log_batch w = (r, w') →
     ∃ written,
       map Some written `prefix_of` log_batch ∧
       Forall (size_verified env) written ∧
       wal_log (fs_ w') = wal_log (fs_ w) ++ concat (map (WriteAdv env) written)) ∧
  (∀ schedule w r w',
     Flush env schedule w = (r, w') →
     ∃ evs, trace_ w' = trace_ w ++ evs ∧ writes_verified env evs).
Proof.
  split; [|split; [|split; [|split; [|split; [|split]]]]].
  - split; [reflexivity|]. split; [reflexivity|].
    apply Flush_write_entry_overrun; [discriminate|].
    vm_compute. split; [discriminate | reflexivity].
  - intros entry w. apply Flush_write_entry_overrun.
  - intros entry w. apply Flush_write_entry_short.
  - intros entry w. apply Flush_write_entry_mismatch.
  - intros entry w w' H.
    apply Flush_write_entry_ok in H as (? & _ & ? & _). done.
  - intros log_batch w r w' H.
    apply Flush_write_batch_log in H as (written & ? & ? & ? & ?). eauto.
  - intros schedule w r w' H.
    apply Flush_durable in H as (evs & Htr & Hw & _). eauto.
Qed.

(** C2.  In a pass of the flush loop, transactions are finalized only after
    every entry of the batch has been written to the log and the log has
    been flushed: the events of a pass either contain no [CommitBottom] at
    all, or they are the writes of all entries of the batch in batch order,
    then the flush, then the [CommitBottom] calls, then the housekeeping.
    The finalized transactions are those the transaction manager still
    knows, in the order of their entries (a subsequence of the batch's
    transaction ids).  A batch of well-formed entries taken by a running
    manager does reach the commits.  Over a whole run of the flush thread,
    every [CommitBottom] is preceded by the write of an entry of its
    transaction and by a flush that follows this write. *)
Theorem commit_bottom_after_durable_write_in_wal_order (env : Env) (w : WalManager) :
  (∀ r w',
     Flush_iteration env w = (r, w') →
     ∃ evs, trace_ w' = trace_ w ++ evs ∧
       (Forall (λ ev, ¬ is_commit_bottom ev) evs ∨
        ∃ entries ids tail,
          map fst (blocking_queue_ w) = map Some entries ∧
          evs = map (write_of env) entries ++ [EvOfsFlush]
                  ++ map EvCommitBottom ids ++ tail ∧
          ids `sublist_of` map txn_id_ entries ∧
          Forall is_housekeeping tail)) ∧
  (∀ entries,
     running_ w = true →
     entries ≠ [] →
     map fst (blocking_queue_ w) = map Some entries →
     Forall (flushable env) entries →
     ∃ w' tail,
       Flush_iteration env w = (Ok LoopContinue, w') ∧
       trace_ w' = trace_ w ++ map (write_of env) entries ++ [EvOfsFlush]
                     ++ map EvCommitBottom
                          (committed env
                             (trace_ w ++ map (write_of env) entries ++ [EvOfsFlush])
                             entries)
                     ++ tail ∧
       Forall is_housekeeping tail) ∧
  (∀ schedule r w',
     Flush env schedule w = (r, w') →
     ∃ evs, trace_ w' = trace_ w ++ evs ∧ durable_before_commit env evs).
Proof.
  split; [|split].
  - intros r w' H. apply Flush_iteration_shape in H
      as (written & rest & Htr & _ & _ & [->|(Hq & tail & -> & Htail)]).
    + eexists. split; [exact Htr|]. left. rewrite app_nil_r.
      apply Forall_map, Forall_forall. intros e _. simpl. tauto.
    + eexists. split; [exact Htr|]. right.
      eexists written, _, tail. split; [done|]. split; [done|].
      split; [apply committed_sublist|done].
  - apply Flush_iteration_commits.
  - intros schedule r w' H.
    apply Flush_durable in H as (evs & Htr & _ & Hd). eauto.
Qed.

(** A run on the example manager: the queued batch is written, flushed and
    committed in the first pass; then [Stop] is called and the thread ends
    on the terminate entry. *)
Example Flush_example_run :
  Flush example_env example_schedule example_manager
  = (Ok tt,
     set_running_ false
       (set_blocking_queue_ []
          (set_wal_size_ 59%Z
             (set_max_commit_ts_ 11%Z
                (set_fs_ (mkFileSystem (repeat x00 59) [(5%Z, [x01; x02])]
                            (catalog_files example_fs))
                   (set_trace_
                      [write_of example_env example_entry1;
                       write_of example_env example_entry2;
                       EvOfsFlush; EvCommitBottom 1%Z; EvCommitBottom 2%Z;
                       EvTxnManagerStop]
                      example_manager)))))).
Proof. vm_compute. reflexivity. Qed.

(** C7 (the code departs from it).  Under [kOnlyWrite] the flush loop
    flushes the log after the writes of a batch, exactly as under
    [kFlushAtOnce]: for the batch of the two example entries the events are
    the two writes, the flush and the two commits. *)
Theorem Flush_OnlyWrite_still_flushes :
  (∀ w, Flush_sync kOnlyWrite w = Flush_sync kFlushAtOnce w ∧
        trace_ (Flush_sync kOnlyWrite w).2 = trace_ w ++ [EvOfsFlush]) ∧
  flush_option_ example_manager = kOnlyWrite ∧
  trace_ (Flush_iteration example_env example_manager).2
  = [write_of example_env example_entry1; write_of example_env example_entry2;
     EvOfsFlush; EvCommitBottom 1%Z; EvCommitBottom 2%Z].
Proof.
  split; [|split].
  - intros w. rewrite !Flush_sync_flushes. done.
  - reflexivity.
  - vm_compute. reflexivity.
Qed.

(** ** Checkpointing *)

Lemma CheckpointInner_check_state env is_full max_commit_ts w r w' :
  CheckpointInner_check env is_full max_commit_ts w = (r, w') → w' = w.
Proof.
  unfold CheckpointInner_check. run.
  repeat (match goal with |- context [if ?b then _ else _] => destruct b end; simpl);
    by inversion 1.
Qed.

Lemma CheckpointInner_skipped env is_full max_commit_ts wal_size w :
  CheckpointInner_check env is_full max_commit_ts w = (Ok false, w) →
  CheckpointInner env is_full max_commit_ts wal_size w
  = (Ok tt, set_checkpoint_in_progress_ false w).
Proof.
  intros H. unfold CheckpointInner, with_defer.
  rewrite (bind_Ok _ _ _ _ _ H). done.
Qed.

Lemma CheckpointInner_rejected env is_full max_commit_ts wal_size w e :
  CheckpointInner_check env is_full max_commit_ts w = (Throw e, w) →
  CheckpointInner env is_full max_commit_ts wal_size w
  = (Throw e, set_checkpoint_in_progress_ false w).
Proof.
  intros H. unfold CheckpointInner, with_defer.
  rewrite (bind_Throw _ _ _ _ _ H). done.
Qed.





(** A full checkpoint at 10 on the same manager: the rolled log and the two
    older catalog files go, [FULL.10.json] is what is left. *)
Example full_checkpoint_example :
  let w' := (CheckpointInner example_env true 10%Z 100%Z example_manager).2 in
  (CheckpointInner example_env true 10%Z 100%Z example_manager).1 = Ok tt ∧
  last_ckp_ts_ w' = 10%Z ∧
  last_full_ckp_ts_ w' = 10%Z ∧
  trace_ w' = [EvTxnCheckpoint 10%Z true; EvRecycleWalFile 10%Z;
               EvRecycleCatalogFile 10%Z] ∧
  rolled_logs (fs_ w') = [] ∧
  catalog_files (fs_ w') = [mkCatalogFileInfo true 10%Z].
Proof. vm_compute. repeat split; done. Qed.

(** C6 (as amended).  A checkpoint whose target is strictly below
    [last_ckp_ts_] ends in an unrecoverable error (for a full checkpoint:
    when [last_ckp_ts_] is not [UNCOMMIT_TS] and the target differs from
    [last_full_ckp_ts_], which is skipped).  A delta checkpoint whose target
    equals [last_ckp_ts_] is skipped: it returns normally and changes
    nothing but the in-progress flag. *)
Theorem checkpoint_below_last_ckp_ts_is_fatal (env : Env) (is_full : bool)
    (max_commit_ts : TxnTimeStamp) (wal_size : Z) (w : WalManager) :
  ((max_commit_ts < last_ckp_ts_ w)%Z →
   (is_full = true →
    last_ckp_ts_ w ≠ UNCOMMIT_TS env ∧ max_commit_ts ≠ last_full_ckp_ts_ w) →
   ∃ msg, CheckpointInner env is_full max_commit_ts wal_size w
          = (Throw (UnrecoverableException msg), set_checkpoint_in_progress_ false w)) ∧
  (max_commit_ts = last_ckp_ts_ w →
   is_full = false →
   CheckpointInner env is_full max_commit_ts wal_size w
   = (Ok tt, set_checkpoint_in_progress_ false w)).
Proof.
  split.
  - intros Hlt Hfull.
    assert (∃ msg, CheckpointInner_check env is_full max_commit_ts w
                   = (Throw (UnrecoverableException msg), w)) as (msg & Hc).
    { unfold CheckpointInner_check. run. destruct is_full.
      - destruct (Hfull eq_refl) as (Hu & Hne).
        destruct (max_commit_ts =? last_full_ckp_ts_ w)%Z eqn:E1;
          [apply Z.eqb_eq in E1; done|].
        destruct (negb _ && _); [eauto|].
        destruct (last_ckp_ts_ w =? UNCOMMIT_TS env)%Z eqn:E2;
          [apply Z.eqb_eq in E2; done|].
        destruct (max_commit_ts <? last_ckp_ts_ w)%Z eqn:E3;
          [simpl; eauto | apply Z.ltb_ge in E3; lia].
      - destruct (max_commit_ts =? last_ckp_ts_ w)%Z eqn:E1;
          [apply Z.eqb_eq in E1; lia|].
        destruct (max_commit_ts <=? last_ckp_ts_ w)%Z eqn:E2;
          [eauto | apply Z.leb_gt in E2; lia]. }
    exists msg. by apply CheckpointInner_rejected.
  - intros -> ->. apply CheckpointInner_skipped.
    unfold CheckpointInner_check. run. rewrite Z.eqb_refl. done.
Qed.

(** C6 as stated fails in the equality case: a delta checkpoint at
    [last_ckp_ts_] raises no error. *)
Lemma checkpoint_at_last_ckp_ts_is_not_fatal :
  (5 ≤ last_ckp_ts_ example_manager)%Z ∧
  CheckpointInner example_env false 5%Z 100%Z example_manager
  = (Ok tt, set_checkpoint_in_progress_ false example_manager) ∧
  ∀ e, (CheckpointInner example_env false 5%Z 100%Z example_manager).1 ≠ Throw e.
Proof.
  split; [vm_compute; discriminate|].
  split; [vm_compute; reflexivity|].
  intros e. vm_compute. discriminate.
Qed.

(** ** Recovery *)

Lemma Replay_wal_list_nil env :
  Replay_wal_list env = [] ↔ ParseWalFilenames env = (None, []).
Proof.
  unfold Replay_wal_list. destruct (ParseWalFilenames env) as [temp infos].
  split.
  - intros H. apply app_eq_nil in H as [Ht Hi]. apply map_eq_nil in Hi.
    destruct temp; [done|].
    assert (infos = []) as ->; [|done].
    apply Permutation_nil_r. rewrite <- Hi. by rewrite merge_sort_Permutation.
  - intros [= -> ->]. done.
Qed.

Lemma Replay_phase1_no_checkpoint env iterator replay_entries :
  (∀ re e, e ∈ iterator → IsCheckPoint env re e = None) →
  Replay_phase1 env iterator replay_entries
  = mkReplayScan 0%Z "" 0%Z (replay_entries ++ iterator) [].
Proof.
  revert replay_entries. induction iterator as [|e it IH]; intros re Hno; simpl.
  - by rewrite app_nil_r.
  - rewrite Hno by apply list_elem_of_here.
    rewrite IH.
    + by rewrite <- app_assoc.
    + intros re' e' He'. apply Hno. by apply list_elem_of_further.
Qed.

(** C3.  With no WAL file in the WAL directory, [ReplayWalFile] initializes
    a new catalog and returns 0.  With WAL files of which no entry holds a
    [Checkpoint] command, it raises the unrecoverable error "No checkpoint
    found in wal" without having touched the catalog.  ([IsCheckPoint]
    is only assumed to report checkpoint commands that the entry holds.) *)
Theorem ReplayWalFile_empty_or_missing_checkpoint (env : Env) (w : WalManager) :
  (ParseWalFilenames env = (None, []) →
   ReplayWalFile env w = (Ok 0%Z, set_trace_ (trace_ w ++ [EvInitNewCatalog]) w)) ∧
  (ParseWalFilenames env ≠ (None, []) →
   (∀ re e ckp, IsCheckPoint env re e = Some ckp → WalCmdCheckpointCmd ckp ∈ cmds_ e) →
   (∀ e ckp, e ∈ WalListIterator env (Replay_wal_list env) →
             WalCmdCheckpointCmd ckp ∉ cmds_ e) →
   ReplayWalFile env w
   = (Throw (UnrecoverableException NoCheckpointFoundInWal), w)).
Proof.
  split.
  - intros H. apply Replay_wal_list_nil in H. unfold ReplayWalFile.
    rewrite H. done.
  - intros Hfiles Hsound Hno. unfold ReplayWalFile.
    destruct (Replay_wal_list env) as [|f fs] eqn:Hl.
    { apply Replay_wal_list_nil in Hl. done. }
    rewrite Replay_phase1_no_checkpoint; [done|].
    intros re e He. destruct (IsCheckPoint env re e) as [ckp|] eqn:Hc; [|done].
    exfalso. eapply Hno; [exact He|]. eapply Hsound, Hc.
Qed.

(** The recovery of a log with an entry on each side of a checkpoint entry
    for [max_commit_ts = 9]: the catalog is attached and both entries, which
    committed after 9, are replayed in log order. *)
Example ReplayWalFile_with_checkpoint :
  ReplayWalFile
    (example_env_replay [example_entry2; example_checkpoint_entry; example_entry1])
    example_manager_idle
  = (Ok 11%Z,
     set_max_commit_ts_ 11%Z
       (set_trace_
          [EvAttachCatalog (mkCatalogFileInfo true 3%Z) [mkCatalogFileInfo false 9%Z];
           EvReplayCommand (WalCmdCreateDatabase "db1" "db1_dir") 1%Z 10%Z;
           EvReplayCommand (WalCmdDropDatabase "db0") 2%Z 11%Z;
           EvReplayCommand (WalCmdDropTable "db1" "t") 2%Z 11%Z;
           EvSetNextTxnId 2%Z; EvInitDeltaEntry 11%Z]
          example_manager_idle)).
Proof. vm_compute. reflexivity. Qed.

(** ** Replay of segments *)

Lemma fold_indexed_insert_lookup {A B} (f : Z → A → B) (xs : list A) (i : Z)
    (m : gmap Z B) (k : Z) :
  fold_indexed i xs (λ j x m, <[j := f j x]> m) m !! k
  = if decide (i ≤ k < i + Z.of_nat (length xs))%Z
    then f k <$> xs !! Z.to_nat (k - i)
    else m !! k.
Proof.
  revert i m. induction xs as [|x xs IH]; intros i m; simpl.
  - case_decide; [lia|done].
  - rewrite IH. repeat case_decide; try lia.
    + replace (Z.to_nat (k - i)) with (S (Z.to_nat (k - (i + 1)))) by lia. done.
    + assert (k = i) as -> by lia. rewrite lookup_insert_eq.
      replace (Z.to_nat (i - i)) with 0 by lia. done.
    + rewrite lookup_insert_ne by lia. done.
Qed.

Lemma fold_indexed_proj {A S T} (proj : S → T) (body : Z → A → S → S)
    (body' : Z → A → T → T) :
  (∀ j x s, proj (body j x s) = body' j x (proj s)) →
  ∀ xs i s, proj (fold_indexed i xs body s) = fold_indexed i xs body' (proj s).
Proof.
  intros H xs. induction xs as [|x xs IH]; intros i s; simpl; [done|].
  rewrite IH, H. done.
Qed.

Lemma fold_indexed_keeps {A S T} (fld : S → T) (body : Z → A → S → S) :
  (∀ j x s, fld (body j x s) = fld s) →
  ∀ xs i s, fld (fold_indexed i xs body s) = fld s.
Proof.
  intros H xs. induction xs as [|x xs IH]; intros i s; simpl; [done|].
  rewrite IH, H. done.
Qed.

Lemma loop_bound_in_range bits (n : nat) :
  (Z.of_nat n < 2 ^ bits)%Z → loop_bound bits n = n.
Proof.
  intros H. unfold loop_bound, to_unsigned. rewrite Z.mod_small by lia. lia.
Qed.

Lemma ReplayBlockColumns_replayed env block_info commit_ts block_id
    row_count row_capacity :
  (Z.of_nat (length (WalBlockInfo.outline_infos_ block_info))
   < 2 ^ ColumnID_bits env)%Z →
  row_count = WalBlockInfo.row_count_ block_info →
  row_capacity = WalBlockInfo.row_capacity_ block_info →
  block_replayed commit_ts block_id block_info
    (ReplayBlockColumns env block_info commit_ts
       (BlockEntry.NewReplayBlockEntry block_id row_count row_capacity
          commit_ts commit_ts commit_ts commit_ts row_count)).
Proof.
  intros Hr -> ->. unfold ReplayBlockColumns.
  rewrite loop_bound_in_range, firstn_all by done.
  unfold block_replayed.
  repeat (split;
    [ match goal with |- ?fld (fold_indexed _ _ _ _) = _ =>
        rewrite (fold_indexed_keeps fld); [done | by intros ? [] ?] end | ]).
  intros k.
  rewrite (fold_indexed_proj BlockEntry.columns_ _
             (λ j x m, <[j := replayed_column commit_ts j x]> m))
    by (by intros ? [] ?).
  rewrite fold_indexed_insert_lookup. simpl.
  rewrite Z.sub_0_r. repeat case_decide; try lia; try done.
  rewrite lookup_ge_None_2 by lia. done.
Qed.

Lemma ReplaySegment_replayed env table_entry segment_info txn_id commit_ts :
  info_in_range env segment_info →
  segment_replayed env table_entry txn_id commit_ts segment_info
    (ReplaySegment env table_entry segment_info txn_id commit_ts).
Proof.
  intros [Hb Hc]. unfold ReplaySegment.
  rewrite loop_bound_in_range, firstn_all by done.
  unfold segment_replayed.
  repeat (split;
    [ match goal with |- ?fld (fold_indexed _ _ _ _) = _ =>
        rewrite (fold_indexed_keeps fld); [done | done] end | ]).
  set (mk_block := λ (block_id : Z) (block_info : WalBlockInfo.t),
         ReplayBlockColumns env block_info commit_ts
           (BlockEntry.NewReplayBlockEntry block_id
              (WalBlockInfo.row_count_ block_info)
              (WalBlockInfo.row_capacity_ block_info)
              commit_ts commit_ts commit_ts commit_ts
              (WalBlockInfo.row_count_ block_info))).
  assert (Hlook : ∀ k : Z,
    SegmentEntry.block_entries_
      (fold_indexed 0%Z (WalSegmentInfo.block_infos_ segment_info)
         (λ block_id block_info segment_entry,
            SegmentEntry.AddBlockReplay (mk_block block_id block_info) block_id
              segment_entry)
         (SegmentEntry.NewReplaySegmentEntry table_entry
            (WalSegmentInfo.segment_id_ segment_info) kSealed
            (WalSegmentInfo.column_count_ segment_info)
            (WalSegmentInfo.row_count_ segment_info)
            (WalSegmentInfo.actual_row_count_ segment_info)
            (WalSegmentInfo.row_capacity_ segment_info)
            commit_ts commit_ts commit_ts (UNCOMMIT_TS env) 0%Z txn_id)) !! k
    = if decide (0 ≤ k)%Z
      then mk_block k <$> WalSegmentInfo.block_infos_ segment_info !! Z.to_nat k
      else None).
  { intros k.
    rewrite (fold_indexed_proj SegmentEntry.block_entries_ _
               (λ j x m, <[j := mk_block j x]> m)) by done.
    rewrite fold_indexed_insert_lookup. simpl.
    rewrite Z.sub_0_r. repeat case_decide; try lia; try done.
    rewrite lookup_ge_None_2 by lia. done. }
  split.
  - intros k Hk. rewrite Hlook. case_decide; [lia|done].
  - intros i. rewrite Hlook. rewrite decide_True by lia. rewrite Nat2Z.id.
    destruct (WalSegmentInfo.block_infos_ segment_info !! i) as [bi|] eqn:Hi;
      simpl; constructor.
    apply ReplayBlockColumns_replayed; [|done|done].
    rewrite Forall_forall in Hc. apply Hc. eapply list_elem_of_lookup_2, Hi.
Qed.

Lemma for_each_emit {A} (f : A → Event) (xs : list A) w :
  for_each xs (λ x, emit (f x)) w = (Ok tt, set_trace_ (trace_ w ++ map f xs) w).
Proof.
  revert w. induction xs as [|x xs IH]; intros w; simpl.
  - rewrite app_nil_r, set_trace_id. done.
  - run. rewrite IH. simpl. rewrite <- app_assoc. by destruct w.
Qed.

Lemma CompactReplay_deprecate_trace env table_entry commit_ts ids w r w' :
  for_each ids (CompactReplay_deprecate env table_entry commit_ts) w = (r, w') →
  ∃ rest, trace_ w' = trace_ w ++ rest ∧ Forall adds_no_segment rest.
Proof.
  revert w. induction ids as [|id ids IH]; intros w; simpl.
  - intros [= <- <-]. exists []. by rewrite app_nil_r.
  - intros H. apply bind_inv in H as [(e & H & ->)|([] & w1 & H & Hrest)].
    + exists (match GetSegmentByID env (trace_ w) table_entry id commit_ts with
              | Some seg => [EvTrySetCompacting seg]
              | None => []
              end).
      revert H. unfold CompactReplay_deprecate. run.
      destruct (GetSegmentByID _ _ _ _ _) as [seg|]; simpl.
      * destruct (TrySetCompacting _ _ _); simpl; [done|].
        intros [= <- <-]. simpl. split; [done|]. by repeat constructor.
      * intros [= <- <-]. rewrite app_nil_r. done.
    + apply IH in Hrest as (rest & Htr & Hall).
      revert H. unfold CompactReplay_deprecate. run.
      destruct (GetSegmentByID _ _ _ _ _) as [seg|]; simpl; [|done].
      destruct (TrySetCompacting _ _ _); simpl; [|done].
      intros [= <-]. simpl in Htr.
      exists ([EvTrySetCompacting seg; EvSetNoDelete seg; EvSetDeprecated seg commit_ts]
                ++ rest).
      split.
      * rewrite Htr, <- !app_assoc. done.
      * apply Forall_app. split; [by repeat constructor | done].
Qed.

Lemma GetTableByName_or_fail_eq env db_name table_name txn_id commit_ts w :
  GetTableByName_or_fail env db_name table_name txn_id commit_ts w
  = match GetTableByName env (trace_ w) db_name table_name txn_id commit_ts with
    | Some table_entry => (Ok table_entry, w)
    | None => (Throw (UnrecoverableException GetTableFailed), w)
    end.
Proof.
  unfold GetTableByName_or_fail. run. by destruct (GetTableByName _ _ _ _ _ _).
Qed.

(** The second block of the example segment, as replayed at 20. *)
Example ReplaySegment_example :
  let seg := ReplaySegment example_env 1%N example_segment_info 7%Z 20%Z in
  SegmentEntry.status_ seg = kSealed ∧
  SegmentEntry.deprecate_ts_ seg = TxnTimeStamp_max ∧
  SegmentEntry.block_entries_ seg !! 1%Z
  = Some (BlockEntry.mk 1%Z 40%Z 64%Z 20%Z 20%Z 20%Z 20%Z 40%Z
            (<[1%Z := BlockColumnEntry.mk 1%Z 0%Z 0%Z 20%Z]>
               (<[0%Z := BlockColumnEntry.mk 0%Z 2%Z 20%Z 20%Z]> ∅))) ∧
  SegmentEntry.block_entries_ seg !! 2%Z = None.
Proof. vm_compute. done. Qed.

(** C4.  Replaying an [Import] or a [Compact] command at [commit_ts] fails
    on the table lookup, before anything is added, exactly when the catalog
    does not find the table.  When it finds the table, the replay hands to
    it one segment per recorded segment info, in order, each of them
    [segment_replayed]: status [kSealed]; [min_row_ts], [max_row_ts] and
    [commit_ts] equal to [commit_ts]; [deprecate_ts] equal to [UNCOMMIT_TS];
    its blocks and their block-columns recreated from the recorded row
    counts and outline checkpoints.  An [Import] then returns normally; what
    a [Compact] does after its segments adds no segment.  (The numbers of
    blocks and columns are assumed to be values of [BlockID] and
    [ColumnID].) *)
Theorem replay_import_compact_segments (env : Env) (txn_id : TransactionID)
    (commit_ts : TxnTimeStamp) (db_name table_name : string) (w : WalManager) :
  (∀ segment_info,
     info_in_range env segment_info →
     match GetTableByName env (trace_ w) db_name table_name txn_id commit_ts with
     | None =>
       ReplayWalCmd env txn_id commit_ts
         (WalCmdImport db_name table_name segment_info) w
       = (Throw (UnrecoverableException GetTableFailed), w)
     | Some table_entry =>
       ∃ segment_entry,
         ReplayWalCmd env txn_id commit_ts
           (WalCmdImport db_name table_name segment_info) w
         = (Ok tt,
            set_trace_
              (trace_ w ++ [EvAddSegmentReplayWalImport table_entry segment_entry])
              w) ∧
         segment_replayed env table_entry txn_id commit_ts segment_info segment_entry
     end) ∧
  (∀ new_segment_infos deprecated_segment_ids,
     Forall (info_in_range env) new_segment_infos →
     match GetTableByName env (trace_ w) db_name table_name txn_id commit_ts with
     | None =>
       ReplayWalCmd env txn_id commit_ts
         (WalCmdCompact db_name table_name new_segment_infos deprecated_segment_ids) w
       = (Throw (UnrecoverableException GetTableFailed), w)
     | Some table_entry =>
       ∃ segment_entries rest,
         trace_ (ReplayWalCmd env txn_id commit_ts
                   (WalCmdCompact db_name table_name new_segment_infos
                      deprecated_segment_ids) w).2
         = trace_ w
             ++ map (EvAddSegmentReplayWalCompact table_entry) segment_entries
             ++ rest ∧
         Forall2 (segment_replayed env table_entry txn_id commit_ts)
                 new_segment_infos segment_entries ∧
         Forall adds_no_segment rest
     end).
Proof.
  split.
  - intros info Hr. simpl. unfold WalCmdImportReplay.
    destruct (GetTableByName _ _ _ _ _ _) as [t|] eqn:Ht;
      unfold bind at 1; rewrite GetTableByName_or_fail_eq, Ht; [|done].
    eexists. split; [unfold emit; run; reflexivity|].
    by apply ReplaySegment_replayed.
  - intros infos ids Hr. simpl. unfold WalCmdCompactReplay.
    destruct (GetTableByName _ _ _ _ _ _) as [t|] eqn:Ht;
      unfold bind at 1; rewrite GetTableByName_or_fail_eq, Ht; [|done].
    unfold bind at 1. rewrite for_each_emit.
    match goal with |- context [for_each ids ?f ?w1] =>
      destruct (for_each ids f w1) as [r w'] eqn:H end.
    apply CompactReplay_deprecate_trace in H as (rest & Htr & Hrest). simpl in Htr.
    exists (map (λ info, ReplaySegment env t info txn_id commit_ts) infos), rest.
    split; [simpl; by rewrite Htr, <- app_assoc, <- list_fmap_compose|].
    split; [|done]. apply Forall2_fmap_r, Forall_Forall2_diag.
    eapply Forall_impl; [exact Hr|]. intros info Hi.
    by apply ReplaySegment_replayed.
Qed.

(** ** Instances *)

Lemma PutEntry_discards_when_not_running_witness :
  PutEntry example_entry1 1%Z example_manager_idle = (Ok tt, example_manager_idle).
Proof.
  apply (proj1 (PutEntry_discards_when_not_running
                  example_env example_manager_idle example_entry1 1%Z)).
  reflexivity.
Defined.

(** The first example entry serializes to 29 bytes.  With an estimate of 7
    the buffer is overrun; with an estimate of 100 the size check raises its
    error; with the right estimate the 29 bytes are appended to the log. *)
Lemma Flush_overruns_buffer_before_size_check_witness :
  length (WriteAdv example_env_bad_size example_entry1) = 29 ∧
  to_i32 (GetSizeInBytes example_env_bad_size example_entry1) = 7%Z ∧
  Flush_write_entry example_env_bad_size example_entry1 example_manager
  = (Throw InvalidAccess, example_manager) ∧
  Flush_write_entry example_env_large_size example_entry1 example_manager
  = (Throw (UnrecoverableException (EstimatedSizeDiffers 100%Z 29%Z)),
     example_manager) ∧
  (∃ e, Flush_write_entry example_env_bad_size example_entry1 example_manager
        = (Throw e, example_manager)) ∧
  (size_verified example_env example_entry1 ∧
   wal_log (fs_ (Flush_write_entry example_env example_entry1 example_manager).2)
   = wal_log (fs_ example_manager) ++ WriteAdv example_env example_entry1) ∧
  (∃ written,
     map Some written `prefix_of` map fst (blocking_queue_ example_manager) ∧
     Forall (size_verified example_env) written) ∧
  (∃ evs,
     trace_ (Flush example_env example_schedule example_manager).2
     = trace_ example_manager ++ evs ∧
     writes_verified example_env evs).
Proof.
  destruct (Flush_overruns_buffer_before_size_check example_env_bad_size)
    as (_ & Hover & _ & Hbad & _).
  destruct (Flush_overruns_buffer_before_size_check example_env_large_size)
    as (_ & _ & Hshort & _).
  destruct (Flush_overruns_buffer_before_size_check example_env)
    as (_ & _ & _ & _ & Hok & Hbatch & Hrun).
  split; [reflexivity|]. split; [reflexivity|].
  split; [|split; [|split; [|split; [|split]]]].
  - apply Hover; [discriminate | vm_compute; split; [discriminate | reflexivity]].
  - apply (Hshort example_entry1 example_manager); [discriminate | reflexivity].
  - apply Hbad. unfold size_verified. vm_compute. discriminate.
  - apply (Hok example_entry1 example_manager
             (Flush_write_entry example_env example_entry1 example_manager).2).
    vm_compute. reflexivity.
  - destruct (Hbatch (map fst (blocking_queue_ example_manager)) example_manager
                _ _ (surjective_pairing _)) as (written & Hp & Hall & _).
    exists written. split; assumption.
  - exact (Hrun example_schedule example_manager _ _ (surjective_pairing _)).
Defined.

Lemma example_entries_flushable :
  Forall (flushable example_env) [example_entry1; example_entry2].
Proof.
  assert (H : ∀ e, e ∈ [example_entry1; example_entry2] → flushable example_env e).
  { intros e He. apply list_elem_of_In in He.
    destruct He as [<-|[<-|[]]]; unfold flushable, size_verified;
      (split; [discriminate | split; [vm_compute; discriminate | reflexivity]]). }
  apply Forall_forall, H.
Qed.

Lemma commit_bottom_after_durable_write_in_wal_order_witness :
  (∃ evs,
     trace_ (Flush_iteration example_env example_manager).2
     = trace_ example_manager ++ evs) ∧
  (∃ w' tail,
     Flush_iteration example_env example_manager = (Ok LoopContinue, w') ∧
     Forall is_housekeeping tail) ∧
  (∃ evs,
     trace_ (Flush example_env example_schedule example_manager).2
     = trace_ example_manager ++ evs ∧
     durable_before_commit example_env evs).
Proof.
  destruct (commit_bottom_after_durable_write_in_wal_order
              example_env example_manager) as (Hpass & Hcommits & Hrun).
  split; [|split].
  - destruct (Hpass _ _ (surjective_pairing _)) as (evs & Hevs & _).
    exists evs. exact Hevs.
  - destruct (Hcommits [example_entry1; example_entry2])
      as (w' & tail & H & _ & Htail).
    + reflexivity.
    + discriminate.
    + reflexivity.
    + exact example_entries_flushable.
    + exists w', tail. split; assumption.
  - exact (Hrun example_schedule _ _ (surjective_pairing _)).
Defined.


Lemma checkpoint_below_last_ckp_ts_is_fatal_witness :
  (∃ msg, CheckpointInner example_env false 4%Z 100%Z example_manager
          = (Throw (UnrecoverableException msg),
             set_checkpoint_in_progress_ false example_manager)) ∧
  CheckpointInner example_env false 5%Z 100%Z example_manager
  = (Ok tt, set_checkpoint_in_progress_ false example_manager).
Proof.
  split.
  - apply (proj1 (checkpoint_below_last_ckp_ts_is_fatal
                    example_env false 4%Z 100%Z example_manager)).
    + simpl. lia.
    + discriminate.
  - apply (proj2 (checkpoint_below_last_ckp_ts_is_fatal
                    example_env false 5%Z 100%Z example_manager));
      reflexivity.
Defined.

Lemma example_IsCheckPoint_sound re e ckp :
  example_IsCheckPoint re e = Some ckp → WalCmdCheckpointCmd ckp ∈ cmds_ e.
Proof.
  unfold example_IsCheckPoint. intros H.
  apply head_Some_elem_of, list_elem_of_omap in H as (cmd & Hin & Hcmd).
  destruct cmd; try discriminate. by injection Hcmd as ->.
Qed.

Lemma ReplayWalFile_empty_or_missing_checkpoint_witness :
  ReplayWalFile example_env example_manager_idle
  = (Ok 0%Z, set_trace_ (trace_ example_manager_idle ++ [EvInitNewCatalog])
               example_manager_idle) ∧
  ReplayWalFile (example_env_replay [example_entry2; example_entry1])
    example_manager_idle
  = (Throw (UnrecoverableException NoCheckpointFoundInWal), example_manager_idle).
Proof.
  split.
  - apply (proj1 (ReplayWalFile_empty_or_missing_checkpoint
                    example_env example_manager_idle)).
    reflexivity.
  - apply (proj2 (ReplayWalFile_empty_or_missing_checkpoint
                    (example_env_replay [example_entry2; example_entry1])
                    example_manager_idle)).
    + discriminate.
    + apply example_IsCheckPoint_sound.
    + intros e ckp He Hc. simpl in He.
      apply list_elem_of_In in He. apply list_elem_of_In in Hc.
      destruct He as [<-|[<-|[]]]; simpl in Hc;
        repeat (destruct Hc as [Hc|Hc]; [discriminate|]); exact Hc.
Defined.

Lemma example_segment_info_in_range : info_in_range example_env example_segment_info.
Proof.
  split; [vm_compute; reflexivity|].
  repeat constructor; vm_compute; reflexivity.
Qed.

(** In the example catalog the table is entry 1: the import adds the one
    replayed segment to it and returns, the compaction adds its new segment
    to it before it deprecates segments 0 and 1. *)
Lemma replay_import_compact_segments_witness :
  (∃ segment_entry,
     ReplayWalCmd example_env 7%Z 20%Z
       (WalCmdImport "db1" "t" example_segment_info) example_manager_idle
     = (Ok tt,
        set_trace_
          (trace_ example_manager_idle
             ++ [EvAddSegmentReplayWalImport 1%N segment_entry])
          example_manager_idle) ∧
     segment_replayed example_env 1%N 7%Z 20%Z example_segment_info segment_entry) ∧
  (∃ segment_entries rest,
     trace_ (ReplayWalCmd example_env 7%Z 20%Z
               (WalCmdCompact "db1" "t" [example_segment_info] [0%Z; 1%Z])
               example_manager_idle).2
     = trace_ example_manager_idle
         ++ map (EvAddSegmentReplayWalCompact 1%N) segment_entries ++ rest ∧
     Forall2 (segment_replayed example_env 1%N 7%Z 20%Z)
             [example_segment_info] segment_entries ∧
     Forall adds_no_segment rest).
Proof.
  split.
  - exact (proj1 (replay_import_compact_segments
                    example_env 7%Z 20%Z "db1" "t" example_manager_idle)
             example_segment_info example_segment_info_in_range).
  - exact (proj2 (replay_import_compact_segments
                    example_env 7%Z 20%Z "db1" "t" example_manager_idle)
             [example_segment_info] [0%Z; 1%Z]
             (Forall_cons_2 _ _ _ example_segment_info_in_range (Forall_nil_2 _))).
Defined.

(** * Further properties of the WAL manager *)

(** ** Start and stop *)

Lemma Stop_ok w : ∃ w', Stop w = (Ok tt, w') ∧ running_ w' = false.
Proof. unfold Stop. run. destruct (running_ w) eqn:E; simpl; eauto. Qed.

Lemma Stop_stopped w : running_ w = false → Stop w = (Ok tt, w).
Proof. intros H. unfold Stop. run. by rewrite H. Qed.

Lemma Stop_running w :
  running_ w = true →
  Stop w = (Ok tt,
            set_blocking_queue_ (blocking_queue_ w ++ [(None, None)])
              (set_trace_ (trace_ w ++ [EvTxnManagerStop]) (set_running_ false w))).
Proof. intros H. unfold Stop. run. by rewrite H. Qed.


(** X1.  [Start] and [Stop] are idempotent: the compare-and-exchange on
    [running_] makes a second call return at once.  [Start] on a running
    manager changes nothing, in particular it does not reset [wal_size_];
    on a stopped one it sets [running_] and resets [wal_size_].  [Stop] on a
    stopped manager changes nothing: it does not call the transaction
    manager and does not enqueue a second terminate entry. *)
Theorem Start_Stop_idempotent (w : WalManager) :
  (running_ w = true → Start w = (Ok tt, w)) ∧
  (running_ w = false →
   Start w = (Ok tt, set_wal_size_ 0%Z (set_running_ true w))) ∧
  (running_ w = false → Stop w = (Ok tt, w)) ∧
  Start (Start w).2 = (Ok tt, (Start w).2) ∧
  Stop (Stop w).2 = (Ok tt, (Stop w).2).
Proof.
  split; [|split; [|split; [|split]]].
  - intros H. unfold Start. run. by rewrite H.
  - intros H. unfold Start. run. by rewrite H.
  - apply Stop_stopped.
  - unfold Start. run. destruct (running_ w) eqn:E; simpl; [by rewrite E | done].
  - destruct (Stop_ok w) as (w' & H & Hr). rewrite H. simpl. by apply Stop_stopped.
Qed.

(** On the running example manager, whose [wal_size_] is made 59 here,
    [Start] returns at once and [wal_size_] stays 59; on the manager that
    was never started [Stop] does nothing. *)
Lemma Start_Stop_idempotent_witness :
  Start (set_wal_size_ 59%Z example_manager)
  = (Ok tt, set_wal_size_ 59%Z example_manager) ∧
  wal_size_ (Start (set_wal_size_ 59%Z example_manager)).2 = 59%Z ∧
  Start example_manager_idle
  = (Ok tt, set_wal_size_ 0%Z (set_running_ true example_manager_idle)) ∧
  Stop example_manager_idle = (Ok tt, example_manager_idle).
Proof.
  destruct (Start_Stop_idempotent (set_wal_size_ 59%Z example_manager))
    as (Hrun & _).
  destruct (Start_Stop_idempotent example_manager_idle) as (_ & Hstart & Hstop & _).
  split; [apply Hrun; reflexivity|].
  split; [rewrite Hrun; reflexivity|].
  split; [apply Hstart; reflexivity | apply Hstop; reflexivity].
Defined.

(** ** Stopping the flush thread *)








(** ** What every step of the flush thread keeps *)

Section Respects.
Variable R : WalManager → WalManager → Prop.
Hypothesis R_refl : ∀ w, R w w.
Hypothesis R_trans : ∀ w1 w2 w3, R w1 w2 → R w2 w3 → R w1 w3.

Lemma respects_ret {A} (a : A) : respects R (ret a : M WalManager A).
Proof. intros w. apply R_refl. Qed.

Lemma respects_throw {A} e : respects R (throw e : M WalManager A).
Proof. intros w. apply R_refl. Qed.

Lemma respects_gets {A} (f : WalManager → A) : respects R (gets f).
Proof. intros w. apply R_refl. Qed.

Lemma respects_answer {A} (f : WalManager → Res A) :
  respects R (λ w, (f w, w)).
Proof. intros w. apply R_refl. Qed.

Lemma respects_bind {A B} (c : M WalManager A) (k : A → M WalManager B) :
  respects R c → (∀ a, respects R (k a)) → respects R (bind c k).
Proof.
  intros Hc Hk w. unfold bind. specialize (Hc w).
  destruct (c w) as [[a|e] w1]; simpl in *; [|done].
  eapply R_trans; [exact Hc | apply Hk].
Qed.

Lemma respects_for_each {A} (xs : list A) (body : A → M WalManager unit) :
  (∀ x, respects R (body x)) → respects R (for_each xs body).
Proof.
  intros Hbody. induction xs as [|x xs IH]; simpl.
  - apply respects_ret.
  - apply respects_bind; [apply Hbody | intros _; apply IH].
Qed.

Lemma respects_catch_recoverable (c : M WalManager unit) :
  respects R c → respects R (catch_recoverable c).
Proof.
  intros Hc w. unfold catch_recoverable. specialize (Hc w).
  destruct (c w) as [[a|[]] w1]; done.
Qed.

Section Flush_respects.
Variable env : Env.
Hypothesis R_running : ∀ b, respects R (modify (set_running_ b)).
Hypothesis R_queue : ∀ f : WalManager → list (option WalEntry * option TransactionID),
  respects R (modify (λ w, set_blocking_queue_ (f w) w)).
Hypothesis R_write : ∀ entry, respects R (Flush_write_entry env entry).
Hypothesis R_call : ∀ ev,
  ev = EvTxnManagerStop ∨ ev = EvOfsFlush ∨ is_commit_bottom ev →
  respects R (emit ev).
Hypothesis R_swap : ∀ max_commit_ts, respects R (SwapWalFile max_commit_ts).
Hypothesis R_submit : respects R (TrySubmitCheckpointTask false).

Lemma respects_run_step s : respects R (run_step s).
Proof.
  destruct s as [entry txn|]; simpl.
  - unfold PutEntry. apply respects_bind; [apply respects_gets|].
    intros []; simpl; [apply R_queue | apply respects_ret].
  - unfold Stop. apply respects_bind; [apply respects_gets|].
    intros []; simpl; [|apply respects_ret].
    apply respects_bind; [apply R_running | intros _].
    apply respects_bind; [apply R_call; auto | intros _].
    apply R_queue.
Qed.

Lemma respects_Flush_write_batch log_batch :
  respects R (Flush_write_batch env log_batch).
Proof.
  induction log_batch as [|[entry|] rest IH]; simpl.
  - apply respects_ret.
  - apply respects_bind; [apply R_write | intros _; apply IH].
  - apply R_running.
Qed.

Lemma respects_Flush_iteration : respects R (Flush_iteration env).
Proof.
  unfold Flush_iteration.
  apply respects_bind.
  { unfold DequeueBulk. apply respects_bind; [apply respects_gets | intros q].
    apply respects_bind; [apply (R_queue (λ _, [])) | intros _; apply respects_ret]. }
  intros [|o l]; [apply respects_ret|].
  apply respects_bind; [apply respects_Flush_write_batch | intros _].
  apply respects_bind; [apply respects_gets | intros running].
  destruct running; cbn [negb]; [|apply respects_ret].
  apply respects_bind; [apply respects_gets | intros opt].
  apply respects_bind.
  { destruct opt; apply R_call; auto. }
  intros _. apply respects_bind.
  { apply respects_for_each. intros [e|]; simpl; [|apply respects_throw].
    apply respects_bind; [apply respects_gets | intros tr].
    destruct (GetTxn env tr (txn_id_ e)); [|apply respects_ret].
    apply R_call. right; right. exact I. }
  intros _. apply respects_bind.
  { unfold Flush_swap_if_large. apply respects_catch_recoverable.
    apply respects_bind; [apply respects_gets | intros file_size].
    apply respects_bind; [apply respects_gets | intros threshold].
    destruct (threshold <? file_size)%Z; [|apply respects_ret].
    apply respects_bind; [apply respects_gets | intros ts]. apply R_swap. }
  intros _. apply respects_bind; [|intros _; apply respects_ret].
  unfold Flush_checkpoint_if_due.
  apply respects_bind; [apply respects_gets | intros last_ckp_wal_size].
  apply respects_bind; [apply respects_gets | intros wal_size].
  apply respects_bind; [apply respects_gets | intros interval].
  destruct (_ <? _)%Z; [|apply respects_ret].
  apply respects_bind; [apply R_submit | intros _; apply respects_ret].
Qed.

Lemma respects_Flush schedule : respects R (Flush env schedule).
Proof.
  induction schedule as [|[before waiting] schedule IH]; simpl.
  - apply respects_ret.
  - apply respects_bind.
    { apply respects_for_each, respects_run_step. }
    intros _. apply respects_bind; [apply respects_gets | intros running].
    destruct running; cbn [negb]; [|apply respects_ret].
    apply respects_bind.
    { apply respects_for_each, respects_run_step. }
    intros _. apply respects_bind; [apply respects_Flush_iteration|].
    intros [|]; [exact IH | apply respects_ret].
Qed.
End Flush_respects.
End Respects.

(** ** The size of the WAL *)

Lemma written_size_app evs1 evs2 :
  written_size (evs1 ++ evs2) = (written_size evs1 + written_size evs2)%Z.
Proof.
  induction evs1 as [|ev evs1 IH]; simpl; [done|]. destruct ev; rewrite ?IH; lia.
Qed.

Lemma accounted_frame w w' :
  trace_ w' = trace_ w → wal_size_ w' = wal_size_ w → accounted w w'.
Proof.
  intros Ht Hs. exists []. rewrite app_nil_r. simpl. split; [done|]. split; lia.
Qed.

Lemma accounted_refl w : accounted w w.
Proof. by apply accounted_frame. Qed.

Lemma accounted_trans w1 w2 w3 : accounted w1 w2 → accounted w2 w3 → accounted w1 w3.
Proof.
  intros (evs1 & Ht1 & Hs1 & Hp1) (evs2 & Ht2 & Hs2 & Hp2). exists (evs1 ++ evs2).
  rewrite written_size_app, Ht2, Ht1, Hs2, Hs1, <- app_assoc.
  split; [done|]. split; lia.
Qed.

(** A step that leaves [wal_size_] alone and calls something that is not a
    write. *)
Lemma accounted_call w w' ev :
  trace_ w' = trace_ w ++ [ev] → wal_size_ w' = wal_size_ w → ¬ is_write ev →
  accounted w w'.
Proof.
  intros Ht Hs Hw. exists [ev]. split; [done|].
  assert (written_size [ev] = 0%Z) as -> by (destruct ev; simpl in *; first [done | tauto]).
  split; lia.
Qed.

Lemma accounted_Flush_write_entry env entry :
  respects accounted (Flush_write_entry env entry).
Proof.
  intros w. rewrite Flush_write_entry_eq.
  destruct (cmds_ entry); [apply accounted_refl|].
  destruct (_ <? 0)%Z eqn:Hneg; [apply accounted_refl|].
  destruct (_ <? Z.of_nat _)%Z; [apply accounted_refl|].
  destruct (_ =? _)%Z eqn:Heq; simpl; [|apply accounted_refl].
  apply Z.ltb_ge in Hneg. apply Z.eqb_eq in Heq.
  pose proof (to_i32_range (GetSizeInBytes env entry)) as Hr.
  exists [EvOfsWrite (WriteAdv env entry)]. simpl.
  rewrite (to_i32_small (Z.of_nat _)) by lia. split; [done|]. split; lia.
Qed.

Lemma accounted_Flush env schedule : respects accounted (Flush env schedule).
Proof.
  apply respects_Flush.
  - apply accounted_refl.
  - apply accounted_trans.
  - intros b w. by apply accounted_frame.
  - intros f w. by apply accounted_frame.
  - apply accounted_Flush_write_entry.
  - intros ev Hev w. apply (accounted_call _ _ ev); [done|done|].
    destruct Hev as [->|[->|Hev]]; simpl; [tauto|tauto|].
    destruct ev; simpl in *; tauto.
  - intros ts w. apply (accounted_call _ _ (EvSwapWalFile ts)); simpl; [done|done|tauto].
  - intros w. unfold TrySubmitCheckpointTask. run.
    destruct (checkpoint_in_progress_ w); simpl; [apply accounted_refl|].
    apply (accounted_call _ _ (EvSubmit false)); simpl; [done|done|tauto].
Qed.

(** X3.  [wal_size_] is cumulative over a run of the flush thread: whatever
    the producers do and however the run ends, it has grown by exactly the
    [i32] sizes of the buffers the thread wrote to the log, and it never
    decreases; in particular swapping the log file does not reset it. *)
Theorem Flush_wal_size_accounting (env : Env)
    (schedule : list (list ProducerStep * list ProducerStep)) (w : WalManager) :
  ∃ evs,
    trace_ (Flush env schedule w).2 = trace_ w ++ evs ∧
    wal_size_ (Flush env schedule w).2 = (wal_size_ w + written_size evs)%Z ∧
    (wal_size_ w ≤ wal_size_ (Flush env schedule w).2)%Z.
Proof.
  destruct (accounted_Flush env schedule w) as (evs & Ht & Hs & Hp).
  exists evs. split; [done|]. split; [done|]. lia.
Qed.

(** ** One checkpoint at a time *)

Lemma submitted_app evs1 evs2 : submitted (evs1 ++ evs2) = submitted evs1 ++ submitted evs2.
Proof.
  induction evs1 as [|ev evs1 IH]; simpl; [done|]. destruct ev; rewrite ?IH; done.
Qed.

Lemma submissions_counted_frame w w' :
  trace_ w' = trace_ w → checkpoint_in_progress_ w' = checkpoint_in_progress_ w →
  submissions_counted w w'.
Proof.
  intros Ht Hs. exists []. rewrite app_nil_r. simpl. split; [done|].
  unfold checkpoints_under_way. rewrite Hs. split; [lia|done].
Qed.

Lemma submissions_counted_refl w : submissions_counted w w.
Proof. by apply submissions_counted_frame. Qed.

Lemma submissions_counted_trans w1 w2 w3 :
  submissions_counted w1 w2 → submissions_counted w2 w3 → submissions_counted w1 w3.
Proof.
  intros (evs1 & Ht1 & Hs1 & Hp1) (evs2 & Ht2 & Hs2 & Hp2). exists (evs1 ++ evs2).
  rewrite submitted_app, length_app, Ht2, Ht1, Hs2, Hs1, <- app_assoc.
  split; [done|]. split; [lia|]. by apply Forall_app.
Qed.

Lemma submissions_counted_call w w' ev :
  trace_ w' = trace_ w ++ [ev] →
  checkpoint_in_progress_ w' = checkpoint_in_progress_ w →
  submitted [ev] = [] →
  submissions_counted w w'.
Proof.
  intros Ht Hs Hw. exists [ev]. split; [done|]. rewrite Hw.
  unfold checkpoints_under_way. rewrite Hs. simpl. split; [lia|done].
Qed.

Lemma submissions_counted_TrySubmitCheckpointTask :
  respects submissions_counted (TrySubmitCheckpointTask false).
Proof.
  intros w. unfold TrySubmitCheckpointTask. run.
  destruct (checkpoint_in_progress_ w) eqn:E; simpl;
    [apply submissions_counted_refl|].
  exists [EvSubmit false]. unfold checkpoints_under_way. rewrite E. simpl.
  split; [done|]. split; [done|]. by repeat constructor.
Qed.

Lemma submissions_counted_Flush env schedule :
  respects submissions_counted (Flush env schedule).
Proof.
  apply respects_Flush.
  - apply submissions_counted_refl.
  - apply submissions_counted_trans.
  - intros b w. by apply submissions_counted_frame.
  - intros f w. by apply submissions_counted_frame.
  - intros entry w. rewrite Flush_write_entry_eq.
    destruct (cmds_ entry); [apply submissions_counted_refl|].
    destruct (_ <? 0)%Z; [apply submissions_counted_refl|].
    destruct (_ <? _)%Z; [apply submissions_counted_refl|].
    destruct (_ =? _)%Z; simpl; [|apply submissions_counted_refl].
    by apply (submissions_counted_call _ _ (EvOfsWrite (WriteAdv env entry))).
  - intros ev Hev w. apply (submissions_counted_call _ _ ev); [done|done|].
    destruct Hev as [->|[->|Hev]]; [done|done|by destruct ev].
  - intros ts w. by apply (submissions_counted_call _ _ (EvSwapWalFile ts)).
  - apply submissions_counted_TrySubmitCheckpointTask.
Qed.

(** X4.  Between two completions of checkpoint tasks the flush thread
    submits at most one task.  Over a run of the flush thread during which
    no checkpoint task finishes (the schedule holds the steps of the
    producers, [CheckpointInner] is not among them), the tasks it submits
    are delta checkpoints, each submission is counted by
    [checkpoint_in_progress_], and together with a task that was already in
    progress there is at most one of them, however far [wal_size_] runs
    ahead of [last_ckp_wal_size_].  The bound ends with the task:
    [CheckpointInner] clears the flag however it ends, and the run that
    follows it submits again, once more at most one task. *)
Theorem Flush_submits_one_checkpoint (env : Env)
    (schedule schedule' : list (list ProducerStep * list ProducerStep))
    (is_full : bool) (max_commit_ts : TxnTimeStamp) (wal_size : Z)
    (w : WalManager) :
  let w1 := (Flush env schedule w).2 in
  let w2 := (CheckpointInner env is_full max_commit_ts wal_size w1).2 in
  let w3 := (Flush env schedule' w2).2 in
  ∃ evs evs',
    trace_ w1 = trace_ w ++ evs ∧
    checkpoints_under_way w1
    = checkpoints_under_way w + length (submitted evs) ∧
    checkpoints_under_way w + length (submitted evs) ≤ 1 ∧
    Forall (λ is_full_checkpoint, is_full_checkpoint = false) (submitted evs) ∧
    checkpoints_under_way w2 = 0 ∧
    trace_ w3 = trace_ w2 ++ evs' ∧
    checkpoints_under_way w3 = length (submitted evs') ∧
    length (submitted evs') ≤ 1 ∧
    Forall (λ is_full_checkpoint, is_full_checkpoint = false) (submitted evs').
Proof.
  intros w1 w2 w3.
  destruct (submissions_counted_Flush env schedule w) as (evs & Ht & Hs & Hp).
  destruct (submissions_counted_Flush env schedule' w2) as (evs' & Ht' & Hs' & Hp').
  assert (H2 : checkpoints_under_way w2 = 0).
  { unfold checkpoints_under_way, w2, CheckpointInner, with_defer.
    by destruct (bind _ _ w1). }
  exists evs, evs'. fold w1 in Ht, Hs. fold w3 in Ht', Hs'.
  rewrite H2 in Hs'. simpl in Hs'.
  split; [done|]. split; [done|]. split.
  { rewrite <- Hs. unfold checkpoints_under_way.
    destruct (checkpoint_in_progress_ _); lia. }
  split; [done|]. split; [done|]. split; [done|]. split; [done|].
  split; [|done].
  rewrite <- Hs'. unfold checkpoints_under_way.
  destruct (checkpoint_in_progress_ _); lia.
Qed.

(** A run with two submissions: with a checkpoint interval of 10 bytes the
    first pass writes 29 bytes and submits a delta checkpoint; once
    [CheckpointInner] has run, the pass over the next entry submits the
    second one. *)
Example Flush_submits_again_after_checkpoint :
  let w := mkWalManager 1024%Z 10%Z true kFlushAtOnce
             [(Some example_entry1, Some 1%Z)] 9%Z 0%Z 0%Z false 5%Z 3%Z
             example_fs [] in
  let w1 := (Flush example_env [([], [])] w).2 in
  let w2 := (CheckpointInner example_env false 10%Z 29%Z w1).2 in
  let w3 := (Flush example_env [([StepPutEntry example_entry2 2%Z], [])] w2).2 in
  submitted (trace_ w1) = [false] ∧
  checkpoint_in_progress_ w1 = true ∧
  checkpoint_in_progress_ w2 = false ∧
  submitted (trace_ w3) = [false; false] ∧
  checkpoint_in_progress_ w3 = true.
Proof. vm_compute. done. Qed.

(** X5.  [checkpoint_in_progress_] admits one task at a time: a call of
    [TrySubmitCheckpointTask] that follows another one is refused and
    submits nothing, whatever the first one returned; [CheckpointInner]
    clears the flag however it ends (skipped, failed or done), so that the
    next call of [TrySubmitCheckpointTask] submits its task. *)
Theorem checkpoint_single_flight (env : Env) (first second is_full : bool)
    (max_commit_ts : TxnTimeStamp) (wal_size : Z) (w : WalManager) :
  TrySubmitCheckpointTask second (TrySubmitCheckpointTask first w).2
  = (Ok false, (TrySubmitCheckpointTask first w).2) ∧
  checkpoint_in_progress_ (CheckpointInner env is_full max_commit_ts wal_size w).2
  = false ∧
  TrySubmitCheckpointTask first
    (CheckpointInner env is_full max_commit_ts wal_size w).2
  = (Ok true,
     set_trace_
       (trace_ (CheckpointInner env is_full max_commit_ts wal_size w).2
          ++ [EvSubmit first])
       (set_checkpoint_in_progress_ true
          (CheckpointInner env is_full max_commit_ts wal_size w).2)).
Proof.
  assert (Hclear : checkpoint_in_progress_
                     (CheckpointInner env is_full max_commit_ts wal_size w).2 = false).
  { unfold CheckpointInner, with_defer. by destruct (bind _ _ w). }
  split; [|split; [exact Hclear|]].
  - unfold TrySubmitCheckpointTask. run.
    destruct (checkpoint_in_progress_ w) eqn:E; simpl; [by rewrite E | done].
  - unfold TrySubmitCheckpointTask. run. rewrite Hclear. done.
Qed.

(** ** A checkpoint that does not succeed *)

(** X6.  When [txn->Checkpoint] raises a recoverable exception, the handler
    of [CheckpointInner] only logs it and the function goes on as after a
    success: it returns normally, [last_ckp_ts_] becomes the target and the
    rolled log files up to the target are recycled (for a full checkpoint
    also [last_full_ckp_ts_] is set and the obsolete catalog files are
    recycled), although no checkpoint was written: no file of the catalog
    directory is new.  Only [last_ckp_wal_size_] keeps its value. *)
Theorem CheckpointInner_recoverable_failure (env : Env) (is_full : bool)
    (max_commit_ts : TxnTimeStamp) (wal_size : Z) (w : WalManager) (msg : ErrMsg) :
  CheckpointInner_check env is_full max_commit_ts w = (Ok true, w) →
  TxnCheckpoint env (trace_ w) max_commit_ts is_full
  = Throw (RecoverableException msg) →
  ∃ w', CheckpointInner env is_full max_commit_ts wal_size w = (Ok tt, w') ∧
        last_ckp_ts_ w' = max_commit_ts ∧
        last_ckp_wal_size_ w' = last_ckp_wal_size_ w ∧
        rolled_logs (fs_ w')
        = filter (λ f, (max_commit_ts < f.1)%Z) (rolled_logs (fs_ w)) ∧
        (if is_full
         then last_full_ckp_ts_ w' = max_commit_ts ∧
              catalog_files (fs_ w')
              = filter (λ f, ¬ obsolete_catalog_file max_commit_ts f)
                       (catalog_files (fs_ w))
         else last_full_ckp_ts_ w' = last_full_ckp_ts_ w ∧
              catalog_files (fs_ w') = catalog_files (fs_ w)) ∧
        (∀ f, f ∈ catalog_files (fs_ w') → f ∈ catalog_files (fs_ w)).
Proof.
  intros Hcheck Htxn. unfold CheckpointInner, with_defer.
  rewrite (bind_Ok _ _ _ _ _ Hcheck).
  unfold try_catch_recoverable, Txn_Checkpoint, SetLastCkpWalSize,
    RecycleWalFile, RecycleCatalogFile. run.
  rewrite Htxn. simpl.
  destruct is_full; simpl; eexists; (split; [done|]); repeat (split; [done|]).
  - intros f Hf. by apply list_elem_of_filter in Hf as [_ Hf].
  - done.
Qed.

Lemma CheckpointInner_recoverable_failure_witness :
  ∃ w', CheckpointInner
          (example_env_checkpoint (Throw (RecoverableException GetTableFailed)))
          false 10%Z 100%Z example_manager = (Ok tt, w') ∧
        last_ckp_ts_ w' = 10%Z ∧
        last_ckp_wal_size_ w' = 0%Z ∧
        rolled_logs (fs_ w') = [].
Proof.
  destruct (CheckpointInner_recoverable_failure
              (example_env_checkpoint (Throw (RecoverableException GetTableFailed)))
              false 10%Z 100%Z example_manager GetTableFailed)
    as (w' & H & H1 & H2 & H3 & _).
  - vm_compute. reflexivity.
  - reflexivity.
  - exists w'. repeat split; assumption.
Defined.

(** X7.  When [txn->Checkpoint] returns [false], or raises anything but a
    recoverable exception, [CheckpointInner] changes nothing of the
    checkpoint bookkeeping and recycles no file: the manager is as before
    but for the call itself and the cleared [checkpoint_in_progress_]; the
    exception is passed on. *)
Theorem CheckpointInner_declined_or_fatal (env : Env) (is_full : bool)
    (max_commit_ts : TxnTimeStamp) (wal_size : Z) (w : WalManager) :
  CheckpointInner_check env is_full max_commit_ts w = (Ok true, w) →
  let w' := set_checkpoint_in_progress_ false
              (set_trace_ (trace_ w ++ [EvTxnCheckpoint max_commit_ts is_full]) w) in
  (TxnCheckpoint env (trace_ w) max_commit_ts is_full = Ok false →
   CheckpointInner env is_full max_commit_ts wal_size w = (Ok tt, w')) ∧
  (∀ e, TxnCheckpoint env (trace_ w) max_commit_ts is_full = Throw e →
        (∀ msg, e ≠ RecoverableException msg) →
        CheckpointInner env is_full max_commit_ts wal_size w = (Throw e, w')).
Proof.
  intros Hcheck w'. subst w'. split.
  - intros Htxn. unfold CheckpointInner, with_defer.
    rewrite (bind_Ok _ _ _ _ _ Hcheck).
    unfold try_catch_recoverable, Txn_Checkpoint. run. rewrite Htxn. done.
  - intros e Htxn Hne. unfold CheckpointInner, with_defer.
    rewrite (bind_Ok _ _ _ _ _ Hcheck).
    unfold try_catch_recoverable, Txn_Checkpoint. run. rewrite Htxn. simpl.
    destruct e as [m|m| |]; [done|by destruct (Hne m)|done|done].
Qed.

Lemma CheckpointInner_declined_or_fatal_witness :
  CheckpointInner (example_env_checkpoint (Ok false)) false 10%Z 100%Z example_manager
  = (Ok tt,
     set_checkpoint_in_progress_ false
       (set_trace_ (trace_ example_manager ++ [EvTxnCheckpoint 10%Z false])
          example_manager)) ∧
  CheckpointInner
    (example_env_checkpoint (Throw (UnrecoverableException GetTableFailed)))
    false 10%Z 100%Z example_manager
  = (Throw (UnrecoverableException GetTableFailed),
     set_checkpoint_in_progress_ false
       (set_trace_ (trace_ example_manager ++ [EvTxnCheckpoint 10%Z false])
          example_manager)).
Proof.
  split.
  - apply (CheckpointInner_declined_or_fatal
             (example_env_checkpoint (Ok false)) false 10%Z 100%Z example_manager).
    + vm_compute. reflexivity.
    + reflexivity.
  - apply (CheckpointInner_declined_or_fatal
             (example_env_checkpoint (Throw (UnrecoverableException GetTableFailed)))
             false 10%Z 100%Z example_manager).
    + vm_compute. reflexivity.
    + reflexivity.
    + discriminate.
Defined.

(** ** Rotation of the log file *)

Lemma Flush_write_entry_state env entry w :
  flushable env entry →
  Flush_write_entry env entry w
  = (Ok tt,
     set_wal_size_ (wal_size_ w + to_i32 (Z.of_nat (length (WriteAdv env entry))))%Z
       (set_max_commit_ts_ (commit_ts_ entry)
          (set_trace_ (trace_ w ++ [write_of env entry])
             (set_fs_ (mkFileSystem (wal_log (fs_ w) ++ WriteAdv env entry)
                         (rolled_logs (fs_ w)) (catalog_files (fs_ w))) w)))).
Proof.
  intros (Hc & Hpos & Hv). rewrite Flush_write_entry_eq.
  destruct (cmds_ entry); [done|].
  destruct (_ <? 0)%Z eqn:Hneg; [apply Z.ltb_lt in Hneg; lia|].
  unfold size_verified in Hv. rewrite Hv, Z.ltb_irrefl, Z.eqb_refl. done.
Qed.

Lemma Flush_write_batch_fs env entries w :
  Forall (flushable env) entries →
  ∃ w', Flush_write_batch env (map Some entries) w = (Ok tt, w') ∧
        running_ w' = running_ w ∧
        flush_option_ w' = flush_option_ w ∧
        cfg_wal_size_threshold_ w' = cfg_wal_size_threshold_ w ∧
        wal_log (fs_ w') = wal_log (fs_ w) ++ concat (map (WriteAdv env) entries) ∧
        rolled_logs (fs_ w') = rolled_logs (fs_ w) ∧
        catalog_files (fs_ w') = catalog_files (fs_ w) ∧
        max_commit_ts_ w' = default (max_commit_ts_ w) (commit_ts_ <$> last entries).
Proof.
  intros Hall. revert w. induction Hall as [|entry entries Hf _ IH]; intros w; simpl.
  - exists w. rewrite app_nil_r. done.
  - rewrite (bind_Ok _ _ _ _ _ (Flush_write_entry_state env entry w Hf)).
    match goal with |- context [Flush_write_batch _ _ ?w1] =>
      destruct (IH w1) as (w' & H & Hr & Ho & Ht & Hl & Hro & Hc & Hm) end.
    exists w'. split; [done|]. simpl in *.
    rewrite Hr, Ho, Ht, Hl, Hro, Hc, Hm, <- app_assoc.
    repeat (split; [done|]). destruct entries as [|entry' entries]; [done|].
    change (last (entry :: entry' :: entries)) with (last (entry' :: entries)).
    destruct (last (entry' :: entries)) eqn:E; [done|]. by apply last_None in E.
Qed.

Lemma Flush_swap_if_large_fs w :
  ∃ w', Flush_swap_if_large w = (Ok tt, w') ∧
        max_commit_ts_ w' = max_commit_ts_ w ∧
        fs_ w'
        = if (cfg_wal_size_threshold_ w <? Z.of_nat (length (wal_log (fs_ w))))%Z
          then mkFileSystem []
                 ((max_commit_ts_ w, wal_log (fs_ w))
                    :: filter (λ f, f.1 ≠ max_commit_ts_ w) (rolled_logs (fs_ w)))
                 (catalog_files (fs_ w))
          else fs_ w.
Proof.
  unfold Flush_swap_if_large, catch_recoverable, GetFileSizeByPath, SwapWalFile. run.
  destruct (_ <? _)%Z; simpl; eauto.
Qed.

Lemma Flush_checkpoint_if_due_fs w :
  ∃ w', Flush_checkpoint_if_due w = (Ok tt, w') ∧
        max_commit_ts_ w' = max_commit_ts_ w ∧ fs_ w' = fs_ w.
Proof.
  unfold Flush_checkpoint_if_due, GetLastCkpWalSize, TrySubmitCheckpointTask. run.
  destruct (_ <? _)%Z; simpl; [|eauto].
  destruct (checkpoint_in_progress_ w); simpl; eauto.
Qed.

(** X19.  A pass of the flush loop over a batch of well-formed entries ends
    with [max_commit_ts_] equal to the commit timestamp of the last entry
    of the batch.  When the log file is then larger than the threshold, it
    is rotated after the commits: the whole file, with the entries of this
    batch, becomes the rolled log named after that timestamp, and a new
    empty [wal.log] is opened.  Otherwise the batch is appended to the log
    and the rolled logs stay as they are. *)
Theorem Flush_iteration_rotates_log (env : Env) (w : WalManager)
    (entries : list WalEntry) :
  running_ w = true →
  entries ≠ [] →
  map fst (blocking_queue_ w) = map Some entries →
  Forall (flushable env) entries →
  ∃ w',
    Flush_iteration env w = (Ok LoopContinue, w') ∧
    Some (max_commit_ts_ w') = commit_ts_ <$> last entries ∧
    let log := wal_log (fs_ w) ++ concat (map (WriteAdv env) entries) in
    if (cfg_wal_size_threshold_ w <? Z.of_nat (length log))%Z
    then wal_log (fs_ w') = [] ∧
         rolled_logs (fs_ w')
         = (max_commit_ts_ w', log)
             :: filter (λ f, f.1 ≠ max_commit_ts_ w') (rolled_logs (fs_ w))
    else wal_log (fs_ w') = log ∧ rolled_logs (fs_ w') = rolled_logs (fs_ w).
Proof.
  intros Hrun Hne Hq Hall.
  unfold Flush_iteration, DequeueBulk.
  unfold bind at 1. unfold bind at 1. unfold gets at 1.
  unfold bind at 1. unfold modify at 1. unfold mret at 1, M_ret, ret.
  rewrite Hq.
  assert (Hm : ∀ (X : Type) (a b : X),
             match map Some entries with [] => a | _ :: _ => b end = b).
  { intros. destruct entries; done. }
  rewrite Hm.
  destruct (Flush_write_batch_fs env entries (set_blocking_queue_ [] w) Hall)
    as (w2 & Hb & Hrun2 & Hopt2 & Hthr2 & Hlog2 & Hrolled2 & Hcat2 & Hmax2).
  simpl in Hrun2, Hopt2, Hthr2, Hlog2, Hrolled2, Hcat2, Hmax2.
  rewrite (bind_Ok _ _ _ _ _ Hb). unfold bind at 1. unfold gets at 1.
  rewrite Hrun2, Hrun. unfold negb; cbv beta iota.
  unfold bind at 1. unfold gets at 1. unfold bind at 1.
  rewrite Flush_sync_flushes. unfold bind at 1. rewrite Flush_commit_loop.
  match goal with |- context [bind Flush_swap_if_large _ ?w3] =>
    destruct (Flush_swap_if_large_fs w3) as (w4 & H4 & Hmax4 & Hfs4) end.
  rewrite (bind_Ok _ _ _ _ _ H4).
  destruct (Flush_checkpoint_if_due_fs w4) as (w5 & H5 & Hmax5 & Hfs5).
  rewrite (bind_Ok _ _ _ _ _ H5).
  exists w5. split; [done|]. simpl in Hmax4, Hfs4.
  assert (Hlast : Some (max_commit_ts_ w2) = commit_ts_ <$> last entries).
  { rewrite Hmax2. destruct (last entries) eqn:E; [done|].
    by apply last_None in E. }
  rewrite Hmax5, Hmax4. split; [exact Hlast|].
  cbv zeta. rewrite Hfs5, Hfs4, Hthr2, Hlog2, Hrolled2.
  destruct (cfg_wal_size_threshold_ w <? _)%Z; simpl; auto.
Qed.

Lemma Flush_iteration_rotates_log_witness :
  ∃ w',
    Flush_iteration example_env example_manager = (Ok LoopContinue, w') ∧
    Some (max_commit_ts_ w') = Some 11%Z.
Proof.
  destruct (Flush_iteration_rotates_log example_env example_manager
              [example_entry1; example_entry2])
    as (w' & H & Hmax & _).
  - reflexivity.
  - discriminate.
  - reflexivity.
  - exact example_entries_flushable.
  - exists w'. split; [exact H | exact Hmax].
Defined.

(** ** Recovery touches no file *)

Lemma recovered_refl w : recovered w w.
Proof. exists [], (max_commit_ts_ w). rewrite app_nil_r. split; [by destruct w|done]. Qed.

Lemma recovered_trans w1 w2 w3 : recovered w1 w2 → recovered w2 w3 → recovered w1 w3.
Proof.
  intros (evs1 & ts1 & -> & H1) (evs2 & ts2 & -> & H2). exists (evs1 ++ evs2), ts2.
  split; [|by apply Forall_app].
  destruct w1. unfold set_max_commit_ts_, set_trace_. simpl. by rewrite app_assoc.
Qed.

Lemma recovered_emit ev : ¬ is_file_op ev → respects recovered (emit ev).
Proof.
  intros H w. exists [ev], (max_commit_ts_ w).
  split; [by destruct w | by repeat constructor].
Qed.

Lemma recovered_bind {A B} (c : M WalManager A) (k : A → M WalManager B) :
  respects recovered c → (∀ a, respects recovered (k a)) →
  respects recovered (bind c k).
Proof. apply respects_bind, recovered_trans. Qed.

Lemma recovered_gets {A} (f : WalManager → A) : respects recovered (gets f).
Proof. apply respects_gets, recovered_refl. Qed.

Lemma recovered_ret {A} (a : A) : respects recovered (ret a : M WalManager A).
Proof. apply respects_ret, recovered_refl. Qed.

Lemma recovered_throw {A} e : respects recovered (throw e : M WalManager A).
Proof. apply respects_throw, recovered_refl. Qed.

Lemma recovered_for_each {A} (xs : list A) (body : A → M WalManager unit) :
  (∀ x, respects recovered (body x)) → respects recovered (for_each xs body).
Proof. apply respects_for_each; [apply recovered_refl | apply recovered_trans]. Qed.

Lemma recovered_GetTableByName_or_fail env db_name table_name txn_id commit_ts :
  respects recovered (GetTableByName_or_fail env db_name table_name txn_id commit_ts).
Proof.
  unfold GetTableByName_or_fail. apply recovered_bind; [apply recovered_gets|].
  intros tr. destruct (GetTableByName _ _ _ _ _ _);
    [apply recovered_ret | apply recovered_throw].
Qed.

Lemma recovered_ReplayWalCmd env txn_id commit_ts cmd :
  respects recovered (ReplayWalCmd env txn_id commit_ts cmd).
Proof.
  assert (Hother : respects recovered (ReplayOther env cmd txn_id commit_ts)).
  { unfold ReplayOther. apply recovered_bind; [apply recovered_gets | intros tr].
    apply recovered_bind; [apply recovered_emit; simpl; tauto | intros _].
    apply respects_answer, recovered_refl. }
  destruct cmd; simpl; try exact Hother.
  - apply recovered_throw.
  - unfold WalCmdImportReplay.
    apply recovered_bind; [apply recovered_GetTableByName_or_fail | intros t].
    apply recovered_emit; simpl; tauto.
  - apply recovered_ret.
  - unfold WalCmdCompactReplay.
    apply recovered_bind; [apply recovered_GetTableByName_or_fail | intros t].
    apply recovered_bind.
    { apply recovered_for_each. intros info. apply recovered_emit; simpl; tauto. }
    intros _. apply recovered_for_each. intros id. unfold CompactReplay_deprecate.
    apply recovered_bind; [apply recovered_gets | intros tr].
    destruct (GetSegmentByID _ _ _ _ _); [|apply recovered_throw].
    apply recovered_bind; [apply recovered_emit; simpl; tauto | intros _].
    destruct (negb _); [apply recovered_throw|].
    apply recovered_bind; [apply recovered_emit; simpl; tauto | intros _].
    apply recovered_emit; simpl; tauto.
  - apply recovered_throw.
  - apply recovered_throw.
Qed.

Lemma recovered_ReplayWalEntry env entry : respects recovered (ReplayWalEntry env entry).
Proof. apply recovered_for_each. intros cmd. apply recovered_ReplayWalCmd. Qed.

Lemma recovered_Replay_phase3 env max_commit_ts entries system_start_ts last_txn_id :
  respects recovered
    (Replay_phase3 env max_commit_ts entries system_start_ts last_txn_id).
Proof.
  revert system_start_ts last_txn_id.
  induction entries as [|entry rest IH]; intros ts id; simpl.
  - apply recovered_ret.
  - destruct (_ <? _)%Z; [apply recovered_throw|].
    apply recovered_bind; [apply recovered_ReplayWalEntry | intros _; apply IH].
Qed.

Lemma recovered_ReplayWalFile env : respects recovered (ReplayWalFile env).
Proof.
  unfold ReplayWalFile. destruct (Replay_wal_list env) as [|f fs].
  { apply recovered_bind; [apply recovered_emit; simpl; tauto | intros _; apply recovered_ret]. }
  destruct (_ =? 0)%Z; [apply recovered_throw|].
  destruct (ParseValidCheckpointFilenames _ _ _) as [[full deltas]|];
    [|apply recovered_throw].
  apply recovered_bind; [apply recovered_emit; simpl; tauto | intros _].
  apply recovered_bind; [apply recovered_Replay_phase3 | intros [ts id]].
  apply recovered_bind; [apply recovered_emit; simpl; tauto | intros _].
  apply recovered_bind.
  { intros w. exists [], ts. rewrite app_nil_r. split; [by destruct w | done]. }
  intros _. apply recovered_bind; [apply recovered_emit; simpl; tauto | intros _].
  apply recovered_ret.
Qed.

(** X8.  Recovery only reads: however [ReplayWalFile] ends, the manager
    differs from the one before the call in nothing but [max_commit_ts_] and
    the calls made into the storage and the catalog, none of which is an
    operation on the log or catalog files.  The log files, the queue,
    [running_], [wal_size_] and the checkpoint bookkeeping are as before. *)
Theorem ReplayWalFile_touches_no_file (env : Env) (w : WalManager) :
  ∃ evs,
    (ReplayWalFile env w).2
    = set_max_commit_ts_ (max_commit_ts_ (ReplayWalFile env w).2)
        (set_trace_ (trace_ w ++ evs) w) ∧
    Forall (λ ev, ¬ is_file_op ev) evs ∧
    fs_ (ReplayWalFile env w).2 = fs_ w ∧
    blocking_queue_ (ReplayWalFile env w).2 = blocking_queue_ w ∧
    wal_size_ (ReplayWalFile env w).2 = wal_size_ w ∧
    last_ckp_ts_ (ReplayWalFile env w).2 = last_ckp_ts_ w.
Proof.
  destruct (recovered_ReplayWalFile env w) as (evs & ts & H & Hall).
  exists evs. rewrite H. done.
Qed.

(** ** What recovery replays *)

Lemma ReplayWalEntry_cmds env txn_id commit_ts cmds w w' :
  for_each cmds (ReplayWalCmd env txn_id commit_ts) w = (Ok tt, w') →
  Forall (λ cmd, ¬ unreplayable cmd) cmds.
Proof.
  revert w. induction cmds as [|cmd cmds IH]; intros w; simpl; [done|].
  intros H. apply bind_inv in H as [(e & _ & [=])|([] & w1 & H1 & H2)].
  constructor; [|by eapply IH].
  intros Hu. destruct cmd; try done; simpl in H1; discriminate H1.
Qed.

(** Phase 3 that went through: every entry passed the test on its commit
    timestamp and holds no command whose replay raises an error. *)
Lemma Replay_phase3_Ok env max_commit_ts entries system_start_ts last_txn_id w r w' :
  Replay_phase3 env max_commit_ts entries system_start_ts last_txn_id w = (Ok r, w') →
  Forall (λ entry, (max_commit_ts ≤ commit_ts_ entry)%Z ∧
                   Forall (λ cmd, ¬ unreplayable cmd) (cmds_ entry)) entries ∧
  r = match last entries with
      | Some entry => (commit_ts_ entry, txn_id_ entry)
      | None => (system_start_ts, last_txn_id)
      end.
Proof.
  revert system_start_ts last_txn_id w.
  induction entries as [|entry rest IH]; intros ts id w; simpl.
  - intros [= <- <-]. done.
  - destruct (commit_ts_ entry <? max_commit_ts)%Z eqn:Hlt; [done|].
    apply Z.ltb_ge in Hlt.
    intros H. apply bind_inv in H as [(e & _ & [=])|([] & w1 & H1 & H2)].
    apply ReplayWalEntry_cmds in H1. apply IH in H2 as [Hall ->].
    split; [constructor; [split; assumption | assumption]|].
    destruct rest as [|entry' rest]; [reflexivity|].
    change (last (entry :: entry' :: rest)) with (last (entry' :: rest)).
    destruct (last (entry' :: rest)) eqn:E; [done|]. by apply last_None in E.
Qed.

(** [ReplayWalFile] that returned, on a directory with log files. *)
Lemma ReplayWalFile_Ok env w v w' :
  ParseWalFilenames env ≠ (None, []) →
  ReplayWalFile env w = (Ok v, w') →
  let scan := Replay_scan env in
  scan_system_start_ts scan ≠ 0%Z ∧
  ∃ full deltas r w3,
    ParseValidCheckpointFilenames env (scan_catalog_dir scan) (scan_max_commit_ts scan)
    = Some (full, deltas) ∧
    Replay_phase3 env (scan_max_commit_ts scan) (Replay_entries env)
      (scan_system_start_ts scan) 0%Z
      (set_trace_ (trace_ w ++ [EvAttachCatalog full deltas]) w) = (Ok r, w3) ∧
    v = to_i64 r.1 ∧
    w' = set_trace_ (trace_ w3 ++ [EvSetNextTxnId r.2; EvInitDeltaEntry r.1])
           (set_max_commit_ts_ r.1 w3).
Proof.
  intros Hfiles. unfold ReplayWalFile, Replay_entries, Replay_scan.
  destruct (Replay_wal_list env) as [|f fs] eqn:Hl.
  { apply Replay_wal_list_nil in Hl. done. }
  simpl. destruct (_ =? 0)%Z eqn:Hz; [done|]. apply Z.eqb_neq in Hz.
  destruct (ParseValidCheckpointFilenames _ _ _) as [[full deltas]|]; [|done].
  unfold bind at 1. unfold emit at 1, modify at 1.
  intros H. apply bind_inv in H as [(e & _ & [=])|([ts id] & w3 & H3 & H)].
  split; [done|]. exists full, deltas, (ts, id), w3. split; [done|].
  split; [exact H3|]. revert H. run. intros [= <- <-]. split; [done|].
  destruct w3. unfold set_trace_, set_max_commit_ts_. simpl.
  by rewrite <- app_assoc.
Qed.

(** X9.  When [ReplayWalFile] returns on a directory with log files, a
    checkpoint entry was found; every entry of the replay list has a commit
    timestamp that is not below the checkpoint's [max_commit_ts]; the result
    is the commit timestamp of the newest replayed entry (that of the
    checkpoint entry when nothing is replayed) as [i64], which is also the
    new [max_commit_ts_] and the argument of [InitDeltaEntry]; the catalog's
    next transaction id is the id of the newest replayed entry (0 when
    nothing is replayed); and the catalog was attached before any entry was
    replayed. *)
Theorem ReplayWalFile_result (env : Env) (w : WalManager) (v : Z) (w' : WalManager) :
  ParseWalFilenames env ≠ (None, []) →
  ReplayWalFile env w = (Ok v, w') →
  let scan := Replay_scan env in
  let newest := Replay_last (Replay_entries env) (scan_system_start_ts scan) in
  scan_system_start_ts scan ≠ 0%Z ∧
  Forall (λ entry, (scan_max_commit_ts scan ≤ commit_ts_ entry)%Z) (Replay_entries env) ∧
  v = to_i64 newest.1 ∧
  max_commit_ts_ w' = newest.1 ∧
  ∃ full deltas evs,
    ParseValidCheckpointFilenames env (scan_catalog_dir scan) (scan_max_commit_ts scan)
    = Some (full, deltas) ∧
    trace_ w' = trace_ w ++ EvAttachCatalog full deltas :: evs
                  ++ [EvSetNextTxnId newest.2; EvInitDeltaEntry newest.1].
Proof.
  intros Hfiles H.
  destruct (ReplayWalFile_Ok env w v w' Hfiles H)
    as (Hz & full & deltas & r & w3 & Hp & H3 & -> & ->).
  destruct (recovered_Replay_phase3 env (scan_max_commit_ts (Replay_scan env))
              (Replay_entries env) (scan_system_start_ts (Replay_scan env)) 0%Z
              (set_trace_ (trace_ w ++ [EvAttachCatalog full deltas]) w))
    as (evs & ts & Hw3 & _).
  rewrite H3 in Hw3. simpl in Hw3.
  apply Replay_phase3_Ok in H3 as [Hall ->].
  assert (Hlast : Replay_last (Replay_entries env)
                    (scan_system_start_ts (Replay_scan env))
                  = match last (Replay_entries env) with
                    | Some entry => (commit_ts_ entry, txn_id_ entry)
                    | None => (scan_system_start_ts (Replay_scan env), 0%Z)
                    end) by done.
  simpl. rewrite Hlast. split; [done|]. split.
  { eapply Forall_impl; [exact Hall|]. by intros entry [? _]. }
  split; [done|]. split; [done|].
  exists full, deltas, evs. split; [done|].
  rewrite Hw3. simpl. rewrite <- !app_assoc. done.
Qed.

Lemma ReplayWalFile_result_witness :
  11%Z = to_i64 11%Z ∧
  Forall (λ entry, (9 ≤ commit_ts_ entry)%Z) [example_entry1; example_entry2].
Proof.
  destruct (ReplayWalFile_result
              (example_env_replay [example_entry2; example_checkpoint_entry; example_entry1])
              example_manager_idle 11%Z
              (ReplayWalFile
                 (example_env_replay
                    [example_entry2; example_checkpoint_entry; example_entry1])
                 example_manager_idle).2)
    as (_ & Hall & Hv & _).
  - discriminate.
  - vm_compute. reflexivity.
  - split; [exact Hv | exact Hall].
Defined.

(** X10.  A log whose replay list holds an [AlterInfo], a
    [SetSegmentStatusSealed] or an [UpdateSegmentBloomFilterData] command
    cannot be recovered: [ReplayWalFile] ends in an exception, whatever the
    catalog answers. *)
Theorem ReplayWalFile_unreplayable (env : Env) (w : WalManager)
    (entry : WalEntry) (cmd : WalCmd) :
  ParseWalFilenames env ≠ (None, []) →
  entry ∈ Replay_entries env →
  cmd ∈ cmds_ entry →
  unreplayable cmd →
  ∃ e, (ReplayWalFile env w).1 = Throw e.
Proof.
  intros Hfiles Hentry Hcmd Hu.
  destruct (ReplayWalFile env w) as [[v|e] w'] eqn:H; [exfalso | by exists e].
  destruct (ReplayWalFile_Ok env w v w' Hfiles H)
    as (_ & full & deltas & r & w3 & _ & H3 & _).
  apply Replay_phase3_Ok in H3 as [Hall _].
  rewrite Forall_forall in Hall. destruct (Hall entry Hentry) as [_ Hcmds].
  rewrite Forall_forall in Hcmds. exact (Hcmds cmd Hcmd Hu).
Qed.

Lemma ReplayWalFile_unreplayable_witness :
  ∃ e, (ReplayWalFile
          (example_env_replay
             [example_alter_entry; example_checkpoint_entry; example_entry1])
          example_manager_idle).1 = Throw e.
Proof.
  apply (ReplayWalFile_unreplayable
           (example_env_replay
              [example_alter_entry; example_checkpoint_entry; example_entry1])
           example_manager_idle example_alter_entry WalCmdAlterInfo).
  - discriminate.
  - apply list_elem_of_In. vm_compute. auto.
  - apply list_elem_of_In. vm_compute. auto.
  - exact I.
Defined.

(** ** The replay list *)

Lemma Replay_phase1_split env newer c older ckp replay_entries :
  (∀ i entry, newer !! i = Some entry →
              IsCheckPoint env (replay_entries ++ take i newer) entry = None) →
  IsCheckPoint env (replay_entries ++ newer) c = Some ckp →
  Replay_phase1 env (newer ++ c :: older) replay_entries
  = mkReplayScan (ckp_max_commit_ts_ ckp) (parent_path env (ckp_catalog_path_ ckp))
      (commit_ts_ c) (replay_entries ++ newer) older.
Proof.
  revert replay_entries. induction newer as [|entry newer IH]; intros re Hno Hc; simpl.
  - rewrite app_nil_r in Hc |- *. by rewrite Hc.
  - pose proof (Hno 0 entry eq_refl) as H0. simpl in H0. rewrite app_nil_r in H0.
    rewrite H0, IH.
    + by rewrite <- app_assoc.
    + intros i e Hi. rewrite <- app_assoc. exact (Hno (S i) e Hi).
    + by rewrite <- app_assoc.
Qed.

Lemma Replay_phase2_split max_commit_ts iterator replay_entries :
  ∃ kept dropped,
    iterator = kept ++ dropped ∧
    Forall (λ entry, (max_commit_ts < commit_ts_ entry)%Z) kept ∧
    (∀ entry, head dropped = Some entry → (commit_ts_ entry ≤ max_commit_ts)%Z) ∧
    Replay_phase2 max_commit_ts iterator replay_entries = replay_entries ++ kept.
Proof.
  revert replay_entries. induction iterator as [|entry it IH]; intros re; simpl.
  - exists [], []. rewrite !app_nil_r.
    split; [done|]. split; [done|]. split; [|done]. intros e [=].
  - destruct (max_commit_ts <? commit_ts_ entry)%Z eqn:Hlt.
    + apply Z.ltb_lt in Hlt.
      destruct (IH (re ++ [entry])) as (kept & dropped & -> & Hall & Hd & ->).
      exists (entry :: kept), dropped. rewrite <- app_assoc.
      split; [done|]. split; [by constructor|]. split; [exact Hd | done].
    + apply Z.ltb_ge in Hlt. exists [], (entry :: it). rewrite app_nil_r.
      split; [done|]. split; [done|]. split; [|done].
      intros e [= <-]. done.
Qed.

(** X11.  Which entries recovery replays.  Let the log, read from the
    newest entry backwards, be [newer], then the first entry in which
    [IsCheckPoint] finds a checkpoint command, then [older].  The replay
    list is, oldest first: the longest run of entries at the head of
    [older] whose commit timestamps exceed the checkpoint's
    [max_commit_ts], and all of [newer].  The scan of [older] stops at the
    first entry at or below [max_commit_ts]; what lies behind it is not
    replayed, whatever its timestamp. *)
Theorem Replay_entries_selection (env : Env) (newer : list WalEntry) (c : WalEntry)
    (older : list WalEntry) (ckp : WalCmdCheckpoint) :
  WalListIterator env (Replay_wal_list env) = newer ++ c :: older →
  (∀ i entry, newer !! i = Some entry →
              IsCheckPoint env (take i newer) entry = None) →
  IsCheckPoint env newer c = Some ckp →
  scan_max_commit_ts (Replay_scan env) = ckp_max_commit_ts_ ckp ∧
  scan_system_start_ts (Replay_scan env) = commit_ts_ c ∧
  ∃ kept dropped,
    older = kept ++ dropped ∧
    Forall (λ entry, (ckp_max_commit_ts_ ckp < commit_ts_ entry)%Z) kept ∧
    (∀ entry, head dropped = Some entry →
              (commit_ts_ entry ≤ ckp_max_commit_ts_ ckp)%Z) ∧
    Replay_entries env = reverse kept ++ reverse newer.
Proof.
  intros Hit Hno Hc. unfold Replay_entries, Replay_scan.
  rewrite Hit, (Replay_phase1_split env newer c older ckp []); [|done|done].
  simpl. split; [done|]. split; [done|].
  destruct (Replay_phase2_split (ckp_max_commit_ts_ ckp) older newer)
    as (kept & dropped & Hsplit & Hall & Hd & ->).
  exists kept, dropped. by rewrite reverse_app.
Qed.

Lemma Replay_entries_selection_witness :
  ∃ kept dropped,
    [example_entry1] = kept ++ dropped ∧
    Replay_entries
      (example_env_replay [example_entry2; example_checkpoint_entry; example_entry1])
    = reverse kept ++ reverse [example_entry2].
Proof.
  destruct (Replay_entries_selection
              (example_env_replay
                 [example_entry2; example_checkpoint_entry; example_entry1])
              [example_entry2] example_checkpoint_entry [example_entry1]
              (mkWalCmdCheckpoint 9%Z false "catalog/DELTA.9"))
    as (_ & _ & kept & dropped & Hsplit & _ & _ & Heq).
  - reflexivity.
  - intros [|i] entry; [intros [= <-]; reflexivity | discriminate].
  - reflexivity.
  - exists kept, dropped. split; [exact Hsplit | exact Heq].
Defined.

(** ** Replay of a compaction *)

Lemma CompactReplay_deprecate_found env table_entry commit_ts segment_id segment_entry w :
  GetSegmentByID env (trace_ w) table_entry segment_id commit_ts = Some segment_entry →
  CompactReplay_deprecate env table_entry commit_ts segment_id w
  = if TrySetCompacting env (trace_ w) segment_entry
    then (Ok tt, set_trace_ (trace_ w ++ deprecation commit_ts segment_entry) w)
    else (Throw (UnrecoverableException ReplaySegmentShouldBeCompactable),
          set_trace_ (trace_ w ++ [EvTrySetCompacting segment_entry]) w).
Proof.
  intros Hget. unfold CompactReplay_deprecate. run. rewrite Hget. simpl.
  destruct (TrySetCompacting _ _ _); simpl; [|done].
  unfold modify. destruct w. unfold set_trace_. simpl. by rewrite <- !app_assoc.
Qed.

Lemma set_trace_app w evs1 evs2 :
  set_trace_ (trace_ (set_trace_ (trace_ w ++ evs1) w) ++ evs2)
    (set_trace_ (trace_ w ++ evs1) w)
  = set_trace_ (trace_ w ++ evs1 ++ evs2) w.
Proof. destruct w. unfold set_trace_. simpl. by rewrite app_assoc. Qed.

Lemma CompactReplay_deprecate_all env table_entry commit_ts
    (seg : SegmentID → SegmentEntryPtr) ids w :
  (∀ tr id, id ∈ ids → GetSegmentByID env tr table_entry id commit_ts = Some (seg id)) →
  (∀ tr id, id ∈ ids → TrySetCompacting env tr (seg id) = true) →
  for_each ids (CompactReplay_deprecate env table_entry commit_ts) w
  = (Ok tt, set_trace_ (trace_ w ++ flat_map (λ id, deprecation commit_ts (seg id)) ids) w).
Proof.
  revert w. induction ids as [|id ids IH]; intros w Hget Htry; simpl.
  - by rewrite app_nil_r, set_trace_id.
  - unfold bind.
    rewrite (CompactReplay_deprecate_found _ _ _ _ (seg id))
      by apply Hget, list_elem_of_here.
    rewrite Htry by apply list_elem_of_here.
    rewrite IH.
    + by rewrite set_trace_app.
    + intros tr i Hi. apply Hget. by apply list_elem_of_further.
    + intros tr i Hi. apply Htry. by apply list_elem_of_further.
Qed.

(** X12.  Replaying a [Compact] command on a table the catalog finds, whose
    deprecated segments it finds and can set to compacting: the new
    segments are added in the recorded order, and then every deprecated
    segment, in the recorded order, is set to compacting, marked as not to
    be deleted and deprecated at the commit timestamp of the command. *)
Theorem WalCmdCompactReplay_deprecates (env : Env) (db_name table_name : string)
    (new_segment_infos : list WalSegmentInfo.t) (deprecated_segment_ids : list SegmentID)
    (txn_id : TransactionID) (commit_ts : TxnTimeStamp) (table_entry : TableEntryPtr)
    (seg : SegmentID → SegmentEntryPtr) (w : WalManager) :
  GetTableByName env (trace_ w) db_name table_name txn_id commit_ts = Some table_entry →
  (∀ tr id, id ∈ deprecated_segment_ids →
            GetSegmentByID env tr table_entry id commit_ts = Some (seg id)) →
  (∀ tr id, id ∈ deprecated_segment_ids →
            TrySetCompacting env tr (seg id) = true) →
  WalCmdCompactReplay env db_name table_name new_segment_infos deprecated_segment_ids
    txn_id commit_ts w
  = (Ok tt,
     set_trace_
       (trace_ w
          ++ map (λ info, EvAddSegmentReplayWalCompact table_entry
                            (ReplaySegment env table_entry info txn_id commit_ts))
                 new_segment_infos
          ++ flat_map (λ id, deprecation commit_ts (seg id)) deprecated_segment_ids)
       w).
Proof.
  intros Htable Hget Htry. unfold WalCmdCompactReplay.
  unfold bind at 1. rewrite GetTableByName_or_fail_eq, Htable.
  unfold bind at 1. rewrite for_each_emit.
  rewrite (CompactReplay_deprecate_all _ _ _ seg) by done.
  by rewrite set_trace_app.
Qed.

Lemma WalCmdCompactReplay_deprecates_witness :
  WalCmdCompactReplay (example_env_segments 10) "db1" "t" [example_segment_info]
    [2%Z; 3%Z] 7%Z 20%Z example_manager_idle
  = (Ok tt,
     set_trace_
       (trace_ example_manager_idle
          ++ map (λ info, EvAddSegmentReplayWalCompact 1%N
                            (ReplaySegment (example_env_segments 10) 1%N info 7%Z 20%Z))
                 [example_segment_info]
          ++ flat_map (λ id, deprecation 20%Z (Z.to_N id)) [2%Z; 3%Z])
       example_manager_idle).
Proof.
  apply (WalCmdCompactReplay_deprecates (example_env_segments 10) "db1" "t"
           [example_segment_info] [2%Z; 3%Z] 7%Z 20%Z 1%N Z.to_N example_manager_idle).
  - reflexivity.
  - reflexivity.
  - intros tr id Hid. apply list_elem_of_In in Hid.
    destruct Hid as [<-|[<-|[]]]; reflexivity.
Defined.

(** X13.  Replaying a [Compact] command stops with the unrecoverable error
    "segment should be compactable" at the first deprecated segment that
    cannot be set to compacting.  Nothing is undone: the new segments have
    been added and the deprecated segments before it stay deprecated; the
    segments after it are not touched. *)
Theorem WalCmdCompactReplay_not_compactable (env : Env) (db_name table_name : string)
    (new_segment_infos : list WalSegmentInfo.t) (before : list SegmentID)
    (segment_id : SegmentID) (after : list SegmentID)
    (txn_id : TransactionID) (commit_ts : TxnTimeStamp) (table_entry : TableEntryPtr)
    (seg : SegmentID → SegmentEntryPtr) (w : WalManager) :
  GetTableByName env (trace_ w) db_name table_name txn_id commit_ts = Some table_entry →
  (∀ tr id, id ∈ before ++ [segment_id] →
            GetSegmentByID env tr table_entry id commit_ts = Some (seg id)) →
  (∀ tr id, id ∈ before → TrySetCompacting env tr (seg id) = true) →
  (∀ tr, TrySetCompacting env tr (seg segment_id) = false) →
  WalCmdCompactReplay env db_name table_name new_segment_infos
    (before ++ segment_id :: after) txn_id commit_ts w
  = (Throw (UnrecoverableException ReplaySegmentShouldBeCompactable),
     set_trace_
       (trace_ w
          ++ map (λ info, EvAddSegmentReplayWalCompact table_entry
                            (ReplaySegment env table_entry info txn_id commit_ts))
                 new_segment_infos
          ++ flat_map (λ id, deprecation commit_ts (seg id)) before
          ++ [EvTrySetCompacting (seg segment_id)])
       w).
Proof.
  intros Htable Hget Htry Hbad. unfold WalCmdCompactReplay.
  unfold bind at 1. rewrite GetTableByName_or_fail_eq, Htable.
  unfold bind at 1. rewrite for_each_emit.
  assert (Hloop : ∀ w1,
            for_each (before ++ segment_id :: after)
              (CompactReplay_deprecate env table_entry commit_ts) w1
            = (Throw (UnrecoverableException ReplaySegmentShouldBeCompactable),
               set_trace_
                 (trace_ w1 ++ flat_map (λ id, deprecation commit_ts (seg id)) before
                    ++ [EvTrySetCompacting (seg segment_id)]) w1)).
  { clear Htable. induction before as [|id before IH]; intros w1; simpl.
    - unfold bind.
      rewrite (CompactReplay_deprecate_found _ _ _ _ (seg segment_id))
        by apply Hget, list_elem_of_here.
      by rewrite Hbad.
    - unfold bind.
      rewrite (CompactReplay_deprecate_found _ _ _ _ (seg id))
        by apply Hget, list_elem_of_here.
      rewrite Htry by apply list_elem_of_here.
      rewrite IH.
      + by rewrite set_trace_app.
      + intros tr i Hi. apply Hget. by apply list_elem_of_further.
      + intros tr i Hi. apply Htry. by apply list_elem_of_further. }
  rewrite Hloop. by rewrite set_trace_app.
Qed.

Lemma WalCmdCompactReplay_not_compactable_witness :
  WalCmdCompactReplay (example_env_segments 3) "db1" "t" [example_segment_info]
    [2%Z; 3%Z; 1%Z] 7%Z 20%Z example_manager_idle
  = (Throw (UnrecoverableException ReplaySegmentShouldBeCompactable),
     set_trace_
       (trace_ example_manager_idle
          ++ map (λ info, EvAddSegmentReplayWalCompact 1%N
                            (ReplaySegment (example_env_segments 3) 1%N info 7%Z 20%Z))
                 [example_segment_info]
          ++ flat_map (λ id, deprecation 20%Z (Z.to_N id)) [2%Z]
          ++ [EvTrySetCompacting 3%N])
       example_manager_idle).
Proof.
  apply (WalCmdCompactReplay_not_compactable (example_env_segments 3) "db1" "t"
           [example_segment_info] [2%Z] 3%Z [1%Z] 7%Z 20%Z 1%N Z.to_N
           example_manager_idle).
  - reflexivity.
  - reflexivity.
  - intros tr id Hid. apply list_elem_of_In in Hid.
    destruct Hid as [<-|[]]. reflexivity.
  - reflexivity.
Defined.

End WalTheory.

(** * Properties of the column index reader and its cache *)

Module FullTextTheory.
Import FullText.

(** ** [std::map] iteration *)

#[local] Instance key_le_total {V} : Total (@key_le V).
Proof. intros a b. unfold key_le. lia. Qed.

#[local] Instance key_le_trans {V} : Transitive (@key_le V).
Proof. intros a b c. unfold key_le. lia. Qed.

Lemma Map_items_perm {V} (m : gmap Z V) : Map_items m ≡ₚ map_to_list m.
Proof. apply merge_sort_Permutation. Qed.

Lemma Map_items_elem_of {V} (m : gmap Z V) k v :
  (k, v) ∈ Map_items m ↔ m !! k = Some v.
Proof. rewrite Map_items_perm. apply elem_of_map_to_list. Qed.

Lemma StronglySorted_le_lt (l : list Z) :
  StronglySorted Z.le l → NoDup l → StronglySorted Z.lt l.
Proof.
  induction 1 as [|x l Hs IH Hall]; intros Hnd; constructor.
  - apply IH. by apply NoDup_cons in Hnd as [_ ?].
  - apply NoDup_cons in Hnd as [Hx _].
    rewrite Forall_forall in Hall |- *. intros y Hy.
    assert (x ≠ y) by (intros ->; done).
    specialize (Hall y Hy). lia.
Qed.

(** The iteration visits the keys in strictly ascending order. *)
Lemma Map_items_ascending {V} (m : gmap Z V) :
  StronglySorted Z.lt (map fst (Map_items m)).
Proof.
  apply StronglySorted_le_lt.
  - assert (H : StronglySorted key_le (Map_items m))
      by apply (StronglySorted_merge_sort key_le).
    induction H as [|x l Hs IH Hall]; simpl; constructor; [done|].
    apply Forall_map. eapply Forall_impl; [exact Hall|]. done.
  - rewrite Map_items_perm. apply NoDup_fst_map_to_list.
Qed.

(** ** [ColumnIndexReader::Open] *)

Import ColumnIndexReader.

Lemma Open_disk_readers_ok flag i names row_ids o :
  i + length names ≤ length row_ids →
  ∃ o', Open_disk_readers flag i names row_ids o = (Ok tt, o') ∧
        base_names_ o' = base_names_ o ∧
        base_row_ids_ o' = base_row_ids_ o.
Proof.
  revert i o. induction names as [|name names IH]; intros i o Hlen; simpl.
  - eauto.
  - simpl in Hlen. destruct (lookup_lt_is_Some_2 row_ids i ltac:(lia)) as [rid Hrid].
    rewrite Hrid. unfold push_segment_reader. run.
    destruct (IH (S i) (mk (flag_ o)
                (segment_readers_ o
                   ++ [DiskIndexSegmentReader (index_dir_ o) name rid flag])
                (index_by_segment_ o) (index_dir_ o) (base_names_ o)
                (base_row_ids_ o)) ltac:(lia)) as (o' & H & Hn & Hr).
    exists o'. done.
Qed.

Lemma Open_segment_ok flag e o :
  snapshot_well_formed e →
  ∃ o', Open_segment flag e o = (Ok tt, o') ∧
        base_names_ o' = base_names_ o ++ segment_base_names e ∧
        base_row_ids_ o' = base_row_ids_ o ++ segment_base_row_ids e.
Proof.
  intros Hwf. unfold Open_segment.
  destruct (Open_disk_readers_ok flag 0 (base_names e) (base_row_ids e) o)
    as (o1 & H1 & Hn & Hr).
  { unfold snapshot_well_formed in Hwf. lia. }
  rewrite (bind_Ok _ _ _ _ _ H1).
  unfold segment_base_names, segment_base_row_ids, active_indexer,
    append_base_names, append_base_row_ids, push_segment_reader.
  destruct (memory_indexer e) as [indexer|]; run.
  - destruct (GetDocCount indexer =? 0)%Z; simpl; eexists; (split; [done|]);
      simpl; rewrite Hn, Hr, <- ?app_assoc, ?app_nil_r; done.
  - eexists; (split; [done|]); simpl; rewrite Hn, Hr, ?app_nil_r; done.
Qed.

Lemma Open_segments_ok flag (items : list (Z * SegmentIndexEntry)) o :
  Forall (λ kv, snapshot_well_formed kv.2) items →
  ∃ o', for_each items (λ kv, Open_segment flag kv.2) o = (Ok tt, o') ∧
        base_names_ o' = base_names_ o ++ flat_map (λ kv, segment_base_names kv.2) items ∧
        base_row_ids_ o'
        = base_row_ids_ o ++ flat_map (λ kv, segment_base_row_ids kv.2) items.
Proof.
  intros Hall. revert o. induction Hall as [|kv items Hwf _ IH]; intros o; simpl.
  - exists o. rewrite !app_nil_r. done.
  - destruct (Open_segment_ok flag kv.2 o Hwf) as (o1 & H1 & Hn1 & Hr1).
    rewrite (bind_Ok _ _ _ _ _ H1).
    destruct (IH o1) as (o' & H & Hn & Hr). exists o'.
    rewrite Hn, Hr, Hn1, Hr1, <- !app_assoc. done.
Qed.

Lemma segment_base_lengths e :
  snapshot_well_formed e →
  length (segment_base_row_ids e) = length (segment_base_names e).
Proof.
  unfold snapshot_well_formed, segment_base_row_ids, segment_base_names.
  intros H. rewrite !length_app, H. by destruct (active_indexer e).
Qed.

Lemma Open_appends INVALID_ROWID flag index_dir (m : gmap Z SegmentIndexEntry) o :
  map_Forall (λ _ e, snapshot_well_formed e) m →
  ∃ r, Open INVALID_ROWID flag index_dir m o = (Ok tt, r) ∧
       base_names_ r
       = base_names_ o ++ flat_map (λ kv, segment_base_names kv.2) (Map_items m) ∧
       base_row_ids_ r
       = base_row_ids_ o
           ++ flat_map (λ kv, segment_base_row_ids kv.2) (Map_items m)
           ++ [INVALID_ROWID].
Proof.
  intros Hwf. unfold Open.
  unfold bind at 1. unfold modify at 1.
  match goal with |- context [bind (for_each _ _) _ ?o1] =>
    destruct (Open_segments_ok flag (Map_items m) o1) as (o2 & H1 & Hn & Hr) end.
  { apply Forall_forall. intros [k e] Hin. apply Map_items_elem_of in Hin.
    exact (Hwf k e Hin). }
  rewrite (bind_Ok _ _ _ _ _ H1). unfold append_base_row_ids. run.
  eexists. split; [done|]. simpl. rewrite Hn, Hr, <- app_assoc. done.
Qed.

(** C10.  [Open] on a reader whose two vectors have the same length (a
    freshly constructed reader has them empty), for a segment map whose
    snapshots are well formed (as many base row ids as base names),
    succeeds, and then [base_row_ids_] has exactly one element more than
    [base_names_], its last element is [INVALID_ROWID], and the elements
    added before it are the base row ids of the segments in strictly
    ascending segment-id order (for each segment its disk bases, then the
    base of its in-memory indexer when that one has documents).  For the
    empty map and a fresh reader, [base_row_ids_] is [[INVALID_ROWID]] and
    [base_names_] is empty. *)
Theorem Open_base_row_ids_sentinel (INVALID_ROWID : RowID) (flag : Z)
    (index_dir : string) (m : gmap Z SegmentIndexEntry) (o : ColumnIndexReader.t) :
  map_Forall (λ _ e, snapshot_well_formed e) m →
  length (base_row_ids_ o) = length (base_names_ o) →
  ∃ r, Open INVALID_ROWID flag index_dir m o = (Ok tt, r) ∧
       length (base_row_ids_ r) = S (length (base_names_ r)) ∧
       last (base_row_ids_ r) = Some INVALID_ROWID ∧
       base_row_ids_ r
       = base_row_ids_ o
           ++ flat_map (λ kv, segment_base_row_ids kv.2) (Map_items m)
           ++ [INVALID_ROWID] ∧
       StronglySorted Z.lt (map fst (Map_items m)) ∧
       (∀ k e, (k, e) ∈ Map_items m ↔ m !! k = Some e) ∧
       (m = ∅ → o = new → base_row_ids_ r = [INVALID_ROWID] ∧ base_names_ r = []).
Proof.
  intros Hwf Hlen0.
  destruct (Open_appends INVALID_ROWID flag index_dir m o Hwf) as (r & H & Hn & Hr).
  exists r. split; [done|]. split; [|split; [|split; [done|split; [|split]]]].
  - rewrite Hr, Hn, !length_app. simpl.
    assert (Hlen : ∀ items : list (Z * SegmentIndexEntry),
              Forall (λ kv, snapshot_well_formed kv.2) items →
              length (flat_map (λ kv, segment_base_row_ids kv.2) items)
              = length (flat_map (λ kv, segment_base_names kv.2) items)).
    { induction 1 as [|kv items Hkv _ IH]; simpl; [done|].
      rewrite !length_app, IH, segment_base_lengths by done. done. }
    rewrite Hlen; [lia|].
    apply Forall_forall. intros [k e] Hin. apply Map_items_elem_of in Hin.
    exact (Hwf k e Hin).
  - rewrite Hr, app_assoc. apply last_snoc.
  - apply Map_items_ascending.
  - intros k e. apply Map_items_elem_of.
  - intros -> ->. rewrite Hr, Hn. unfold Map_items.
    rewrite map_to_list_empty. done.
Qed.

(** ** [TableIndexReaderCache::GetIndexReader] *)

Import TableIndexReaderCache.

Lemma store_analyzer_inv p k v st r st' :
  store_analyzer p k v st = (r, st') →
  (r = Throw InvalidAccess ∧ st' = st ∧ analyzer_maps (heap st) !! p = None) ∨
  (∃ m, r = Ok tt ∧ analyzer_maps (heap st) !! p = Some m ∧
        st' = set_heap (mkHeap (column_reader_maps (heap st))
                               (<[p := <[k := v]> m]> (analyzer_maps (heap st)))
                               (column_index_readers (heap st))
                               (memory_pools (heap st))) st).
Proof.
  unfold store_analyzer. run.
  destruct (analyzer_maps (heap st) !! p) as [m|]; intros [= <- <-]; eauto.
Qed.

Lemma store_column_reader_inv p k v st r st' :
  store_column_reader p k v st = (r, st') →
  (r = Throw InvalidAccess ∧ st' = st ∧ column_reader_maps (heap st) !! p = None) ∨
  (∃ m, r = Ok tt ∧ column_reader_maps (heap st) !! p = Some m ∧
        st' = set_heap (mkHeap (<[p := <[k := v]> m]> (column_reader_maps (heap st)))
                               (analyzer_maps (heap st))
                               (column_index_readers (heap st))
                               (memory_pools (heap st))) st).
Proof.
  unfold store_column_reader. run.
  destruct (column_reader_maps (heap st) !! p) as [m|]; intros [= <- <-]; eauto.
Qed.

Lemma cached_column_reader_at_state k st r st' :
  cached_column_reader_at k st = (r, st') → st' = st.
Proof.
  unfold cached_column_reader_at. run.
  destruct (cache_column_readers_ (cache st)) as [p|]; [|by intros [= <- <-]].
  destruct (column_reader_maps (heap st) !! p) as [m|]; [|by intros [= <- <-]].
  destruct (m !! k); by intros [= <- <-].
Qed.

Lemma cached_column_reader_at_ok k st p m reader :
  cache_column_readers_ (cache st) = Some p →
  column_reader_maps (heap st) !! p = Some m →
  m !! k = Some reader →
  cached_column_reader_at k st = (Ok reader, st).
Proof.
  intros Hp Hm Hk. unfold cached_column_reader_at. run. by rewrite Hp, Hm, Hk.
Qed.

Lemma new_column_index_reader_inv INVALID_ROWID flag dir m st r st' :
  new_column_index_reader INVALID_ROWID flag dir m st = (r, st') →
  (∃ e, r = Throw e ∧ st' = st) ∨
  (∃ a reader, r = Ok a ∧
     st' = set_heap (mkHeap (column_reader_maps (heap st)) (analyzer_maps (heap st))
                            (<[a := reader]> (column_index_readers (heap st)))
                            (memory_pools (heap st))) st).
Proof.
  unfold new_column_index_reader.
  destruct (Open _ _ _ _ _) as [[[]|e] reader]; run; intros [= <- <-]; eauto.
Qed.

Lemma new_column_index_reader_ok INVALID_ROWID flag dir m st :
  map_Forall (λ _ e, snapshot_well_formed e) m →
  ∃ a st', new_column_index_reader INVALID_ROWID flag dir m st = (Ok a, st').
Proof.
  intros Hwf. unfold new_column_index_reader.
  destruct (Open_appends INVALID_ROWID flag dir m ColumnIndexReader.new Hwf)
    as (reader & -> & _).
  run. eauto.
Qed.

(** The loop body keeps the invariant of the slow path. *)
Lemma GetIndexReader_index_inv INVALID_ROWID txn_id begin_ts table readers analyzers
    meta st0 local st local' st' :
  build_inv st0 readers analyzers local st →
  GetIndexReader_index INVALID_ROWID txn_id begin_ts table readers analyzers
    meta local st = (Ok local', st') →
  build_inv st0 readers analyzers local' st'.
Proof.
  intros (Hc & Hpos & (m & Hm & Hhas) & Han & Hfr & Hfa).
  unfold GetIndexReader_index.
  destruct (GetEntryNolock meta txn_id begin_ts) as [e|]; [|by inversion 1].
  destruct (negb _).
  { intros [= <- <-]. unfold build_inv. eauto 10. }
  set (column_id := GetColumnIdByName table (column_name (index_base e))).
  set (ts := GetFulltexSegmentUpdateTs e).
  assert (Htarget : (0 ≤ default 0 (local !! column_id))%Z).
  { destruct (local !! column_id) as [t0|] eqn:Hl; simpl; [eauto|lia]. }
  destruct (default 0%Z (local !! column_id) <? ts)%Z eqn:Hlt.
  - apply Z.ltb_lt in Hlt. intros H.
    apply bind_inv in H as [(? & _ & ?)|([] & st1 & H1 & H)]; [done|].
    apply store_analyzer_inv in H1 as [(? & _)|(ma & _ & Hma & ->)]; [done|].
    unfold bind at 1, gets at 1 in H.
    apply bind_inv in H as [(? & _ & ?)|(reader & st2 & H2 & H)]; [done|].
    assert (cache st2 = cache st0 ∧
            column_reader_maps (heap st2) = column_reader_maps (heap st) ∧
            analyzer_maps (heap st2)
            = <[analyzers := <[column_name (index_base e) := analyzer_ (index_base e)]> ma]>
                (analyzer_maps (heap st))) as (Hc2 & Hr2 & Ha2).
    { simpl in H2. destruct (bool_decide _).
      - apply cached_column_reader_at_state in H2 as ->. done.
      - apply new_column_index_reader_inv in H2
          as [(? & ? & _)|(a & rd & _ & ->)]; done. }
    apply bind_inv in H as [(? & _ & ?)|([] & st3 & H3 & H)]; [done|].
    apply store_column_reader_inv in H3 as [(? & _)|(m3 & _ & Hm3 & ->)]; [done|].
    revert H. run. intros [= <- <-]. unfold build_inv. simpl.
    rewrite Hr2 in Hm3 |- *. rewrite Ha2. rewrite Hm in Hm3. injection Hm3 as <-.
    clear H2.
    split; [done|]. split; [|split; [|split; [|split]]].
    + intros c t0. destruct (decide (column_id = c)) as [<-|Hne].
      * rewrite lookup_insert_eq. intros [= <-]. lia.
      * rewrite lookup_insert_ne by done. apply Hpos.
    + eexists. rewrite lookup_insert_eq. split; [done|].
      intros c t0. destruct (decide (column_id = c)) as [<-|Hne].
      * rewrite !lookup_insert_eq. eauto.
      * rewrite !lookup_insert_ne by done. apply Hhas.
    + rewrite lookup_insert_eq. eauto.
    + intros p Hp. rewrite lookup_insert_ne by done. by apply Hfr.
    + intros p Hp. rewrite lookup_insert_ne by done. by apply Hfa.
  - apply Z.ltb_ge in Hlt. intros [= <- <-]. unfold build_inv.
    split; [done|]. split; [|split; [|done]].
    + intros c t0. destruct (decide (column_id = c)) as [<-|Hne].
      * rewrite lookup_insert_eq. intros [= <-]. done.
      * rewrite lookup_insert_ne by done. apply Hpos.
    + exists m. split; [done|]. intros c t0.
      destruct (decide (column_id = c)) as [<-|Hne].
      * rewrite lookup_insert_eq. intros [= <-] Ht.
        destruct (local !! column_id) as [t1|] eqn:Hl; simpl in Ht; [|lia].
        eapply Hhas; eauto.
      * rewrite lookup_insert_ne by done. apply Hhas.
Qed.

Lemma GetIndexReader_build_inv INVALID_ROWID txn_id begin_ts table readers analyzers
    metas st0 local st local' st' :
  build_inv st0 readers analyzers local st →
  GetIndexReader_build INVALID_ROWID txn_id begin_ts table readers analyzers
    metas local st = (Ok local', st') →
  build_inv st0 readers analyzers local' st'.
Proof.
  revert local st. induction metas as [|[name meta] metas IH]; intros local st Hinv; simpl.
  - by intros [= <- <-].
  - intros H. apply bind_inv in H as [(? & _ & ?)|(local1 & st1 & H1 & H)]; [done|].
    eapply IH; [|exact H]. eapply GetIndexReader_index_inv; eauto.
Qed.

Lemma new_column_index_reader_fresh INVALID_ROWID flag dir m st a st' :
  new_column_index_reader INVALID_ROWID flag dir m st = (Ok a, st') →
  (a ∉ dom (column_index_readers (heap st))) ∧
  ∃ o, ColumnIndexReader.Open INVALID_ROWID flag dir m ColumnIndexReader.new
       = (Ok tt, o) ∧
       st' = set_heap (mkHeap (column_reader_maps (heap st)) (analyzer_maps (heap st))
                              (<[a := o]> (column_index_readers (heap st)))
                              (memory_pools (heap st))) st.
Proof.
  unfold new_column_index_reader.
  destruct (ColumnIndexReader.Open _ _ _ _ _) as [[[]|e] reader]; run;
    intros [= <- <-].
  split; [apply is_fresh | eauto].
Qed.

(** The cached reader of a column is the same in every state that has the
    cache and the cached reader map of [st0]. *)
Lemma cached_column_reader_at_frame k st0 st reader st' :
  cache st = cache st0 →
  (∀ p, cache_column_readers_ (cache st0) = Some p →
        column_reader_maps (heap st) !! p = column_reader_maps (heap st0) !! p) →
  cached_column_reader_at k st = (Ok reader, st') →
  cached_column_reader_at k st0 = (Ok reader, st0).
Proof.
  intros Hc Hf. unfold cached_column_reader_at. run. rewrite Hc.
  destruct (cache_column_readers_ (cache st0)) as [p|] eqn:Hp; [|done].
  rewrite (Hf p eq_refl).
  destruct (column_reader_maps (heap st0) !! p) as [m|]; [|done].
  destruct (m !! k); [|done]. by intros [= <- <-].
Qed.

Lemma fulltext_index_of_app txn_id begin_ts metas nm e :
  fulltext_index_of txn_id begin_ts (metas ++ [nm]) e
  ↔ fulltext_index_of txn_id begin_ts metas e ∨
    (index_type_ (index_base e) = kFullText ∧
     GetEntryNolock nm.2 txn_id begin_ts = Some e).
Proof.
  unfold fulltext_index_of. split.
  - intros (Hft & nm' & Hin & He). apply elem_of_app in Hin as [Hin|Hin].
    + left. eauto.
    + apply list_elem_of_singleton in Hin as ->. right. done.
  - intros [(Hft & nm' & Hin & He)|(Hft & He)].
    + split; [done|]. exists nm'. split; [|done]. apply elem_of_app. by left.
    + split; [done|]. exists nm. split; [|done]. apply elem_of_app. right.
      by apply list_elem_of_singleton.
Qed.

Lemma reader_built_for_mono INVALID_ROWID table st0 st st' e reader :
  (∀ a o, column_index_readers (heap st) !! a = Some o →
          column_index_readers (heap st') !! a = Some o) →
  reader_built_for INVALID_ROWID table st0 st e reader →
  reader_built_for INVALID_ROWID table st0 st' e reader.
Proof.
  intros Hmono. unfold reader_built_for. case_decide; [done|].
  intros (Hfresh & o & Hopen & Ho). split; [done|]. exists o. split; [done|].
  by apply Hmono.
Qed.

(** The loop body extends what has been built by the index it visits. *)
Lemma GetIndexReader_index_built INVALID_ROWID txn_id begin_ts table readers analyzers
    name meta processed st0 local st local' st' :
  cache_allocated st0 →
  readers ∉ dom (column_reader_maps (heap st0)) →
  build_inv st0 readers analyzers local st →
  built_from INVALID_ROWID txn_id begin_ts table processed st0 readers analyzers
    local st →
  GetIndexReader_index INVALID_ROWID txn_id begin_ts table readers analyzers
    meta local st = (Ok local', st') →
  built_from INVALID_ROWID txn_id begin_ts table (processed ++ [(name, meta)]) st0
    readers analyzers local' st'.
Proof.
  intros Halloc Hfresh Hinv (m & an & Hm & Han & Hcov & Hrd & Hana & Hmono) H.
  pose proof (GetIndexReader_index_inv _ _ _ _ _ _ _ _ _ _ _ _ Hinv H) as Hinv'.
  destruct Hinv as (Hc & Hpos & _ & _ & Hfr & Hfa).
  destruct Hinv' as (_ & _ & (m' & Hm' & Hhas') & _ & _ & _).
  revert H. unfold GetIndexReader_index.
  destruct (GetEntryNolock meta txn_id begin_ts) as [e0|] eqn:He0; [|by inversion 1].
  destruct (bool_decide (index_type_ (index_base e0) = kFullText)) eqn:Hft; simpl.
  2: { apply bool_decide_eq_false in Hft. intros [= <- <-].
       exists m, an. split; [done|]. split; [done|].
       split; [|split; [|split; [|done]]].
       - intros e He. apply fulltext_index_of_app in He as [He|(Hk & He)].
         + by apply Hcov.
         + simpl in He. rewrite He0 in He. injection He as <-. done.
       - intros c rd Hc0. destruct (Hrd c rd Hc0) as (e & He & Hrest).
         exists e. split; [|done]. apply fulltext_index_of_app. by left.
       - intros nm a Ha. destruct (Hana nm a Ha) as (e & He & Hrest).
         exists e. split; [|done]. apply fulltext_index_of_app. by left. }
  apply bool_decide_eq_true in Hft.
  assert (He0' : fulltext_index_of txn_id begin_ts (processed ++ [(name, meta)]) e0).
  { apply fulltext_index_of_app. right. done. }
  fold (column_of table e0).
  set (column_id := column_of table e0).
  set (ts := GetFulltexSegmentUpdateTs e0).
  destruct (default 0%Z (local !! column_id) <? ts)%Z eqn:Hlt.
  - apply Z.ltb_lt in Hlt. intros H.
    apply bind_inv in H as [(? & _ & ?)|([] & st1 & H1 & H)]; [done|].
    apply store_analyzer_inv in H1 as [(? & _)|(ma & _ & Hma & ->)]; [done|].
    rewrite Han in Hma. injection Hma as <-.
    unfold bind at 1, gets at 1 in H.
    apply bind_inv in H as [(? & _ & ?)|(reader & st2 & H2 & H)]; [done|].
    apply bind_inv in H as [(? & _ & ?)|([] & st3 & H3 & H)]; [done|].
    apply store_column_reader_inv in H3 as [(? & _)|(m3 & _ & Hm3 & ->)]; [done|].
    revert H. run. intros [= <- <-].
    simpl in H2. rewrite Hc in H2.
    match type of H2 with _ ?s = _ => set (st1 := s) in * end.
    assert (H12 : column_reader_maps (heap st2) = column_reader_maps (heap st) ∧
                  analyzer_maps (heap st2) = analyzer_maps (heap st1) ∧
                  (∀ a o, column_index_readers (heap st) !! a = Some o →
                          column_index_readers (heap st2) !! a = Some o) ∧
                  reader_built_for INVALID_ROWID table st0 st2 e0 reader).
    { unfold reader_built_for. fold column_id ts.
      destruct (bool_decide _) eqn:Hb.
      - apply bool_decide_eq_true in Hb.
        pose proof (cached_column_reader_at_state _ _ _ _ H2) as ->.
        split; [done|]. split; [done|]. split; [done|].
        rewrite decide_True by done.
        apply (cached_column_reader_at_frame _ _ st1 _ st1); [done| |done].
        intros p Hp. simpl. apply Hfr. intros ->.
        apply Hfresh, Halloc, Hp.
      - apply bool_decide_eq_false in Hb.
        apply new_column_index_reader_fresh in H2 as (Ha & o & Hopen & ->). simpl in *.
        split; [done|]. split; [done|]. split.
        + intros a o' Ho'. rewrite lookup_insert_ne; [done|].
          intros <-. apply Ha, elem_of_dom. eauto.
        + rewrite decide_False by done. split.
          * intros Hin. apply elem_of_dom in Hin as [o' Ho'].
            apply Ha, elem_of_dom. eauto.
          * exists o. split; [done|]. by rewrite lookup_insert_eq. }
    destruct H12 as (Hr2 & Ha2 & Hmono2 & Hbuilt).
    rewrite Hr2, Hm in Hm3. injection Hm3 as <-.
    simpl in Hm'. rewrite Hr2, lookup_insert_eq in Hm'. injection Hm' as <-.
    exists (<[column_id := reader]> m),
           (<[column_name (index_base e0) := analyzer_ (index_base e0)]> an).
    simpl. rewrite Hr2, Ha2. simpl. rewrite !lookup_insert_eq.
    split; [done|]. split; [done|].
    assert (Hmono3 : ∀ a o, column_index_readers (heap st) !! a = Some o →
                            column_index_readers (heap st2) !! a = Some o) by done.
    split; [|split; [|split]].
    + intros e He Hpos_e. apply fulltext_index_of_app in He as [He|(Hk & He)].
      * destruct (Hcov e He Hpos_e) as (t & Hl & Hle & Hs).
        destruct (decide (column_id = column_of table e)) as [Heq|Hne].
        -- rewrite <- Heq in *. exists ts. rewrite !lookup_insert_eq.
           rewrite Hl in Hlt. simpl in Hlt. split; [done|]. split; [lia|eauto].
        -- exists t. rewrite !lookup_insert_ne by done. done.
      * simpl in He. rewrite He0 in He. injection He as <-. fold column_id ts.
        exists ts. rewrite !lookup_insert_eq. split; [done|]. split; [lia|eauto].
    + intros c rd Hc0. destruct (decide (column_id = c)) as [<-|Hne].
      * rewrite lookup_insert_eq in Hc0. injection Hc0 as <-.
        exists e0. rewrite !lookup_insert_eq. done.
      * rewrite lookup_insert_ne in Hc0 by done.
        destruct (Hrd c rd Hc0) as (e & He & Hcol & Hl & Han_e & Hb).
        exists e. split; [apply fulltext_index_of_app; by left|].
        split; [done|]. rewrite lookup_insert_ne by done. split; [done|].
        split.
        -- rewrite lookup_insert_ne; [done|]. intros Hname. apply Hne.
           rewrite <- Hcol. unfold column_id, column_of. by rewrite Hname.
        -- eapply reader_built_for_mono; [|exact Hb]. done.
    + intros nm a Ha. destruct (decide (column_name (index_base e0) = nm)) as [<-|Hne].
      * rewrite lookup_insert_eq in Ha. injection Ha as <-. exists e0. done.
      * rewrite lookup_insert_ne in Ha by done.
        destruct (Hana nm a Ha) as (e & He & Hrest).
        exists e. split; [|done]. apply fulltext_index_of_app. by left.
    + intros a o Ho. apply Hmono2, Hmono, Ho.
  - apply Z.ltb_ge in Hlt. intros [= <- <-].
    rewrite Hm in Hm'. injection Hm' as <-.
    exists m, an. split; [done|]. split; [done|].
    split; [|split; [|split; [|done]]].
    + intros e He Hpos_e. apply fulltext_index_of_app in He as [He|(Hk & He)].
      * destruct (Hcov e He Hpos_e) as (t & Hl & Hle & Hs).
        destruct (decide (column_id = column_of table e)) as [Heq|Hne].
        -- rewrite <- Heq in *. exists t. rewrite lookup_insert_eq, Hl. done.
        -- exists t. rewrite lookup_insert_ne by done. done.
      * simpl in He. rewrite He0 in He. injection He as <-. fold column_id ts.
        fold ts in Hpos_e.
        exists (default 0%Z (local !! column_id)). rewrite lookup_insert_eq.
        split; [done|]. split; [done|].
        apply (Hhas' column_id (default 0%Z (local !! column_id)));
          [by rewrite lookup_insert_eq | lia].
    + intros c rd Hc0. destruct (Hrd c rd Hc0) as (e & He & Hcol & Hl & Han_e & Hb).
      exists e. split; [apply fulltext_index_of_app; by left|].
      split; [done|]. split; [|done].
      destruct (decide (column_id = c)) as [<-|Hne].
      * rewrite lookup_insert_eq. unfold TxnTimeStamp in *. by rewrite Hl.
      * rewrite lookup_insert_ne by done. done.
    + intros nm a Ha. destruct (Hana nm a Ha) as (e & He & Hrest).
      exists e. split; [|done]. apply fulltext_index_of_app. by left.
Qed.


Lemma GetIndexReader_build_built INVALID_ROWID txn_id begin_ts table readers analyzers
    metas processed st0 local st local' st' :
  cache_allocated st0 →
  readers ∉ dom (column_reader_maps (heap st0)) →
  build_inv st0 readers analyzers local st →
  built_from INVALID_ROWID txn_id begin_ts table processed st0 readers analyzers
    local st →
  GetIndexReader_build INVALID_ROWID txn_id begin_ts table readers analyzers
    metas local st = (Ok local', st') →
  built_from INVALID_ROWID txn_id begin_ts table (processed ++ metas) st0
    readers analyzers local' st'.
Proof.
  intros Halloc Hfresh. revert processed local st.
  induction metas as [|[name meta] metas IH]; intros processed local st Hinv Hb; simpl.
  - intros [= <- <-]. by rewrite app_nil_r.
  - intros H. apply bind_inv in H as [(? & _ & ?)|(local1 & st1 & H1 & H)]; [done|].
    rewrite cons_middle, app_assoc. eapply IH; [| |exact H].
    + eapply GetIndexReader_index_inv; eauto.
    + eapply GetIndexReader_index_built; eauto.
Qed.

Lemma store_analyzer_ok p k v st m :
  analyzer_maps (heap st) !! p = Some m →
  store_analyzer p k v st
  = (Ok tt, set_heap (mkHeap (column_reader_maps (heap st))
                             (<[p := <[k := v]> m]> (analyzer_maps (heap st)))
                             (column_index_readers (heap st))
                             (memory_pools (heap st))) st).
Proof. intros H. unfold store_analyzer. run. by rewrite H. Qed.

Lemma store_column_reader_ok p k v st m :
  column_reader_maps (heap st) !! p = Some m →
  store_column_reader p k v st
  = (Ok tt, set_heap (mkHeap (<[p := <[k := v]> m]> (column_reader_maps (heap st)))
                             (analyzer_maps (heap st))
                             (column_index_readers (heap st))
                             (memory_pools (heap st))) st).
Proof. intros H. unfold store_column_reader. run. by rewrite H. Qed.

(** The loop body does not fail on a table whose indexes resolve, from a
    consistent cache. *)
Lemma GetIndexReader_index_ok INVALID_ROWID txn_id begin_ts table readers analyzers
    meta st0 local st :
  build_inv st0 readers analyzers local st →
  cache_consistent st0 →
  readers ∉ dom (column_reader_maps (heap st0)) →
  (∃ e, GetEntryNolock meta txn_id begin_ts = Some e ∧
        map_Forall (λ _ seg, snapshot_well_formed seg) (GetIndexBySegmentSnapshot e)) →
  ∃ local' st',
    GetIndexReader_index INVALID_ROWID txn_id begin_ts table readers analyzers
      meta local st = (Ok local', st').
Proof.
  intros (Hc & Hpos & (m & Hm & Hhas) & [ma Hma] & Hfr & Hfa) Hcons Hfresh
    (e & He & Hwf).
  unfold GetIndexReader_index. rewrite He.
  destruct (negb _); [by eauto|].
  set (column_id := GetColumnIdByName table (column_name (index_base e))).
  set (ts := GetFulltexSegmentUpdateTs e).
  assert (Htarget : (0 ≤ default 0 (local !! column_id))%Z).
  { destruct (local !! column_id) as [t0|] eqn:Hl; simpl; [eauto|lia]. }
  destruct (default 0%Z (local !! column_id) <? ts)%Z eqn:Hlt; [|by eauto].
  apply Z.ltb_lt in Hlt.
  rewrite (bind_Ok _ _ _ _ _ (store_analyzer_ok _ _ _ _ _ Hma)).
  unfold bind at 1, gets at 1.
  match goal with |- context [bind _ _ ?s] => set (st1 := s) end.
  assert (∃ reader st2,
    (if bool_decide (cache_column_ts_ (cache st1) !! column_id = Some ts)
     then cached_column_reader_at column_id
     else new_column_index_reader INVALID_ROWID (Types.flag_ (index_base e))
            (index_dir e) (GetIndexBySegmentSnapshot e)) st1 = (Ok reader, st2) ∧
    column_reader_maps (heap st2) = column_reader_maps (heap st))
    as (reader & st2 & H2 & Hr2).
  { destruct (bool_decide _) eqn:Hb.
    - apply bool_decide_eq_true in Hb. simpl in Hb. rewrite Hc in Hb.
      destruct (Hcons column_id ts Hb ltac:(lia)) as (p & mp & rd & Hp & Hmp & Hrd).
      exists rd, st1. split; [|done].
      apply (cached_column_reader_at_ok _ _ p mp); simpl; [by rewrite Hc| |done].
      rewrite Hfr; [done|]. intros ->. apply Hfresh, elem_of_dom. eauto.
    - match goal with |- context [new_column_index_reader _ ?flag _ _] =>
        destruct (new_column_index_reader_ok INVALID_ROWID flag
                    (index_dir e) _ st1 Hwf) as (a & st2 & H2) end.
      exists a, st2. split; [done|].
      apply new_column_index_reader_inv in H2 as [(? & ? & _)|(? & ? & _ & ->)]; done. }
  rewrite (bind_Ok _ _ _ _ _ H2).
  assert (Hm2 : column_reader_maps (heap st2) !! readers = Some m) by by rewrite Hr2.
  rewrite (bind_Ok _ _ _ _ _ (store_column_reader_ok _ _ _ _ _ Hm2)).
  run. eauto.
Qed.

Lemma GetIndexReader_build_ok INVALID_ROWID txn_id begin_ts table readers analyzers
    metas st0 local st :
  build_inv st0 readers analyzers local st →
  cache_consistent st0 →
  readers ∉ dom (column_reader_maps (heap st0)) →
  Forall (λ nm : string * TableIndexMeta,
            ∃ e, GetEntryNolock nm.2 txn_id begin_ts = Some e ∧
                 map_Forall (λ _ seg, snapshot_well_formed seg)
                            (GetIndexBySegmentSnapshot e)) metas →
  ∃ local' st',
    GetIndexReader_build INVALID_ROWID txn_id begin_ts table readers analyzers
      metas local st = (Ok local', st').
Proof.
  intros Hinv Hcons Hfresh Hall. revert local st Hinv.
  induction Hall as [|[name meta] metas Hmeta _ IH]; intros local st Hinv; simpl.
  - eauto.
  - destruct (GetIndexReader_index_ok INVALID_ROWID txn_id begin_ts table readers
                analyzers meta st0 local st Hinv Hcons Hfresh Hmeta)
      as (local1 & st1 & H1).
    rewrite (bind_Ok _ _ _ _ _ H1). apply IH.
    eapply GetIndexReader_index_inv; eauto.
Qed.

Lemma cache_hit_test c begin_ts :
  (cache_ts_ c <=? begin_ts)%Z && (begin_ts <? first_known_update_ts_ c)%Z = true
  ↔ cache_hit c begin_ts.
Proof.
  unfold cache_hit. rewrite andb_true_iff, Z.leb_le, Z.ltb_lt. done.
Qed.

Lemma GetIndexReader_fast INVALID_ROWID txn_id begin_ts table st :
  cache_hit (cache st) begin_ts →
  ∃ pool st',
    GetIndexReader INVALID_ROWID txn_id begin_ts table st
    = (Ok (IndexReader.mk (cache_column_readers_ (cache st))
                          (column2analyzer_ (cache st)) (Some pool)), st') ∧
    cache st' = cache st ∧
    column_reader_maps (heap st') = column_reader_maps (heap st) ∧
    analyzer_maps (heap st') = analyzer_maps (heap st) ∧
    column_index_readers (heap st') = column_index_readers (heap st).
Proof.
  intros Hhit. apply cache_hit_test in Hhit.
  unfold GetIndexReader, new_memory_pool. run. rewrite Hhit. eauto 10.
Qed.

(** The slow path, up to the loop: the two maps are allocated and the loop
    starts in a state that satisfies its invariant. *)
Lemma GetIndexReader_slow INVALID_ROWID txn_id begin_ts table st :
  ¬ cache_hit (cache st) begin_ts →
  ∃ st3,
    let readers := fresh (dom (column_reader_maps (heap st))) in
    let analyzers := fresh (dom (analyzer_maps (heap st))) in
    build_inv st readers analyzers ∅ st3 ∧
    GetIndexReader INVALID_ROWID txn_id begin_ts table st
    = match GetIndexReader_build INVALID_ROWID txn_id begin_ts table readers
              analyzers (IndexMetaMap table) ∅ st3 with
      | (Ok cache_column_ts, st4) =>
        (Ok (IndexReader.mk (Some readers) (Some analyzers)
                            (Some (fresh (memory_pools (heap st))))),
         if (last_known_update_ts_ (cache st) <=? begin_ts)%Z
         then set_cache (mk TxnTimeStamp_max 0%Z (last_known_update_ts_ (cache st))
                            cache_column_ts (Some readers) (Some analyzers)) st4
         else st4)
      | (Throw e, st4) => (Throw e, st4)
      end ∧
    built_from INVALID_ROWID txn_id begin_ts table [] st readers analyzers ∅ st3.
Proof.
  intros Hmiss. rewrite <- cache_hit_test in Hmiss. apply not_true_is_false in Hmiss.
  exists (mkState (cache st)
            (mkHeap (<[fresh (dom (column_reader_maps (heap st))) := ∅]>
                       (column_reader_maps (heap st)))
                    (<[fresh (dom (analyzer_maps (heap st))) := ∅]>
                       (analyzer_maps (heap st)))
                    (column_index_readers (heap st))
                    ({[fresh (memory_pools (heap st))]} ∪ memory_pools (heap st)))).
  split; [|split].
  2: { unfold GetIndexReader, new_memory_pool, new_column_reader_map,
         new_analyzer_map, set_heap, set_cache. run. rewrite Hmiss.
       destruct (GetIndexReader_build _ _ _ _ _ _ _ _ _) as [[cts|e] st4]; [|done].
       destruct (last_known_update_ts_ (cache st) <=? begin_ts)%Z; done. }
  2: { exists ∅, ∅. simpl. rewrite !lookup_insert_eq.
       split; [done|]. split; [done|]. split; [|split; [|split; [|done]]].
       - intros e (_ & nm & Hin & _). by apply elem_of_nil in Hin.
       - intros c rd Hl. by rewrite lookup_empty in Hl.
       - intros nm a Hl. by rewrite lookup_empty in Hl. }
  unfold build_inv. simpl. split; [done|]. split; [done|].
  split; [|split; [|split]].
  - exists ∅. rewrite lookup_insert_eq. split; [done|]. intros c t0. done.
  - rewrite lookup_insert_eq. eauto.
  - intros p Hp. rewrite lookup_insert_ne by done. done.
  - intros p Hp. rewrite lookup_insert_ne by done. done.
Qed.

(** C8.  When [cache_ts_ ≤ begin_ts < first_known_update_ts_],
    [GetIndexReader] returns a reader that holds the very pointers of the
    cache (the cached column-reader map and the cached analyzer map); the
    cache, the maps and the set of [ColumnIndexReader] objects are
    unchanged: no reader is built.  Otherwise a result holds two freshly
    allocated maps, the maps that existed before are untouched, and when
    [begin_ts ≥ last_known_update_ts_] these fresh maps become the cache,
    with [first_known_update_ts_] the maximal timestamp,
    [last_known_update_ts_ = 0] and [cache_ts_] the former
    [last_known_update_ts_]; when [begin_ts < last_known_update_ts_] the
    cache is left as it was.  The fresh maps are rebuilt from the full-text
    indexes of the table the transaction sees ([built_from]): each of them
    with a positive update timestamp has a reader for its column; every
    reader of the map belongs to the full-text index on its column with the
    latest update timestamp, and is the cached reader of that column when
    the cache has the column at this very timestamp, and a newly opened
    [ColumnIndexReader] on the snapshot of the index otherwise; the analyzer
    map has the analyzer of that index; the timestamps per column are what
    the cache adopts as [cache_column_ts_].  The slow path does return a
    result when every index of the table resolves and the cache is
    consistent, and it keeps the cache consistent. *)
Theorem GetIndexReader_cache_paths (INVALID_ROWID : RowID) (txn_id : TransactionID)
    (begin_ts : TxnTimeStamp) (table : TableEntry) (st : State) :
  (cache_hit (cache st) begin_ts →
   ∃ pool st',
     GetIndexReader INVALID_ROWID txn_id begin_ts table st
     = (Ok (IndexReader.mk (cache_column_readers_ (cache st))
                           (column2analyzer_ (cache st)) (Some pool)), st') ∧
     cache st' = cache st ∧
     column_reader_maps (heap st') = column_reader_maps (heap st) ∧
     analyzer_maps (heap st') = analyzer_maps (heap st) ∧
     column_index_readers (heap st') = column_index_readers (heap st)) ∧
  (¬ cache_hit (cache st) begin_ts →
   (∀ r st',
      GetIndexReader INVALID_ROWID txn_id begin_ts table st = (Ok r, st') →
      ∃ readers analyzers,
        IndexReader.column_index_readers_ r = Some readers ∧
        IndexReader.column2analyzer_ r = Some analyzers ∧
        (readers ∉ dom (column_reader_maps (heap st))) ∧
        (analyzers ∉ dom (analyzer_maps (heap st))) ∧
        is_Some (column_reader_maps (heap st') !! readers) ∧
        is_Some (analyzer_maps (heap st') !! analyzers) ∧
        (∀ p, p ∈ dom (column_reader_maps (heap st)) →
              column_reader_maps (heap st') !! p = column_reader_maps (heap st) !! p) ∧
        (∀ p, p ∈ dom (analyzer_maps (heap st)) →
              analyzer_maps (heap st') !! p = analyzer_maps (heap st) !! p) ∧
        (if decide (last_known_update_ts_ (cache st) ≤ begin_ts)%Z
         then cache_column_readers_ (cache st') = Some readers ∧
              column2analyzer_ (cache st') = Some analyzers ∧
              first_known_update_ts_ (cache st') = TxnTimeStamp_max ∧
              last_known_update_ts_ (cache st') = 0%Z ∧
              cache_ts_ (cache st') = last_known_update_ts_ (cache st)
         else cache st' = cache st) ∧
        (cache_allocated st →
         ∃ cache_column_ts,
           built_from INVALID_ROWID txn_id begin_ts table (IndexMetaMap table) st
             readers analyzers cache_column_ts st' ∧
           ((last_known_update_ts_ (cache st) ≤ begin_ts)%Z →
            cache_column_ts_ (cache st') = cache_column_ts))) ∧
   (table_resolves txn_id begin_ts table →
    cache_consistent st →
    ∃ r st',
      GetIndexReader INVALID_ROWID txn_id begin_ts table st = (Ok r, st') ∧
      cache_consistent st')).
Proof.
  split; [apply GetIndexReader_fast|].
  intros Hmiss.
  destruct (GetIndexReader_slow INVALID_ROWID txn_id begin_ts table st Hmiss)
    as (st3 & Hinv & Heq & Hb0). simpl in Hinv, Heq, Hb0.
  set (readers := fresh (dom (column_reader_maps (heap st)))) in *.
  set (analyzers := fresh (dom (analyzer_maps (heap st)))) in *.
  assert (Hfr : readers ∉ dom (column_reader_maps (heap st))) by apply is_fresh.
  assert (Hfa : analyzers ∉ dom (analyzer_maps (heap st))) by apply is_fresh.
  split.
  - intros r st' H. rewrite Heq in H.
    destruct (GetIndexReader_build _ _ _ _ _ _ _ _ _) as [[cts|e] st4] eqn:Hb;
      [|done].
    pose proof (λ Halloc, GetIndexReader_build_built _ _ _ _ _ _ _ [] st _ _ _ _
                            Halloc Hfr Hinv Hb0 Hb) as Hbuilt.
    apply (GetIndexReader_build_inv _ _ _ _ _ _ _ st) in Hb; [|done].
    destruct Hb as (Hc & _ & (m & Hm & _) & Han & Hframe_r & Hframe_a).
    injection H as <- <-. exists readers, analyzers. simpl.
    split; [done|]. split; [done|]. split; [done|]. split; [done|].
    assert (Hheap : heap (if (last_known_update_ts_ (cache st) <=? begin_ts)%Z
                          then set_cache
                                 (mk TxnTimeStamp_max 0%Z
                                     (last_known_update_ts_ (cache st))
                                     cts (Some readers) (Some analyzers)) st4
                          else st4) = heap st4) by (by destruct (_ <=? _)%Z).
    rewrite Hheap.
    split; [by rewrite Hm; eauto|]. split; [done|].
    split; [|split; [|split]].
    + intros p Hp. apply Hframe_r. intros ->. done.
    + intros p Hp. apply Hframe_a. intros ->. done.
    + case_decide as Hle.
      * apply Z.leb_le in Hle. rewrite Hle. done.
      * apply Z.leb_nle in Hle. rewrite Hle. done.
    + intros Halloc. exists cts. split.
      * specialize (Hbuilt Halloc). simpl in Hbuilt.
        unfold built_from, reader_built_for in *. rewrite Hheap. exact Hbuilt.
      * intros Hle. apply Z.leb_le in Hle. rewrite Hle. done.
  - intros Hres Hcons.
    destruct (GetIndexReader_build_ok INVALID_ROWID txn_id begin_ts table readers
                analyzers (IndexMetaMap table) st ∅ st3 Hinv Hcons Hfr Hres)
      as (cts & st4 & Hb).
    rewrite Heq, Hb. eexists _, _. split; [done|].
    apply (GetIndexReader_build_inv _ _ _ _ _ _ _ st) in Hb; [|done].
    destruct Hb as (Hc & _ & (m & Hm & Hhas) & _ & Hframe_r & _).
    destruct (_ <=? _)%Z.
    + intros c t0 Hl Hpos. simpl in Hl.
      destruct (Hhas c t0 Hl Hpos) as [rd Hrd].
      exists readers, m, rd. done.
    + intros c t0 Hl Hpos. rewrite Hc in Hl.
      destruct (Hcons c t0 Hl Hpos) as (p & mp & rd & Hp & Hmp & Hrd).
      exists p, mp, rd. rewrite Hc. split; [done|]. split; [|done].
      rewrite Hframe_r; [done|]. intros ->. apply Hfr, elem_of_dom. eauto.
Qed.

(** ** Instances *)

Lemma example_index_by_segment_well_formed :
  map_Forall (λ _ e, snapshot_well_formed e) example_index_by_segment.
Proof.
  unfold example_index_by_segment.
  repeat (apply map_Forall_insert_2; [reflexivity|]). apply map_Forall_empty.
Qed.

Lemma Open_base_row_ids_sentinel_witness :
  ∃ r, Open example_INVALID_ROWID 0%Z "idx_text_dir" example_index_by_segment ColumnIndexReader.new
       = (Ok tt, r) ∧
       length (base_row_ids_ r) = S (length (base_names_ r)) ∧
       last (base_row_ids_ r) = Some example_INVALID_ROWID.
Proof.
  destruct (Open_base_row_ids_sentinel example_INVALID_ROWID 0%Z "idx_text_dir"
              example_index_by_segment ColumnIndexReader.new
              example_index_by_segment_well_formed eq_refl)
    as (r & H & Hlen & Hlast & _).
  exists r. repeat split; assumption.
Defined.

(** The two example segments in full: ascending segment order, the in-memory
    base after the disk bases of its segment, the sentinel last. *)
Example Open_example :
  base_row_ids_
    (Open example_INVALID_ROWID 0%Z "idx_text_dir" example_index_by_segment ColumnIndexReader.new).2
  = [mkRowID 0%Z 0%Z; mkRowID 0%Z 100%Z; mkRowID 0%Z 200%Z; mkRowID 1%Z 0%Z;
     example_INVALID_ROWID] ∧
  base_names_
    (Open example_INVALID_ROWID 0%Z "idx_text_dir" example_index_by_segment ColumnIndexReader.new).2
  = ["base_0"; "base_1"; "mem_0"; "base_2"].
Proof. vm_compute. done. Qed.

(** The cache after the first call at 5 on the example table: the window
    is reset and column 1 is cached at timestamp 7. *)
Example GetIndexReader_example :
  let c := cache example_state1 in
  first_known_update_ts_ c = TxnTimeStamp_max ∧
  last_known_update_ts_ c = 0%Z ∧
  cache_ts_ c = 0%Z ∧
  cache_column_ts_ c !! 1%Z = Some 7%Z ∧
  is_Some (cache_column_readers_ c).
Proof. vm_compute. eauto 10. Qed.

Lemma example_table_resolves : table_resolves 1%Z 5%Z example_table.
Proof.
  repeat constructor. exists example_index_entry. split; [reflexivity|].
  exact example_index_by_segment_well_formed.
Qed.

Lemma example_state0_consistent : cache_consistent example_state0.
Proof. intros c t0 H. simpl in H. rewrite lookup_empty in H. discriminate. Qed.

Lemma example_state0_allocated : cache_allocated example_state0.
Proof. intros p Hp. discriminate Hp. Qed.

(** On the example table: the call at 6 after the first call takes the fast
    path; the first call, at 5 from the new cache, builds the reader of
    column 1 from the index updated at 7 (a new [ColumnIndexReader] opened
    on its snapshot), records its analyzer and adopts timestamp 7 for the
    column. *)
Lemma GetIndexReader_cache_paths_witness :
  (∃ pool st',
     GetIndexReader example_INVALID_ROWID 2%Z 6%Z example_table example_state1
     = (Ok (IndexReader.mk (cache_column_readers_ (cache example_state1))
                           (column2analyzer_ (cache example_state1)) (Some pool)),
        st')) ∧
  (∃ r st' readers analyzers m an reader o,
     GetIndexReader example_INVALID_ROWID 1%Z 5%Z example_table example_state0
     = (Ok r, st') ∧
     IndexReader.column_index_readers_ r = Some readers ∧
     IndexReader.column2analyzer_ r = Some analyzers ∧
     column_reader_maps (heap st') !! readers = Some m ∧
     analyzer_maps (heap st') !! analyzers = Some an ∧
     m !! 1%Z = Some reader ∧
     ColumnIndexReader.Open example_INVALID_ROWID 0%Z "idx_text_dir"
       example_index_by_segment ColumnIndexReader.new = (Ok tt, o) ∧
     column_index_readers (heap st') !! reader = Some o ∧
     an !! "text" = Some "standard" ∧
     cache_column_ts_ (cache st') !! 1%Z = Some 7%Z) ∧
  (∃ r st',
     GetIndexReader example_INVALID_ROWID 1%Z 5%Z example_table example_state0
     = (Ok r, st') ∧ cache_consistent st').
Proof.
  assert (Hmiss : ¬ cache_hit (cache example_state0) 5%Z).
  { intros [_ H]. vm_compute in H. discriminate H. }
  split; [|split].
  - destruct (proj1 (GetIndexReader_cache_paths example_INVALID_ROWID 2%Z 6%Z
                       example_table example_state1))
      as (pool & st' & H & _).
    + split; vm_compute; [discriminate | reflexivity].
    + exists pool, st'. exact H.
  - destruct (GetIndexReader example_INVALID_ROWID 1%Z 5%Z example_table
                example_state0) as [[r|e] st'] eqn:H.
    2: { vm_compute in H. discriminate H. }
    destruct (proj1 (proj2 (GetIndexReader_cache_paths example_INVALID_ROWID 1%Z
                              5%Z example_table example_state0) Hmiss) r st' H)
      as (readers & analyzers & Hr & Ha & _ & _ & _ & _ & _ & _ & _ & Hbuilt).
    destruct (Hbuilt example_state0_allocated)
      as (cts & (m & an & Hm & Han & Hcov & Hrd & _) & Hadopt).
    destruct (Hcov example_index_entry) as (ts & Hl & Hle & [reader Hreader]).
    { split; [reflexivity|]. eexists. split; [by left | reflexivity]. }
    { reflexivity. }
    destruct (Hrd _ _ Hreader) as (e & (_ & nm & Hin & He) & _ & Hts & Han_e & Hb).
    apply list_elem_of_singleton in Hin as ->. injection He as <-.
    unfold reader_built_for in Hb. rewrite decide_False in Hb by discriminate.
    destruct Hb as (_ & o & Hopen & Ho).
    exists r, st', readers, analyzers, m, an, reader, o.
    rewrite (Hadopt ltac:(vm_compute; discriminate)).
    repeat (split; [done|]). exact Hts.
  - apply (proj2 (proj2 (GetIndexReader_cache_paths example_INVALID_ROWID 1%Z 5%Z
                           example_table example_state0) Hmiss)).
    + exact example_table_resolves.
    + exact example_state0_consistent.
Defined.

(** * Further properties of the column index reader *)

(** ** The segment readers [Open] creates *)

Lemma Open_disk_readers_readers flag i names row_ids o :
  i + length names ≤ length row_ids →
  ∃ o', Open_disk_readers flag i names row_ids o = (Ok tt, o') ∧
        segment_readers_ o'
        = segment_readers_ o
            ++ zip_with (λ name row_id,
                           DiskIndexSegmentReader (index_dir_ o) name row_id flag)
                        names (drop i row_ids) ∧
        ColumnIndexReader.flag_ o' = ColumnIndexReader.flag_ o ∧
        index_by_segment_ o' = index_by_segment_ o ∧
        index_dir_ o' = index_dir_ o ∧
        base_names_ o' = base_names_ o ∧
        base_row_ids_ o' = base_row_ids_ o.
Proof.
  revert i o. induction names as [|name names IH]; intros i o Hlen; simpl.
  - exists o. rewrite app_nil_r. done.
  - simpl in Hlen. destruct (lookup_lt_is_Some_2 row_ids i ltac:(lia)) as [rid Hrid].
    rewrite Hrid, (drop_S _ _ _ Hrid). unfold push_segment_reader. run.
    destruct (IH (S i) (ColumnIndexReader.mk (ColumnIndexReader.flag_ o)
                (segment_readers_ o
                   ++ [DiskIndexSegmentReader (index_dir_ o) name rid flag])
                (index_by_segment_ o) (index_dir_ o) (base_names_ o)
                (base_row_ids_ o)) ltac:(lia))
      as (o' & H & Hs & Hf & Hm & Hd & Hn & Hr).
    exists o'. split; [done|]. simpl in *. rewrite Hs, <- app_assoc. done.
Qed.

Lemma Open_segment_readers flag e o :
  snapshot_well_formed e →
  ∃ o', Open_segment flag e o = (Ok tt, o') ∧
        segment_readers_ o'
        = segment_readers_ o ++ segment_readers (index_dir_ o) flag e ∧
        ColumnIndexReader.flag_ o' = ColumnIndexReader.flag_ o ∧
        index_by_segment_ o' = index_by_segment_ o ∧
        index_dir_ o' = index_dir_ o.
Proof.
  intros Hwf. unfold Open_segment.
  destruct (Open_disk_readers_readers flag 0 (base_names e) (base_row_ids e) o)
    as (o1 & H1 & Hs & Hf & Hm & Hd & _).
  { unfold snapshot_well_formed in Hwf. lia. }
  rewrite (bind_Ok _ _ _ _ _ H1). rewrite drop_0 in Hs.
  unfold segment_readers, active_indexer,
    append_base_names, append_base_row_ids, push_segment_reader.
  destruct (memory_indexer e) as [indexer|]; run.
  - destruct (GetDocCount indexer =? 0)%Z; simpl; eexists; (split; [done|]);
      simpl; rewrite Hs, <- ?app_assoc, ?app_nil_r; done.
  - eexists; (split; [done|]); simpl; rewrite Hs, ?app_nil_r; done.
Qed.

Lemma Open_segments_readers flag (items : list (Z * SegmentIndexEntry)) o :
  Forall (λ kv, snapshot_well_formed kv.2) items →
  ∃ o', for_each items (λ kv, Open_segment flag kv.2) o = (Ok tt, o') ∧
        segment_readers_ o'
        = segment_readers_ o
            ++ flat_map (λ kv, segment_readers (index_dir_ o) flag kv.2) items ∧
        ColumnIndexReader.flag_ o' = ColumnIndexReader.flag_ o ∧
        index_by_segment_ o' = index_by_segment_ o ∧
        index_dir_ o' = index_dir_ o.
Proof.
  intros Hall. revert o. induction Hall as [|kv items Hwf _ IH]; intros o; simpl.
  - exists o. rewrite !app_nil_r. done.
  - destruct (Open_segment_readers flag kv.2 o Hwf) as (o1 & H1 & Hs1 & Hf1 & Hm1 & Hd1).
    rewrite (bind_Ok _ _ _ _ _ H1).
    destruct (IH o1) as (o' & H & Hs & Hf & Hm & Hd). exists o'.
    rewrite Hs, Hs1, Hf, Hf1, Hm, Hm1, Hd, Hd1, <- !app_assoc. done.
Qed.

(** The reader after [Open]: its segment readers, next to what
    [Open_appends] says of the two vectors. *)
Lemma Open_readers INVALID_ROWID flag index_dir (m : gmap Z SegmentIndexEntry) o :
  map_Forall (λ _ e, snapshot_well_formed e) m →
  ∃ r, Open INVALID_ROWID flag index_dir m o = (Ok tt, r) ∧
       segment_readers_ r
       = segment_readers_ o
           ++ flat_map (λ kv, segment_readers index_dir flag kv.2) (Map_items m) ∧
       ColumnIndexReader.flag_ r = flag ∧
       index_by_segment_ r = m ∧
       index_dir_ r = index_dir.
Proof.
  intros Hwf. unfold Open.
  unfold bind at 1. unfold modify at 1.
  match goal with |- context [bind (for_each _ _) _ ?o1] =>
    destruct (Open_segments_readers flag (Map_items m) o1)
      as (o2 & H1 & Hs & Hf & Hm & Hd) end.
  { apply Forall_forall. intros [k e] Hin. apply Map_items_elem_of in Hin.
    exact (Hwf k e Hin). }
  rewrite (bind_Ok _ _ _ _ _ H1). unfold append_base_row_ids. run.
  eexists. split; [done|]. simpl in *. done.
Qed.

Lemma segment_readers_bases index_dir flag e :
  snapshot_well_formed e →
  map reader_base (segment_readers index_dir flag e)
  = zip (segment_base_names e) (segment_base_row_ids e).
Proof.
  unfold snapshot_well_formed, segment_readers, segment_base_names,
    segment_base_row_ids.
  intros Hwf. rewrite zip_with_app by done. rewrite map_app. f_equal.
  - clear Hwf. generalize (base_row_ids e). induction (base_names e) as [|n ns IH];
      intros [|rid rids]; simpl; [done|done|done|]. by rewrite IH.
  - by destruct (active_indexer e).
Qed.

Lemma segment_readers_opened_with index_dir flag e :
  Forall (reader_opened_with index_dir flag) (segment_readers index_dir flag e).
Proof.
  unfold segment_readers. apply Forall_app. split.
  - generalize (base_row_ids e). induction (base_names e) as [|n ns IH];
      intros [|rid rids]; simpl; constructor; [done | apply IH].
  - destruct (active_indexer e); by repeat constructor.
Qed.

Lemma flat_map_zip (items : list (Z * SegmentIndexEntry)) index_dir flag :
  Forall (λ kv, snapshot_well_formed kv.2) items →
  map reader_base (flat_map (λ kv, segment_readers index_dir flag kv.2) items)
  = zip (flat_map (λ kv, segment_base_names kv.2) items)
        (flat_map (λ kv, segment_base_row_ids kv.2) items).
Proof.
  induction 1 as [|kv items Hwf _ IH]; simpl; [done|].
  rewrite map_app, IH, segment_readers_bases by done.
  rewrite zip_with_app; [done|]. symmetry. by apply segment_base_lengths.
Qed.

(** X14.  [Open] on a freshly constructed reader, for a segment map whose
    snapshots are well formed, leaves the segment readers aligned with the
    two vectors kept for loading the column length files: there are as many
    segment readers as base names, and the i-th reader reads the base whose
    name is [base_names_[i]] and whose first row id is [base_row_ids_[i]]
    (a disk reader for a disk base, opened in the index directory with the
    flag of the call; the in-memory reader for the base of an indexer with
    documents).  The segment map, the directory and the flag are stored. *)
Theorem Open_readers_aligned (INVALID_ROWID : RowID) (flag : Z) (index_dir : string)
    (m : gmap Z SegmentIndexEntry) :
  map_Forall (λ _ e, snapshot_well_formed e) m →
  ∃ r, Open INVALID_ROWID flag index_dir m ColumnIndexReader.new = (Ok tt, r) ∧
       map reader_base (segment_readers_ r) = zip (base_names_ r) (base_row_ids_ r) ∧
       length (segment_readers_ r) = length (base_names_ r) ∧
       Forall (reader_opened_with index_dir flag) (segment_readers_ r) ∧
       index_by_segment_ r = m ∧
       index_dir_ r = index_dir ∧
       ColumnIndexReader.flag_ r = flag.
Proof.
  intros Hwf.
  assert (Hitems : Forall (λ kv : Z * SegmentIndexEntry, snapshot_well_formed kv.2)
                          (Map_items m)).
  { apply Forall_forall. intros [k e] Hin. apply Map_items_elem_of in Hin.
    exact (Hwf k e Hin). }
  destruct (Open_readers INVALID_ROWID flag index_dir m ColumnIndexReader.new Hwf)
    as (r & H & Hs & Hf & Hm & Hd).
  destruct (Open_appends INVALID_ROWID flag index_dir m ColumnIndexReader.new Hwf)
    as (r' & H' & Hn & Hr).
  rewrite H in H'. injection H' as <-.
  simpl in Hs, Hn, Hr.
  assert (Hlen : length (flat_map (λ kv, segment_base_names kv.2) (Map_items m))
                 = length (flat_map (λ kv, segment_base_row_ids kv.2) (Map_items m))).
  { clear -Hitems. induction Hitems as [|kv items Hkv _ IH]; simpl; [done|].
    rewrite !length_app, IH, segment_base_lengths by done. done. }
  assert (Hzip : map reader_base (segment_readers_ r)
                 = zip (base_names_ r) (base_row_ids_ r)).
  { rewrite Hs, Hn, Hr, flat_map_zip by done.
    rewrite <- (app_nil_r (flat_map (λ kv, segment_base_names kv.2) (Map_items m)))
      at 2.
    rewrite zip_with_app by done. by rewrite app_nil_r. }
  exists r. split; [done|]. split; [done|]. split; [|split; [|done]].
  - apply (f_equal length) in Hzip. rewrite length_map, length_zip_with in Hzip.
    rewrite Hzip, Hr, Hn, length_app, <- Hlen. simpl. lia.
  - rewrite Hs. simpl. clear. induction (Map_items m) as [|kv items IH]; simpl;
      [done|]. apply Forall_app. split; [apply segment_readers_opened_with | done].
Qed.

Lemma Open_readers_aligned_witness :
  ∃ r, Open example_INVALID_ROWID 0%Z "idx_text_dir" example_index_by_segment
         ColumnIndexReader.new = (Ok tt, r) ∧
       map reader_base (segment_readers_ r) = zip (base_names_ r) (base_row_ids_ r) ∧
       length (segment_readers_ r) = length (base_names_ r).
Proof.
  destruct (Open_readers_aligned example_INVALID_ROWID 0%Z "idx_text_dir"
              example_index_by_segment example_index_by_segment_well_formed)
    as (r & H & Hzip & Hlen & _).
  exists r. repeat split; assumption.
Defined.

(** ** Term lookup *)

Lemma Lookup_postings_omap {P} (G : IndexSegmentReader → string → N → option P)
    term pool readers :
  Lookup_postings G term pool readers = omap (λ rd, G rd term pool) readers.
Proof.
  induction readers as [|rd readers IH]; simpl; [done|].
  destruct (G rd term pool); by rewrite IH.
Qed.

(** X15.  A term lookup on a reader opened for a segment map (a fresh
    reader, well-formed snapshots).  [Lookup] returns the null pointer
    exactly when no segment reader of any segment has a posting for the
    term.  Otherwise its iterator is created with the flag of [Open] and
    holds the postings found, in ascending segment order, within a segment
    the disk bases in snapshot order and then the in-memory indexer.
    [LookupBlockMax] finds the same postings and is null for the same
    terms. *)
Theorem Lookup_after_Open {P W : Type}
    (GetSegmentPosting : IndexSegmentReader → string → N → option P)
    (INVALID_ROWID : RowID) (flag : Z) (index_dir : string)
    (m : gmap Z SegmentIndexEntry) (term : string) (session_pool : N) (weight : W) :
  map_Forall (λ _ e, snapshot_well_formed e) m →
  ∃ r, Open INVALID_ROWID flag index_dir m ColumnIndexReader.new = (Ok tt, r) ∧
       (Lookup GetSegmentPosting term session_pool r = None ↔
        ∀ k e rd, m !! k = Some e → rd ∈ segment_readers index_dir flag e →
                  GetSegmentPosting rd term session_pool = None) ∧
       (∀ it, Lookup GetSegmentPosting term session_pool r = Some it →
              pi_flag it = flag ∧
              pi_seg_postings it
              = omap (λ rd, GetSegmentPosting rd term session_pool)
                     (flat_map (λ kv, segment_readers index_dir flag kv.2)
                               (Map_items m))) ∧
       LookupBlockMax GetSegmentPosting term session_pool weight r
       = (λ it, mkBlockMaxTermDocIterator (pi_flag it) (pi_session_pool it) weight
                  (pi_seg_postings it) (pi_state_pool_size it))
           <$> Lookup GetSegmentPosting term session_pool r.
Proof.
  intros Hwf.
  destruct (Open_readers INVALID_ROWID flag index_dir m ColumnIndexReader.new Hwf)
    as (r & H & Hs & Hf & _).
  exists r. split; [done|]. simpl in Hs.
  unfold Lookup, LookupBlockMax. rewrite Lookup_postings_omap, Hs, Hf.
  set (readers := flat_map (λ kv, segment_readers index_dir flag kv.2) (Map_items m)).
  assert (Hnone : omap (λ rd, GetSegmentPosting rd term session_pool) readers = [] ↔
                  ∀ k e rd, m !! k = Some e → rd ∈ segment_readers index_dir flag e →
                            GetSegmentPosting rd term session_pool = None).
  { split.
    - intros Hnil k e rd Hk Hrd.
      destruct (GetSegmentPosting rd term session_pool) as [p|] eqn:Hp; [|done].
      assert (p ∈ omap (λ rd, GetSegmentPosting rd term session_pool) readers) as Hin.
      { apply list_elem_of_omap. exists rd. split; [|done].
        apply list_elem_of_In, in_flat_map. exists (k, e).
        split; [by apply list_elem_of_In, Map_items_elem_of | by apply list_elem_of_In]. }
      rewrite Hnil in Hin. by apply elem_of_nil in Hin.
    - intros Hall.
      destruct (omap _ readers) as [|p ps] eqn:Ho; [done|].
      assert (p ∈ omap (λ rd, GetSegmentPosting rd term session_pool) readers) as Hin
        by (rewrite Ho; apply list_elem_of_here).
      apply list_elem_of_omap in Hin as (rd & Hrd & Hp).
      apply list_elem_of_In, in_flat_map in Hrd as ([k e] & Hke & Hrd).
      apply list_elem_of_In, Map_items_elem_of in Hke. apply list_elem_of_In in Hrd.
      rewrite (Hall k e rd Hke Hrd) in Hp. done. }
  destruct (omap _ readers) as [|p ps] eqn:Ho.
  - split; [|done]. by rewrite <- Hnone.
  - split; [|split; [|done]].
    + rewrite <- Hnone. done.
    + intros it [= <-]. done.
Qed.

Lemma Lookup_after_Open_witness :
  ∃ r, Open example_INVALID_ROWID 0%Z "idx_text_dir" example_index_by_segment
         ColumnIndexReader.new = (Ok tt, r) ∧
       (∀ it, Lookup example_GetSegmentPosting "infinity" 0%N r = Some it →
              pi_seg_postings it = [0%Z; 100%Z; 0%Z]).
Proof.
  destruct (Lookup_after_Open (W := Z) example_GetSegmentPosting example_INVALID_ROWID
              0%Z "idx_text_dir" example_index_by_segment "infinity" 0%N 1%Z
              example_index_by_segment_well_formed)
    as (r & H & _ & Hit & _).
  exists r. split; [exact H|]. intros it Hl. exact (proj2 (Hit it Hl)).
Defined.

(** ** The average column length *)

Lemma column_len_totals_sums G entries s c :
  (0 ≤ s < 2 ^ 64)%Z → (0 ≤ c < 2 ^ 32)%Z →
  column_len_totals G entries s c
  = (to_unsigned 64 (s + column_len_sum_of G entries),
     to_unsigned 32 (c + column_len_cnt_of G entries)).
Proof.
  revert s c. induction entries as [|[k e] entries IH]; intros s c Hs Hc; simpl.
  - unfold to_unsigned. rewrite !Z.add_0_r, !Z.mod_small by done. done.
  - destruct (G e) as [sum cnt] eqn:HG. simpl.
    rewrite IH by (unfold to_unsigned; apply Z.mod_pos_bound; lia).
    unfold to_unsigned.
    rewrite !Zplus_mod_idemp_l, !Z.add_assoc. done.
Qed.

(** X16.  [GetAvgColumnLength] divides the sum of the column lengths of the
    segments, taken modulo [2^64], by the number of their documents, taken
    modulo [2^32], and raises the unrecoverable error "column_len_cnt is 0"
    exactly when this count is zero: in particular on a reader without
    segments, such as one that was never opened. *)
Theorem GetAvgColumnLength_operands
    (GetFulltextColumnLenInfo : SegmentIndexEntry → Z * Z) (o : ColumnIndexReader.t) :
  let items := Map_items (index_by_segment_ o) in
  let sum := to_unsigned 64 (column_len_sum_of GetFulltextColumnLenInfo items) in
  let cnt := to_unsigned 32 (column_len_cnt_of GetFulltextColumnLenInfo items) in
  GetAvgColumnLength GetFulltextColumnLenInfo o
  = (if (cnt =? 0)%Z then None else Some (sum, cnt)) ∧
  (index_by_segment_ o = ∅ → GetAvgColumnLength GetFulltextColumnLenInfo o = None) ∧
  GetAvgColumnLength GetFulltextColumnLenInfo ColumnIndexReader.new = None.
Proof.
  assert (Heq : ∀ o',
            GetAvgColumnLength GetFulltextColumnLenInfo o'
            = if (to_unsigned 32 (column_len_cnt_of GetFulltextColumnLenInfo
                                    (Map_items (index_by_segment_ o'))) =? 0)%Z
              then None
              else Some (to_unsigned 64 (column_len_sum_of GetFulltextColumnLenInfo
                                           (Map_items (index_by_segment_ o'))),
                         to_unsigned 32 (column_len_cnt_of GetFulltextColumnLenInfo
                                           (Map_items (index_by_segment_ o'))))).
  { intros o'. unfold GetAvgColumnLength.
    rewrite column_len_totals_sums by lia. done. }
  assert (Hempty : ∀ o', index_by_segment_ o' = ∅ →
                         GetAvgColumnLength GetFulltextColumnLenInfo o' = None).
  { intros o' He. rewrite Heq, He. unfold Map_items. rewrite map_to_list_empty. done. }
  simpl. split; [apply Heq|]. split; [apply Hempty|]. by apply Hempty.
Qed.

Lemma GetAvgColumnLength_operands_witness :
  GetAvgColumnLength example_GetFulltextColumnLenInfo
    (ColumnIndexReader.mk 0%Z [] ∅ "idx_text_dir" [] [])
  = None.
Proof.
  apply (proj1 (proj2 (GetAvgColumnLength_operands example_GetFulltextColumnLenInfo
                         (ColumnIndexReader.mk 0%Z [] ∅ "idx_text_dir" [] [])))).
  reflexivity.
Defined.

(** ** Known updates and the cache *)





End FullTextTheory.

(** * Properties of the import benchmark *)

Module BenchmarkTheory.
Import Benchmark.

(** ** Reading a batch *)

Lemma nonempty_lines_cons line lines :
  nonempty_lines (line :: lines)
  = if (String.length line =? 0)%nat then nonempty_lines lines
    else line :: nonempty_lines lines.
Proof.
  unfold nonempty_lines. destruct (Nat.eqb_spec (String.length line) 0) as [E|E].
  - by rewrite filter_cons_False by (intros H; apply H, E).
  - by rewrite filter_cons_True.
Qed.

Lemma ReadJsonl_loop_spec parse n lines rest k batch :
  (∀ line, line ∈ lines → String.length line ≠ 0 → is_Some (parse line)) →
  ∃ input_file',
    ReadJsonl_loop parse n lines rest k batch
    = Some (batch ++ omap parse (take (Z.to_nat (n - k)) (nonempty_lines lines)),
            input_file') ∧
    (eofbit input_file' = true ↔ length (nonempty_lines lines) < Z.to_nat (n - k)) ∧
    nonempty_lines (file_lines input_file')
    = drop (Z.to_nat (n - k)) (nonempty_lines lines) ∧
    (eofbit input_file' = false → file_rest input_file' = rest).
Proof.
  revert k batch. induction lines as [|line lines IH]; intros k batch Hparse; simpl.
  - change (nonempty_lines []) with (@nil string).
    rewrite take_nil, drop_nil, app_nil_r.
    destruct (k <? n)%Z eqn:Hk; simpl.
    + apply Z.ltb_lt in Hk. eexists. split; [done|].
      simpl. split; [|done]. split; [lia|done].
    + apply Z.ltb_ge in Hk. eexists. split; [done|].
      simpl. split; [|done]. split; [done|lia].
  - destruct (k <? n)%Z eqn:Hk; simpl.
    2: { apply Z.ltb_ge in Hk. eexists.
         replace (Z.to_nat (n - k)) with 0 by lia.
         split; [by rewrite take_0, app_nil_r|]. simpl.
         split; [|done]. split; [done|lia]. }
    apply Z.ltb_lt in Hk. rewrite nonempty_lines_cons.
    assert (Hparse' : ∀ l, l ∈ lines → String.length l ≠ 0 → is_Some (parse l)).
    { intros l Hl. apply Hparse. by apply list_elem_of_further. }
    destruct (Nat.eqb_spec (String.length line) 0) as [E|E].
    + apply IH, Hparse'.
    + destruct (Hparse line (list_elem_of_here _ _) E) as [row Hrow]. rewrite Hrow.
      destruct (IH (k + 1)%Z (batch ++ [row]) Hparse')
        as (s' & H & Heof & Hrest & Htail).
      exists s'. replace (Z.to_nat (n - k)) with (S (Z.to_nat (n - (k + 1)))) by lia.
      simpl. rewrite Hrow, H, <- app_assoc. split; [done|].
      split; [rewrite Heof; lia | done].
Qed.

(** X20.  [ReadJsonl] on a stream that has not met the end of the file, when
    every line it parses is a row: the batch is made of the rows of the
    first [lines_to_read] non-empty lines, in order, and of nothing the
    batch held before; empty lines are skipped and do not count.  Only lines
    that end with a newline are returned: what follows the last newline of
    the file is read by the [getline] that sets [eofbit] and is dropped.
    [eofbit] is set exactly when fewer than [lines_to_read] rows were left,
    and otherwise the stream stands before the next unread line. *)
Theorem ReadJsonl_batch (parse : string → option Row) (input_file : ifstream)
    (lines_to_read : Z) :
  eofbit input_file = false →
  (∀ line, line ∈ file_lines input_file → String.length line ≠ 0 →
           is_Some (parse line)) →
  ∃ input_file',
    ReadJsonl parse input_file lines_to_read
    = Some (omap parse (take (Z.to_nat lines_to_read)
                          (nonempty_lines (file_lines input_file))),
            input_file') ∧
    (eofbit input_file' = true ↔
     length (nonempty_lines (file_lines input_file)) < Z.to_nat lines_to_read) ∧
    nonempty_lines (file_lines input_file')
    = drop (Z.to_nat lines_to_read) (nonempty_lines (file_lines input_file)) ∧
    (eofbit input_file' = false → file_rest input_file' = file_rest input_file) ∧
    ReadJsonl parse input_file' 0%Z = Some ([], input_file').
Proof.
  intros Hgood Hparse. unfold ReadJsonl at 1. rewrite Hgood.
  destruct (ReadJsonl_loop_spec parse lines_to_read (file_lines input_file)
              (file_rest input_file) 0%Z [] Hparse)
    as (s' & H & Heof & Hrest & Htail).
  rewrite Z.sub_0_r in H, Heof, Hrest.
  exists s'. split; [exact H|]. split; [exact Heof|]. split; [exact Hrest|].
  split; [exact Htail|].
  unfold ReadJsonl. destruct s' as [lines' rest' [|]]; simpl; [done|].
  by destruct lines'.
Qed.

Lemma ReadJsonl_batch_witness :
  ∃ input_file',
    ReadJsonl example_parse example_file 2%Z
    = Some (omap example_parse
              (take 2 (nonempty_lines (file_lines example_file))), input_file') ∧
    (eofbit input_file' = true ↔ 3 < 2).
Proof.
  destruct (ReadJsonl_batch example_parse example_file 2%Z)
    as (s' & H & Heof & _).
  - reflexivity.
  - intros line Hin _. apply list_elem_of_In in Hin. simpl in Hin.
    destruct Hin as [<-|[<-|[<-|[<-|[]]]]]; vm_compute; eauto.
  - exists s'. split; [exact H | exact Heof].
Defined.

(** ** Inserting the file *)

Lemma omap_all_length {A B} (f : A → option B) (l : list A) :
  Forall (λ x, is_Some (f x)) l → length (omap f l) = length l.
Proof.
  induction 1 as [|x l [y Hy] _ IH]; simpl; [done|]. rewrite Hy. simpl.
  f_equal. exact IH.
Qed.

Lemma nonempty_lines_parse (parse : string → option Row) lines :
  Forall (λ line, is_Some (parse line)) (nonempty_lines lines) →
  ∀ line, line ∈ lines → String.length line ≠ 0 → is_Some (parse line).
Proof.
  intros Hall line Hin Hlen. rewrite Forall_forall in Hall. apply Hall.
  unfold nonempty_lines. by apply list_elem_of_filter.
Qed.

Lemma BenchmarkInsert_loop_spec (parse : string → option Row) fuel input_file inserted :
  eofbit input_file = false →
  Forall (λ line, is_Some (parse line)) (nonempty_lines (file_lines input_file)) →
  length (nonempty_lines (file_lines input_file)) < fuel →
  ∃ batches,
    BenchmarkInsert_loop parse fuel input_file inserted = RunReturns (inserted ++ batches) ∧
    concat batches = omap parse (nonempty_lines (file_lines input_file)) ∧
    Forall (λ batch, 0 < length batch ≤ 100) batches ∧
    (∀ i batch, batches !! i = Some batch → S i < length batches → length batch = 100).
Proof.
  revert input_file inserted.
  induction fuel as [|fuel IH]; intros input_file inserted Hgood Hparse Hfuel; [lia|].
  simpl.
  destruct (ReadJsonl_batch parse input_file 100%Z Hgood
              (nonempty_lines_parse parse _ Hparse))
    as (s' & H & Heof & Hrest & _).
  rewrite H. clear H.
  set (rows := nonempty_lines (file_lines input_file)) in *.
  change (Z.to_nat 100) with 100 in *.
  assert (Hlen : length (omap parse (take 100 rows)) = length (take 100 rows)).
  { apply omap_all_length. by apply Forall_take. }
  rewrite length_take in Hlen.
  assert (Hsplit : omap parse rows
                   = omap parse (take 100 rows) ++ omap parse (drop 100 rows)).
  { by rewrite <- omap_app, take_drop. }
  destruct (omap parse (take 100 rows)) as [|row batch] eqn:Hbatch.
  { exists []. rewrite app_nil_r. split; [done|]. simpl in Hlen.
    assert (rows = []) as -> by (destruct rows; [done | simpl in Hlen; lia]).
    done. }
  destruct (Z.of_nat (length (row :: batch)) <? 100)%Z eqn:Hshort.
  - apply Z.ltb_lt in Hshort. exists [row :: batch]. split; [done|].
    assert (drop 100 rows = []) as Hdrop by (apply drop_ge; lia).
    rewrite Hsplit, Hdrop. simpl. rewrite !app_nil_r. split; [done|].
    split; [constructor; [simpl in *; lia | done]|].
    intros [|i] b Hb Hi; simpl in Hi; lia.
  - apply Z.ltb_ge in Hshort.
    assert (Hfull : length (row :: batch) = 100) by lia.
    assert (Hgood' : eofbit s' = false).
    { destruct (eofbit s'); [|done]. assert (length rows < 100) by by apply Heof.
      lia. }
    destruct (IH s' (inserted ++ [row :: batch]) Hgood') as (batches & H & Hc & Hall & Hlast).
    + rewrite Hrest. by apply Forall_drop.
    + rewrite Hrest, length_drop. lia.
    + exists ((row :: batch) :: batches). rewrite H, <- app_assoc. split; [done|].
      rewrite Hrest in Hc. split; [simpl; by rewrite Hc, Hsplit|].
      split; [constructor; [lia | done]|].
      intros [|i] b Hb Hi; simpl in Hb, Hi.
      * by injection Hb as <-.
      * apply (Hlast i b Hb). lia.
Qed.

(** X23.  [BenchmarkInsert] on a file whose non-empty lines all parse: it
    returns (with enough fuel, one pass more than there are rows suffices)
    after having inserted the row of every non-empty line that ends with a
    newline, each of them once and in the order of the file, in batches of
    exactly 100 rows but for the last one, which is not empty and may be
    shorter.  The characters after the last newline of the file are not
    inserted.  A file that could not be opened inserts nothing. *)
Theorem BenchmarkInsert_inserts_every_row (parse : string → option Row)
    (fuel : nat) (lines : list string) (rest : string) :
  Forall (λ line, is_Some (parse line)) (nonempty_lines lines) →
  length (nonempty_lines lines) < fuel →
  BenchmarkInsert parse fuel None = RunReturns [] ∧
  ∃ batches,
    BenchmarkInsert parse fuel (Some (mkIfstream lines rest false))
    = RunReturns batches ∧
    concat batches = omap parse (nonempty_lines lines) ∧
    Forall (λ batch, 0 < length batch ≤ 100) batches ∧
    (∀ i batch, batches !! i = Some batch → S i < length batches → length batch = 100).
Proof.
  intros Hparse Hfuel. split; [done|]. unfold BenchmarkInsert.
  destruct (BenchmarkInsert_loop_spec parse fuel (mkIfstream lines rest false) []
              eq_refl Hparse Hfuel) as (batches & H & Hc & Hall & Hlast).
  exists batches. done.
Qed.

Lemma BenchmarkInsert_inserts_every_row_witness :
  ∃ batches,
    BenchmarkInsert example_parse 4 (Some example_file) = RunReturns batches ∧
    concat batches = omap example_parse (nonempty_lines (file_lines example_file)).
Proof.
  destruct (BenchmarkInsert_inserts_every_row example_parse 4
              (file_lines example_file) (file_rest example_file))
    as (_ & batches & H & Hc & _).
  - apply Forall_forall. intros line Hin. apply list_elem_of_In in Hin.
    vm_compute in Hin. destruct Hin as [<-|[<-|[<-|[]]]]; vm_compute; eauto.
  - vm_compute. lia.
  - exists batches. split; [exact H | exact Hc].
Defined.

(** ** The command line *)

Lemma Parse_options_true opts flags flags' :
  Parse_options opts flags = (true, flags') →
  Forall known_option opts ∧
  (is_import flags' = true ↔ is_import flags = true ∨ opt_i ∈ opts) ∧
  (is_insert flags' = true ↔ is_insert flags = true ∨ opt_r ∈ opts ∨ opt_m ∈ opts) ∧
  (is_merge flags' = true ↔ is_merge flags = true ∨ opt_m ∈ opts).
Proof.
  revert flags. induction opts as [|opt opts IH]; intros flags; simpl.
  - intros [= <-]. split; [done|]. rewrite !elem_of_nil. tauto.
  - unfold known_option, opt_i, opt_r, opt_m in *.
    destruct (Z.eqb_spec opt 105) as [->|Hi].
    { intros H. apply IH in H as (Hall & H1 & H2 & H3). simpl in *.
      split; [constructor; auto|]. rewrite !elem_of_cons.
      rewrite H1, H2, H3. intuition congruence. }
    destruct (Z.eqb_spec opt 114) as [->|Hr].
    { intros H. apply IH in H as (Hall & H1 & H2 & H3). simpl in *.
      split; [constructor; auto|]. rewrite !elem_of_cons.
      rewrite H1, H2, H3. intuition congruence. }
    destruct (Z.eqb_spec opt 109) as [->|Hm]; [|done].
    intros H. apply IH in H as (Hall & H1 & H2 & H3). simpl in *.
    split; [constructor; auto|]. rewrite !elem_of_cons.
    rewrite H1, H2, H3. intuition congruence.
Qed.

Lemma Parse_options_known opts flags :
  Forall known_option opts → (Parse_options opts flags).1 = true.
Proof.
  intros Hall. revert flags. induction Hall as [|opt opts Hk _ IH]; intros flags;
    simpl; [done|].
  unfold known_option, opt_i, opt_r, opt_m in *.
  destruct (Z.eqb_spec opt 105); [apply IH|].
  destruct (Z.eqb_spec opt 114); [apply IH|].
  destruct (Z.eqb_spec opt 109); [apply IH|]. lia.
Qed.

(** X21.  [Parse] without arguments ([argc < 2]) leaves the three flags as
    the caller set them.  With arguments it succeeds exactly when every
    option is one of [i], [r], [m], and then the flags do not depend on
    their former values: [is_import] holds iff [i] was given, [is_insert]
    iff [r] or [m] was given, [is_merge] iff [m] was given; so a merge
    always comes with an insert. *)
Theorem Parse_flags (argc : Z) (opts : list Z) (flags : Flags) :
  ((argc < 2)%Z → Parse argc opts flags = (true, flags)) ∧
  ((2 ≤ argc)%Z →
   ((Parse argc opts flags).1 = true ↔ Forall known_option opts) ∧
   ∀ flags', Parse argc opts flags = (true, flags') →
             (is_import flags' = true ↔ opt_i ∈ opts) ∧
             (is_insert flags' = true ↔ opt_r ∈ opts ∨ opt_m ∈ opts) ∧
             (is_merge flags' = true ↔ opt_m ∈ opts) ∧
             (is_merge flags' = true → is_insert flags' = true)).
Proof.
  unfold Parse. split.
  - intros Hlt. apply Z.ltb_lt in Hlt. by rewrite Hlt.
  - intros Hge. apply Z.ltb_ge in Hge. rewrite Hge. split.
    + split; [|apply Parse_options_known].
      destruct (Parse_options opts (mkFlags false false false)) as [ok f] eqn:H.
      simpl. intros ->. by apply Parse_options_true in H as [? _].
    + intros flags' H. apply Parse_options_true in H as (_ & H1 & H2 & H3).
      simpl in *. rewrite H1, H2, H3. intuition congruence.
Qed.

Lemma Parse_flags_witness :
  Parse 1%Z [] (mkFlags true true true) = (true, mkFlags true true true) ∧
  ((Parse 2%Z [opt_m] (mkFlags true true true)).1 = true ↔
   Forall known_option [opt_m]).
Proof.
  split.
  - apply (proj1 (Parse_flags 1%Z [] (mkFlags true true true))). lia.
  - apply (proj2 (Parse_flags 2%Z [opt_m] (mkFlags true true true))). lia.
Defined.

Lemma bool_decide_of_iff (b : bool) (P : Prop) `{Decision P} :
  (b = true ↔ P) → b = bool_decide P.
Proof.
  intros Hiff. destruct b.
  - symmetry. apply bool_decide_eq_true. by apply Hiff.
  - symmetry. apply bool_decide_eq_false. intros HP. by apply Hiff in HP.
Qed.

(** X22.  [main] creates the database and drops and recreates the table
    before it looks at the command line, also when the options are then
    rejected: a usage error ends with status 1 after the table has been
    recreated and nothing else.  Without arguments every benchmark runs:
    import, index creation and insert, optimize.  With accepted options the
    benchmarks run in this order as selected, the insert always preceded by
    the index creation, and an optimize never without them. *)
Theorem main_steps (argc : Z) (opts : list Z) :
  head (main argc opts).2 = Some StepCreateDbAndTable ∧
  ((2 ≤ argc)%Z → ¬ Forall known_option opts →
   main argc opts = (1%Z, [StepCreateDbAndTable])) ∧
  ((argc < 2)%Z →
   main argc opts
   = (0%Z, [StepCreateDbAndTable; StepBenchmarkImport; StepBenchmarkCreateIndex;
            StepBenchmarkInsert; StepBenchmarkOptimize; StepSleep 10%Z;
            StepLocalUnInit])) ∧
  ((2 ≤ argc)%Z → Forall known_option opts →
   main argc opts
   = (0%Z,
      [StepCreateDbAndTable]
        ++ (if bool_decide (opt_i ∈ opts) then [StepBenchmarkImport] else [])
        ++ (if bool_decide (opt_r ∈ opts ∨ opt_m ∈ opts)
            then [StepBenchmarkCreateIndex; StepBenchmarkInsert] else [])
        ++ (if bool_decide (opt_m ∈ opts) then [StepBenchmarkOptimize] else [])
        ++ [StepSleep 10%Z; StepLocalUnInit])).
Proof.
  destruct (Parse_flags argc opts (mkFlags true true true)) as [Hnone Hsome].
  split; [|split; [|split]].
  - unfold main. destruct (Parse _ _ _) as [[|] f]; done.
  - intros Hge Hbad. destruct (Hsome Hge) as [Hok _]. unfold main.
    destruct (Parse _ _ _) as [[|] f]; [|done]. simpl in Hok.
    destruct Hbad. by apply Hok.
  - intros Hlt. unfold main. by rewrite (Hnone Hlt).
  - intros Hge Hall. destruct (Hsome Hge) as [Hok Hflags]. unfold main.
    destruct (Parse _ _ _) as [[|] f]; simpl in Hok.
    2: { apply Hok in Hall. done. }
    destruct (Hflags f eq_refl) as (H1 & H2 & H3 & _).
    rewrite (bool_decide_of_iff _ _ H1), (bool_decide_of_iff _ _ H2),
      (bool_decide_of_iff _ _ H3). done.
Qed.

Lemma main_steps_witness :
  main 2%Z [63%Z] = (1%Z, [StepCreateDbAndTable]) ∧
  main 1%Z []
  = (0%Z, [StepCreateDbAndTable; StepBenchmarkImport; StepBenchmarkCreateIndex;
           StepBenchmarkInsert; StepBenchmarkOptimize; StepSleep 10%Z;
           StepLocalUnInit]).
Proof.
  split.
  - apply (proj1 (proj2 (main_steps 2%Z [63%Z]))); [lia|].
    intros H. apply Forall_cons_1 in H as [[H|[H|H]] _]; discriminate H.
  - apply (proj1 (proj2 (proj2 (main_steps 1%Z [])))). lia.
Defined.

End BenchmarkTheory.

(** * Properties of the HTTP handlers *)

Module HttpTheory.
Import Http.

Lemma Query_run env session statement tr :
  Query env session statement tr
  = (QueryStatement env tr session statement,
     tr ++ [CallQueryStatement session statement]).
Proof. reflexivity. Qed.

Lemma RemoteConnect_run env tr :
  RemoteConnect env tr
  = (Ok (CreateRemoteSession env tr),
     tr ++ [CallCreateRemoteSession (CreateRemoteSession env tr)]).
Proof. reflexivity. Qed.

Lemma handler_tail session (c : M (list Call) QueryResult) tr r tr' :
  c (tr ++ [CallCreateRemoteSession session]) = (r, tr') →
  with_defer (RemoteDisconnect session)
    (bind c (λ result, mret (respond result)))
    (tr ++ [CallCreateRemoteSession session])
  = (match r with Ok result => Ok (respond result) | Throw e => Throw e end,
     tr' ++ [CallRemoveSessionByID session]).
Proof.
  intros H. unfold with_defer, bind. rewrite H. by destruct r.
Qed.

(** X24.  The three handlers release their session: whatever the request
    holds and whatever the query context answers or throws, the calls of
    [CreateDatabaseHandler], [DropDatabaseHandler] and [DropTableHandler]
    are the creation of a remote session, at most one statement run in that
    session, and the removal of that same session, which is also made when
    the body is rejected or the statement throws. *)
Theorem handlers_release_session (env : Env) (database_name table_name body_info : string)
    (tr : list Call) :
  let session := CreateRemoteSession env tr in
  (∃ calls, (CreateDatabaseHandler env database_name body_info tr).2 = tr ++ calls ∧
            one_session session calls) ∧
  (∃ calls, (DropDatabaseHandler env database_name body_info tr).2 = tr ++ calls ∧
            one_session session calls) ∧
  (∃ calls, (DropTableHandler env database_name table_name tr).2 = tr ++ calls ∧
            one_session session calls).
Proof.
  assert (Hrun : ∀ statement,
            ∃ calls,
              (with_defer (RemoteDisconnect (CreateRemoteSession env tr))
                 (bind (Query env (CreateRemoteSession env tr) statement)
                       (λ result, mret (respond result)))
                 (tr ++ [CallCreateRemoteSession (CreateRemoteSession env tr)])).2
              = tr ++ calls ∧
              one_session (CreateRemoteSession env tr) calls).
  { intros statement. erewrite handler_tail by apply Query_run. simpl.
    eexists. rewrite <- !app_assoc. split; [reflexivity|]. right. eauto. }
  simpl. split; [|split].
  - unfold CreateDatabaseHandler, RemoteConnect. run.
    destruct (json_string_member env body_info "create_option").
    + apply Hrun.
    + eexists. unfold with_defer. simpl. rewrite <- app_assoc.
      split; [reflexivity|]. by left.
  - unfold DropDatabaseHandler, RemoteConnect. run.
    destruct (json_string_member env body_info "drop_option").
    + apply Hrun.
    + eexists. unfold with_defer. simpl. rewrite <- app_assoc.
      split; [reflexivity|]. by left.
  - unfold DropTableHandler, RemoteConnect. run. apply Hrun.
Qed.

(** X25.  [CreateDatabaseHandler] requires a body that is a JSON object
    with a string member [create_option], but does not use it: the
    statement it runs creates the schema named by the path variable with
    the conflict type a [CreateDatabaseOptions] starts with, whatever the
    option says.  The response is 200 with [error_code] 0 when the result
    is ok, and 500 with the error code and message of the result otherwise.
    A body without the member ends the handler with the exception of the
    JSON library before any statement is run. *)
Theorem CreateDatabaseHandler_ignores_option (env : Env) (database_name body_info : string)
    (tr : list Call) :
  let session := CreateRemoteSession env tr in
  let statement := CreateSchemaStatement database_name (default_conflict_type env) in
  (∀ option result,
     json_string_member env body_info "create_option" = Some option →
     QueryStatement env (tr ++ [CallCreateRemoteSession session]) session statement
     = Ok result →
     CreateDatabaseHandler env database_name body_info tr
     = (Ok (mkResponse (if IsOk result then 200%Z else 500%Z)
              (if IsOk result
               then [("error_code"%string, JsonNumber 0%Z)]
               else [("error_code"%string, JsonNumber (ErrorCode result));
                     ("error_message"%string, JsonString (ErrorMsg result))])),
        tr ++ [CallCreateRemoteSession session; CallQueryStatement session statement;
               CallRemoveSessionByID session])) ∧
  (json_string_member env body_info "create_option" = None →
   CreateDatabaseHandler env database_name body_info tr
   = (Throw StdException,
      tr ++ [CallCreateRemoteSession session; CallRemoveSessionByID session])).
Proof.
  simpl. split.
  - intros option result Hbody Hquery.
    unfold CreateDatabaseHandler. rewrite (bind_Ok _ _ _ _ _ (RemoteConnect_run env tr)).
    rewrite Hbody. unfold CreateDatabase.
    rewrite (handler_tail _ _ _ _ _ (Query_run _ _ _ _)), Hquery.
    rewrite <- !app_assoc. unfold respond. by destruct (IsOk result).
  - intros Hbody. unfold CreateDatabaseHandler, RemoteConnect. run. rewrite Hbody.
    unfold with_defer. simpl. by rewrite <- app_assoc.
Qed.

Lemma CreateDatabaseHandler_ignores_option_witness :
  (CreateDatabaseHandler example_env "db2" "ignore_if_exists" []).1
  = Ok (mkResponse 500%Z [("error_code"%string, JsonNumber 3021%Z);
                          ("error_message"%string, JsonString "not found")]) ∧
  CreateDatabaseHandler example_env "db2" "" []
  = (Throw StdException, [CallCreateRemoteSession 0%N; CallRemoveSessionByID 0%N]).
Proof.
  split.
  - rewrite (proj1 (CreateDatabaseHandler_ignores_option example_env "db2"
                      "ignore_if_exists" [])
               "ignore_if_exists"%string (mkQueryResult false 3021%Z "not found")
               eq_refl eq_refl).
    reflexivity.
  - apply (proj2 (CreateDatabaseHandler_ignores_option example_env "db2" "" [])).
    reflexivity.
Defined.

End HttpTheory.
